(** * The evaluation core of the meta-language: trees, matcher, evaluator.

    A shallow embedding of [src/eval/evaluator.cpp].  Every [Tree*] of the
    source is an index into the arena [pool]; the evaluator is a state
    transformer over the arena, the global environment, the grammar tables
    and the two registries.  Loops and recursion over arena data carry a
    fuel argument, since the arena may hold cyclic structures (created by
    [set] and [letrec]). *)

From Stdlib Require Import ZArith String Ascii List Lia DecimalString.
From stdpp Require Import base list gmap strings.

Local Open Scope string_scope.
Local Open Scope Z_scope.

Module Eval.

(** ** Data model *)

(** A [Tree*]: the position of the node in the arena. *)
Abbreviation ptr := nat.

(** The tagged union [Tree]; [Nat64] holds a 64-bit unsigned integer,
    kept in [0, 2^64) by wrapping every arithmetic result. *)
Inductive Tree : Type :=
| Nil
| Cons (head tail : ptr)
| Symbol (val : string)
| String (val : string)
| Nat64 (val : Z)
| Bool (val : bool)
| Unit
| Closure (env formal es : ptr)
| Prim (id : nat).

Definition wrap64 (z : Z) : Z := z mod 2 ^ 64.

(** The lambdas handed to [addPrimitive], in registration order. *)
Inductive PrimFn : Type :=
| p_lambda | p_cond | p_quote | p_unquote | p_match | p_let | p_letrec
| p_define | p_define_macro | p_set | p_begin
| p_eval | p_env | p_get_syntax | p_set_syntax
| p_get_global_env | p_set_global_env
| p_nil | p_cons | p_list | p_id
| p_string_symbol | p_string_nat64 | p_string_escape | p_string_unescape
| p_string_length | p_string_char | p_char_string | p_string_concat
| p_string_substr | p_string_eq
| p_minus | p_add | p_sub | p_mul | p_div | p_mod
| p_le | p_lt | p_ge | p_gt | p_eq | p_neq
| p_not | p_and | p_or | p_implies | p_iff
| p_print | p_display | p_debug_save_file.

(** *** The lexer and the parser, as far as the evaluator drives them

    Modelled from the spec: the lexer and the Earley parser that the
    evaluator calls ([empty], [charsvec], [clearPatterns], [addPattern]
    returning the new id, [getForest], ...) are not among the sources; the
    lexer header that is there belongs to another revision and has none of
    these.  Following section 6 of the specification a pattern builder is
    kept as a term, [addPattern] and [addRule] append and return the
    position, and the forest is indexed [pos][i] with back-links
    [(prev, child)]. *)
#[warnings="-register-all"]
Inductive NFA : Type :=
| nfa_empty | nfa_any | nfa_utf8segment
| nfa_charsvec (cs : string) | nfa_exceptvec (cs : string)
| nfa_range (l u : Z) | nfa_word (w : string)
| nfa_altvec (l : list NFA) | nfa_concatvec (l : list NFA)
| nfa_opt (a : NFA) | nfa_star (a : NFA) | nfa_plus (a : NFA).

Record Location : Type := { l_pos : nat; l_i : nat }.

Record EarleyState : Type := { startPos : nat; rule : nat; progress : nat }.

Record Token : Type := { pattern : nat; lexeme : string }.

Record Parser : Type := {
  ignoredSymbol : nat;
  startSymbol : nat;
  parserPatterns : list (nat * Z);
  parserRules : list ((nat * Z) * list (nat * Z));
  sentence : list Token;
  forest : list (list (EarleyState * list (Location * Location)))
}.

Record Grammar : Type := {
  patterns : ptr;
  rules : ptr;
  symbolNames : list string;
  nameSymbols : gmap string nat;
  patternNames : list string;
  ruleNames : list string;
  lexer : list NFA;
  parser : Parser
}.

(** The mutations a statement can perform on the evaluator; [trace]
    below records them.  The log is ghost state: nothing reads it. *)
Inductive Effect : Type :=
| did_define | did_define_macro | did_set | did_set_syntax | did_set_global_env.

Record State : Type := {
  pool : list Tree;
  globalEnv : ptr;
  grammar : Grammar;
  macros : list (ptr * ptr * ptr);
  nameMacros : gmap string nat;
  prims : list (bool * PrimFn);
  namePrims : gmap string nat;
  stdout : list string;
  files : list (string * string);
  trace : list Effect
}.

(** The two sentinels, the first two nodes the constructor allocates. *)
Definition nil_ : ptr := 0%nat.
Definition unit_ : ptr := 1%nat.

Definition IgnoredSymbol : nat := 0.
Definition StartSymbol : nat := 1.

(** Parts of the program that are not in the sources and on which the
    evaluator only calls: printing and escaping of trees, the message of a
    failed [expect], whether a file can be opened, the [Leaf] marker of the
    parser and the default depth budget of [resolve]. *)
Record Host : Type := {
  toString : list Tree -> ptr -> string;
  escapeString : string -> string;
  unescapeString : string -> option string;
  expectMessage : string -> list Tree -> ptr -> string;
  fileOpens : string -> bool;
  Leaf : Location;
  defaultMaxDepth : nat
}.

(** ** Outcomes and the evaluator monad *)

(** The exceptions that leave the evaluator. *)
Inductive Exn : Type :=
| PartialEvalError (msg : string) (at_ : ptr)
| EvalError (msg : string) (at_ e : ptr)
| NotImplemented
| Unreachable
| StdException (what : string).

(** Modelled from the spec: the macros [unreachable] and [notimplemented]
    come from a missing header; both are fatal, and are kept apart from the
    evaluation errors as the exceptions [Unreachable] and [NotImplemented].
    [StdException] stands for the exceptions of the C++ library.

    [Abort] is [std::terminate] (a failed [noexcept] [get]); [Undefined] is
    undefined behaviour of the source (index out of range, division by
    zero) and also a pointer outside the arena, which the source cannot
    produce. *)
Inductive Outcome (A : Type) : Type :=
| Ret (a : A)
| Throw (x : Exn)
| Abort
| Undefined
| OutOfFuel.
Arguments Ret {A} a.
Arguments Throw {A} x.
Arguments Abort {A}.
Arguments Undefined {A}.
Arguments OutOfFuel {A}.

Definition M (A : Type) : Type := State -> Outcome A * State.

Definition ret {A} (a : A) : M A := fun st => (Ret a, st).
Definition throw {A} (x : Exn) : M A := fun st => (Throw x, st).
Definition abort {A} : M A := fun st => (Abort, st).
Definition undefined {A} : M A := fun st => (Undefined, st).
Definition outOfFuel {A} : M A := fun st => (OutOfFuel, st).

Definition bind {A B} (m : M A) (f : A -> M B) : M B :=
  fun st =>
    match m st with
    | (Ret a, st') => f a st'
    | (Throw x, st') => (Throw x, st')
    | (Abort, st') => (Abort, st')
    | (Undefined, st') => (Undefined, st')
    | (OutOfFuel, st') => (OutOfFuel, st')
    end.

Notation "x <- c1 ;; c2" := (bind c1 (fun x => c2))
  (at level 100, c1 at next level, right associativity).
Notation "c1 ;; c2" := (bind c1 (fun _ => c2))
  (at level 100, right associativity).

(** [try { m } catch (PartialEvalError& ex) { throw EvalError(ex.what(), ex.at, e); }] *)
Definition decorate {A} (e : ptr) (m : M A) : M A :=
  fun st =>
    match m st with
    | (Throw (PartialEvalError msg a), st') => (Throw (EvalError msg a e), st')
    | r => r
    end.

Definition get : M State := fun st => (Ret st, st).
Definition modify (f : State -> State) : M ()%type := fun st => (Ret tt, f st).

(** *** Field updates *)

Definition set_pool (p : list Tree) (st : State) : State :=
  {| pool := p; globalEnv := globalEnv st; grammar := grammar st;
     macros := macros st; nameMacros := nameMacros st;
     prims := prims st; namePrims := namePrims st;
     stdout := stdout st; files := files st; trace := trace st |}.

Definition set_globalEnv (g : ptr) (st : State) : State :=
  {| pool := pool st; globalEnv := g; grammar := grammar st;
     macros := macros st; nameMacros := nameMacros st;
     prims := prims st; namePrims := namePrims st;
     stdout := stdout st; files := files st; trace := trace st |}.

Definition set_grammar (g : Grammar) (st : State) : State :=
  {| pool := pool st; globalEnv := globalEnv st; grammar := g;
     macros := macros st; nameMacros := nameMacros st;
     prims := prims st; namePrims := namePrims st;
     stdout := stdout st; files := files st; trace := trace st |}.

Definition set_macros (ms : list (ptr * ptr * ptr)) (nm : gmap string nat)
    (st : State) : State :=
  {| pool := pool st; globalEnv := globalEnv st; grammar := grammar st;
     macros := ms; nameMacros := nm;
     prims := prims st; namePrims := namePrims st;
     stdout := stdout st; files := files st; trace := trace st |}.

Definition set_prims (ps : list (bool * PrimFn)) (np : gmap string nat)
    (st : State) : State :=
  {| pool := pool st; globalEnv := globalEnv st; grammar := grammar st;
     macros := macros st; nameMacros := nameMacros st;
     prims := ps; namePrims := np;
     stdout := stdout st; files := files st; trace := trace st |}.

Definition set_stdout (o : list string) (st : State) : State :=
  {| pool := pool st; globalEnv := globalEnv st; grammar := grammar st;
     macros := macros st; nameMacros := nameMacros st;
     prims := prims st; namePrims := namePrims st;
     stdout := o; files := files st; trace := trace st |}.

Definition set_files (fs : list (string * string)) (st : State) : State :=
  {| pool := pool st; globalEnv := globalEnv st; grammar := grammar st;
     macros := macros st; nameMacros := nameMacros st;
     prims := prims st; namePrims := namePrims st;
     stdout := stdout st; files := fs; trace := trace st |}.

Definition set_trace (t : list Effect) (st : State) : State :=
  {| pool := pool st; globalEnv := globalEnv st; grammar := grammar st;
     macros := macros st; nameMacros := nameMacros st;
     prims := prims st; namePrims := namePrims st;
     stdout := stdout st; files := files st; trace := t |}.

(** Ghost: note that a mutating primitive is about to act. *)
Definition note (ev : Effect) : M ()%type :=
  modify (fun st => set_trace (ev :: trace st) st).

(** ** The arena *)

(** [pool.emplaceBack(t)]: the node goes to the end, pointers are stable. *)
Definition emplaceBack (t : Tree) : M ptr :=
  fun st => (Ret (length (pool st)), set_pool (pool st ++ [t]) st).

(** [e->v] *)
Definition deref (p : ptr) : M Tree :=
  fun st =>
    match pool st !! p with
    | Some t => (Ret t, st)
    | None => (Undefined, st)
    end.

Definition mk_cons (h t : ptr) : M ptr := emplaceBack (Cons h t).
Definition sym (s : string) : M ptr := emplaceBack (Symbol s).
Definition str (s : string) : M ptr := emplaceBack (String s).
Definition mk_nat (n : Z) : M ptr := emplaceBack (Nat64 n).
Definition boolean (b : bool) : M ptr := emplaceBack (Bool b).

(** [makeList]: conses from the last element backwards. *)
Fixpoint makeList (es : list ptr) : M ptr :=
  match es with
  | [] => ret nil_
  | e :: es' => r <- makeList es' ;; mk_cons e r
  end.

Section WithHost.
Context (host : Host).

(** Modelled from the spec: [expect<T>] is declared in the missing header;
    a failed [expect] is the "type mismatch" evaluation error of section 7,
    thrown as a [PartialEvalError] at the offending tree. *)
Definition expectFail {A} (what : string) (e : ptr) : M A :=
  st <- get ;; throw (PartialEvalError (expectMessage host what (pool st) e) e).

Definition expectCons (e : ptr) : M (ptr * ptr) :=
  t <- deref e ;;
  match t with Cons h tl => ret (h, tl) | _ => expectFail "Cons" e end.

Definition expectNil (e : ptr) : M ()%type :=
  t <- deref e ;;
  match t with Nil => ret tt | _ => expectFail "Nil" e end.

Definition expectSymbol (e : ptr) : M string :=
  t <- deref e ;;
  match t with Symbol s => ret s | _ => expectFail "Symbol" e end.

Definition expectString (e : ptr) : M string :=
  t <- deref e ;;
  match t with String s => ret s | _ => expectFail "String" e end.

Definition expectNat64 (e : ptr) : M Z :=
  t <- deref e ;;
  match t with Nat64 n => ret n | _ => expectFail "Nat64" e end.

Definition expectBool (e : ptr) : M bool :=
  t <- deref e ;;
  match t with Bool b => ret b | _ => expectFail "Bool" e end.

Definition expectClosure (e : ptr) : M (ptr * ptr * ptr) :=
  t <- deref e ;;
  match t with Closure c f b => ret (c, f, b) | _ => expectFail "Closure" e end.

(** [expect<Cons>(e).head] *)
Definition expectHead (e : ptr) : M ptr :=
  c <- expectCons e ;; ret (fst c).

(** ** Environments *)

(** [Evaluator::extend]: entries are two-element lists [(symbol value)].
    C++ does not fix the order of the two inner allocations; it decides
    addresses only. *)
Definition extend (env : ptr) (s : string) (e : ptr) : M ptr :=
  k <- sym s ;;
  v <- mk_cons e nil_ ;;
  entry <- mk_cons k v ;;
  mk_cons entry env.

(** [Evaluator::lookup]; [None] is the source's [nullptr]. *)
Fixpoint lookup (fuel : nat) (env : ptr) (s : string) : M (option ptr) :=
  match fuel with
  | O => outOfFuel
  | S fuel' =>
    it <- deref env ;;
    match it with
    | Cons curr next =>
      c <- deref curr ;;
      match c with
      | Cons lhs t =>
        u <- deref t ;;
        match u with
        | Cons rhs _ =>
          l <- deref lhs ;;
          match l with
          | Symbol v =>
            if String.eqb v s then
              r <- deref rhs ;;
              match r with Unit => ret None | _ => ret (Some rhs) end
            else lookup fuel' next s
          | _ => lookup fuel' next s
          end
        | _ => lookup fuel' next s
        end
      | _ => lookup fuel' next s
      end
    | _ => ret None
    end
  end.

(** ** Structural equality

    Modelled from the spec: [operator==] on [Tree] is declared in the
    missing header; section 3 makes it structural and deep over all
    variants. *)
Fixpoint tree_eq (fuel : nat) (a b : ptr) : M bool :=
  match fuel with
  | O => outOfFuel
  | S fuel' =>
    x <- deref a ;;
    y <- deref b ;;
    match x, y with
    | Nil, Nil => ret true
    | Cons h1 t1, Cons h2 t2 =>
      c <- tree_eq fuel' h1 h2 ;;
      if c : bool then tree_eq fuel' t1 t2 else ret false
    | Symbol s1, Symbol s2 => ret (String.eqb s1 s2)
    | String s1, String s2 => ret (String.eqb s1 s2)
    | Nat64 n1, Nat64 n2 => ret (Z.eqb n1 n2)
    | Bool b1, Bool b2 => ret (Bool.eqb b1 b2)
    | Unit, Unit => ret true
    | Closure e1 f1 b1, Closure e2 f2 b2 =>
      c <- tree_eq fuel' e1 e2 ;;
      if c : bool then
        d <- tree_eq fuel' f1 f2 ;;
        if d : bool then tree_eq fuel' b1 b2 else ret false
      else ret false
    | Prim i, Prim j => ret (Nat.eqb i j)
    | _, _ => ret false
    end
  end.

(** ** Pattern matcher *)

(** [Evaluator::match].  The source passes [env] by reference and returns
    the flag; here both come back, the environment also on failure. *)
Fixpoint match_ (fuel : nat) (e pat env : ptr) (quoteMode : bool)
    : M (bool * ptr) :=
  match fuel with
  | O => outOfFuel
  | S fuel' =>
    p <- deref pat ;;
    match p, quoteMode with
    | Symbol s, false =>
      if String.eqb s "_" then ret (true, env)
      else env' <- extend env s e ;; ret (true, env')
    | Cons h t, _ =>
      hh <- deref h ;;
      let structural :=
        x <- deref e ;;
        match x with
        | Cons eh et =>
          r <- match_ fuel' eh h env quoteMode ;;
          if fst r then match_ fuel' et t (snd r) quoteMode
          else ret (false, snd r)
        | _ => ret (false, env)
        end in
      match hh with
      | Symbol s =>
        if String.eqb s "quote" && negb quoteMode then
          q <- expectHead t ;; match_ fuel' e q env true
        else if String.eqb s "unquote" && quoteMode then
          q <- expectHead t ;; match_ fuel' e q env false
        else if String.eqb s "..." then
          x <- deref e ;;
          match x with
          | Nil | Cons _ _ => ret (true, env)
          | _ => ret (false, env)
          end
        else structural
      | _ => structural
      end
    | _, _ => b <- tree_eq fuel' e pat ;; ret (b, env)
    end
  end.

(** ** Library functions on strings and numbers *)

Definition code (c : ascii) : Z := Z.of_N (N_of_ascii c).

(** [isspace] in the C locale. *)
Definition is_space (c : ascii) : bool :=
  let n := code c in (n =? 32) || ((9 <=? n) && (n <=? 13)).

(** The value of a digit character, letters counting from ten. *)
Definition digit_val (c : ascii) : option Z :=
  let n := code c in
  if (48 <=? n) && (n <=? 57) then Some (n - 48)
  else if (97 <=? n) && (n <=? 122) then Some (n - 87)
  else if (65 <=? n) && (n <=? 90) then Some (n - 55)
  else None.

Fixpoint skip_spaces (s : string) : string :=
  match s with
  | String.String c s' => if is_space c then skip_spaces s' else s
  | EmptyString => s
  end.

(** Reads the longest run of digits of [base], most significant first;
    [None] when the run is empty. *)
Fixpoint read_digits (base : Z) (s : string) (acc : option Z) : option Z :=
  match s with
  | String.String c s' =>
    match digit_val c with
    | Some d =>
      if d <? base then read_digits base s' (Some (default 0 acc * base + d))
      else acc
    | None => acc
    end
  | EmptyString => acc
  end.

Definition is_hex_digit (c : ascii) : bool :=
  match digit_val c with Some d => d <? 16 | None => false end.

(** The base [strtoull] picks when called with base 0, and the text the
    digits are read from. *)
Definition detect_base (s : string) : Z * string :=
  match s with
  | String.String "0" (String.String x (String.String h r)) =>
    if ((code x =? 120) || (code x =? 88)) && is_hex_digit h
    then (16, String.String h r) else (8, s)
  | String.String "0" _ => (8, s)
  | _ => (10, s)
  end.

Inductive Conversion : Type :=
| Converted (v : Z)
| NoConversion
| OutOfRange.

(** [strtoull(s, &end, 0)]: white space, an optional sign, the base by
    prefix, then digits; a minus sign negates in the unsigned type. *)
Definition strtoull0 (s : string) : Conversion :=
  let s1 := skip_spaces s in
  let '(neg, s2) :=
    match s1 with
    | String.String "-" r => (true, r)
    | String.String "+" r => (false, r)
    | _ => (false, s1)
    end in
  let '(base, s3) := detect_base s2 in
  match read_digits base s3 None with
  | None => NoConversion
  | Some v =>
    if 2 ^ 64 <=? v then OutOfRange
    else Converted (if neg : bool then wrap64 (- v) else v)
  end.

(** [std::stoull(s, nullptr, 0)] *)
Definition stoull0 (s : string) : M Z :=
  match strtoull0 s with
  | Converted v => ret v
  | NoConversion => throw (StdException "invalid_argument: stoull")
  | OutOfRange => throw (StdException "out_of_range: stoull")
  end.

(** [std::to_string] on an unsigned number. *)
Definition to_string (z : Z) : string :=
  NilZero.string_of_uint (N.to_uint (Z.to_N z)).

(** [s.substr(pos, len)] for [pos <= s.size()]: the length is cut to what
    is left of the string. *)
Definition substr (s : string) (pos len : Z) : string :=
  substring (Z.to_nat pos)
            (Z.to_nat (Z.min len (Z.of_nat (String.length s)))) s.

Definition size (s : string) : Z := Z.of_nat (String.length s).

(** ** Syntax installer *)

Definition set_tables (sn : list string) (ns : gmap string nat)
    (g : Grammar) : Grammar :=
  {| patterns := patterns g; rules := rules g;
     symbolNames := sn; nameSymbols := ns;
     patternNames := patternNames g; ruleNames := ruleNames g;
     lexer := lexer g; parser := parser g |}.

(** Modelled from the spec: [getSymbol] is declared in the missing header;
    the symbol table interns a name, giving a new name the next id. *)
Definition getSymbol (name : string) : M nat :=
  st <- get ;;
  let g := grammar st in
  match nameSymbols g !! name with
  | Some id => ret id
  | None =>
    let id := length (symbolNames g) in
    modify (set_grammar
      (set_tables (symbolNames g ++ [name]) (<[name := id]> (nameSymbols g)) g)) ;;
    ret id
  end.

(** [Evaluator::treePattern] *)
Fixpoint treePattern (fuel : nat) (e : ptr) : M NFA :=
  match fuel with
  | O => outOfFuel
  | S fuel' =>
    c <- expectCons e ;;
    let tag := fst c in
    let t := snd c in
    stag <- expectSymbol tag ;;
    if String.eqb stag "empty" then ret nfa_empty
    else if String.eqb stag "any" then ret nfa_any
    else if String.eqb stag "utf8seg" then ret nfa_utf8segment
    else if String.eqb stag "char" then
      h <- expectHead t ;; w <- expectString h ;; ret (nfa_charsvec w)
    else if String.eqb stag "except" then
      h <- expectHead t ;; w <- expectString h ;; ret (nfa_exceptvec w)
    else if String.eqb stag "range" then
      c1 <- expectCons t ;;
      c2 <- expectCons (snd c1) ;;
      l <- expectNat64 (fst c1) ;;
      u <- expectNat64 (fst c2) ;;
      ret (nfa_range (l mod 256) (u mod 256))
    else if String.eqb stag "word" then
      h <- expectHead t ;; w <- expectString h ;; ret (nfa_word w)
    else if String.eqb stag "alt" then
      ls <- listPatterns fuel' t ;; ret (nfa_altvec ls)
    else if String.eqb stag "concat" then
      ls <- listPatterns fuel' t ;; ret (nfa_concatvec ls)
    else if String.eqb stag "opt" then
      h <- expectHead t ;; a <- treePattern fuel' h ;; ret (nfa_opt a)
    else if String.eqb stag "star" then
      h <- expectHead t ;; a <- treePattern fuel' h ;; ret (nfa_star a)
    else if String.eqb stag "plus" then
      h <- expectHead t ;; a <- treePattern fuel' h ;; ret (nfa_plus a)
    else throw NotImplemented
  end

(** [Evaluator::listPatterns] *)
with listPatterns (fuel : nat) (e : ptr) : M (list NFA) :=
  match fuel with
  | O => outOfFuel
  | S fuel' =>
    it <- deref e ;;
    match it with
    | Cons h tl =>
      a <- treePattern fuel' h ;;
      r <- listPatterns fuel' tl ;;
      ret (a :: r)
    | _ => ret []
    end
  end.

(** [Evaluator::listSymbols] *)
Fixpoint listSymbols (fuel : nat) (e : ptr) : M (list (nat * Z)) :=
  match fuel with
  | O => outOfFuel
  | S fuel' =>
    it <- deref e ;;
    match it with
    | Cons h tl =>
      c <- expectCons h ;;
      c' <- expectCons (snd c) ;;
      name <- expectSymbol (fst c) ;;
      id <- getSymbol name ;;
      pre <- expectNat64 (fst c') ;;
      r <- listSymbols fuel' tl ;;
      ret ((id, pre) :: r)
    | _ => ret []
    end
  end.

Definition modify_grammar (f : Grammar -> Grammar) : M ()%type :=
  modify (fun st => set_grammar (f (grammar st)) st).

Definition set_parser (p : Parser) (g : Grammar) : Grammar :=
  {| patterns := patterns g; rules := rules g;
     symbolNames := symbolNames g; nameSymbols := nameSymbols g;
     patternNames := patternNames g; ruleNames := ruleNames g;
     lexer := lexer g; parser := p |}.

(** The entry [(name (sym prec) rhs)] of a pattern or a rule, taken apart
    as both loops of [setSyntax] do. *)
Definition syntaxEntry (e : ptr) : M (ptr * ptr * ptr * ptr) :=
  c <- expectCons e ;;
  c1 <- expectCons (snd c) ;;
  c2 <- expectCons (snd c1) ;;
  c3 <- expectCons (fst c1) ;;
  c4 <- expectCons (snd c3) ;;
  ret (fst c, fst c2, fst c3, fst c4).

(** The loop "Add patterns" of [setSyntax]. *)
Fixpoint addPatterns (fuel : nat) (it : ptr) : M ()%type :=
  match fuel with
  | O => outOfFuel
  | S fuel' =>
    t <- deref it ;;
    match t with
    | Cons h tl =>
      en <- syntaxEntry h ;;
      let '(name, rhs, sy, pre) := en in
      sname <- expectSymbol sy ;;
      sid <- (if String.eqb sname "_" then ret IgnoredSymbol else getSymbol sname) ;;
      st <- get ;;
      let pid := length (patternNames (grammar st)) in
      n <- expectSymbol name ;;
      modify_grammar (fun g =>
        {| patterns := patterns g; rules := rules g;
           symbolNames := symbolNames g; nameSymbols := nameSymbols g;
           patternNames := patternNames g ++ [n]; ruleNames := ruleNames g;
           lexer := lexer g; parser := parser g |}) ;;
      a <- treePattern fuel' rhs ;;
      st1 <- get ;;
      let lid := length (lexer (grammar st1)) in
      modify_grammar (fun g =>
        {| patterns := patterns g; rules := rules g;
           symbolNames := symbolNames g; nameSymbols := nameSymbols g;
           patternNames := patternNames g; ruleNames := ruleNames g;
           lexer := lexer g ++ [a]; parser := parser g |}) ;;
      (if Nat.eqb lid pid then ret tt else throw Unreachable) ;;
      p <- expectNat64 pre ;;
      st2 <- get ;;
      let ps := parser (grammar st2) in
      let qid := length (parserPatterns ps) in
      modify_grammar (set_parser
        {| ignoredSymbol := ignoredSymbol ps; startSymbol := startSymbol ps;
           parserPatterns := parserPatterns ps ++ [(sid, p)];
           parserRules := parserRules ps;
           sentence := sentence ps; forest := forest ps |}) ;;
      (if Nat.eqb qid pid then ret tt else throw Unreachable) ;;
      addPatterns fuel' tl
    | _ => ret tt
    end
  end.

(** The loop "Add rules" of [setSyntax]. *)
Fixpoint addRules (fuel : nat) (it : ptr) : M ()%type :=
  match fuel with
  | O => outOfFuel
  | S fuel' =>
    t <- deref it ;;
    match t with
    | Cons h tl =>
      en <- syntaxEntry h ;;
      let '(name, rhs, sy, pre) := en in
      sname <- expectSymbol sy ;;
      sid <- (if String.eqb sname "_" then ret StartSymbol else getSymbol sname) ;;
      st <- get ;;
      let rid := length (ruleNames (grammar st)) in
      n <- expectSymbol name ;;
      modify_grammar (fun g =>
        {| patterns := patterns g; rules := rules g;
           symbolNames := symbolNames g; nameSymbols := nameSymbols g;
           patternNames := patternNames g; ruleNames := ruleNames g ++ [n];
           lexer := lexer g; parser := parser g |}) ;;
      p <- expectNat64 pre ;;
      syms <- listSymbols fuel' rhs ;;
      st2 <- get ;;
      let ps := parser (grammar st2) in
      let qid := length (parserRules ps) in
      modify_grammar (set_parser
        {| ignoredSymbol := ignoredSymbol ps; startSymbol := startSymbol ps;
           parserPatterns := parserPatterns ps;
           parserRules := parserRules ps ++ [((sid, p), syms)];
           sentence := sentence ps; forest := forest ps |}) ;;
      (if Nat.eqb qid rid then ret tt else throw Unreachable) ;;
      addRules fuel' tl
    | _ => ret tt
    end
  end.

(** [Evaluator::setSyntax] *)
Definition setSyntax (fuel : nat) (p r : ptr) : M ()%type :=
  modify_grammar (fun g =>
    let ps := parser g in
    {| patterns := p; rules := r;
       symbolNames := ["_"; "_"]; nameSymbols := ∅;
       patternNames := []; ruleNames := [];
       lexer := [];
       parser :=
         {| ignoredSymbol := IgnoredSymbol; startSymbol := StartSymbol;
            parserPatterns := []; parserRules := [];
            sentence := sentence ps; forest := forest ps |} |}) ;;
  st <- get ;;
  addPatterns fuel (patterns (grammar st)) ;;
  st' <- get ;;
  addRules fuel (rules (grammar st')).

(** ** Primitive procedures (arguments evaluated) *)

(** [Result { env?, e }]: with an environment it asks for a tail call. *)
Record Result : Type := { res_env : option ptr; res_e : ptr }.

Definition value (e : ptr) : Result := {| res_env := None; res_e := e |}.
Definition tailcall (env e : ptr) : Result :=
  {| res_env := Some env; res_e := e |}.

(** The shared [btrue] and [bfalse], allocated right after the sentinels. *)
Definition btrue : ptr := 2%nat.
Definition bfalse : ptr := 3%nat.

(** A reference to the head of a cons cell, read when it is used; [get]
    is [noexcept], so another variant terminates the program. *)
Definition headOf (cell : ptr) : M ptr :=
  t <- deref cell ;;
  match t with Cons h _ => ret h | _ => abort end.

(** [const auto& [lhs, t] = expect<Cons>(e); const auto& [rhs, _] = expect<Cons>(t);] *)
Definition twoArgs (e : ptr) : M (ptr * ptr) :=
  c <- expectCons e ;;
  c' <- expectCons (snd c) ;;
  ret (fst c, fst c').

Definition prim_eval (env e : ptr) : M Result :=
  c <- expectCons e ;;
  t <- deref (snd c) ;;
  match t with
  | Cons _ _ => env' <- expectHead (snd c) ;; ret (tailcall env' (fst c))
  | _ => ret (tailcall env (fst c))
  end.

Definition prim_env (env e : ptr) : M Result := ret (value env).

Definition prim_get_syntax (env e : ptr) : M Result :=
  st <- get ;;
  r <- mk_cons (rules (grammar st)) nil_ ;;
  p <- mk_cons (patterns (grammar st)) r ;;
  ret (value p).

Definition prim_set_syntax (fuel : nat) (env e : ptr) : M Result :=
  a <- twoArgs e ;;
  note did_set_syntax ;;
  setSyntax fuel (fst a) (snd a) ;;
  ret (value unit_).

Definition prim_get_global_env (env e : ptr) : M Result :=
  st <- get ;; ret (value (globalEnv st)).

Definition prim_set_global_env (env e : ptr) : M Result :=
  h <- expectHead e ;;
  note did_set_global_env ;;
  modify (set_globalEnv h) ;;
  ret (value unit_).

Definition prim_nil (env e : ptr) : M Result := ret (value nil_).

Definition prim_cons (env e : ptr) : M Result :=
  a <- twoArgs e ;;
  p <- mk_cons (fst a) (snd a) ;;
  ret (value p).

Definition prim_list (env e : ptr) : M Result := ret (value e).

Definition prim_id (env e : ptr) : M Result :=
  h <- expectHead e ;; ret (value h).

Definition prim_string_symbol (env e : ptr) : M Result :=
  h <- expectHead e ;; v <- expectString h ;;
  p <- sym v ;; ret (value p).

Definition prim_string_nat64 (env e : ptr) : M Result :=
  h <- expectHead e ;; v <- expectString h ;;
  n <- stoull0 v ;;
  p <- mk_nat n ;; ret (value p).

Definition prim_string_escape (env e : ptr) : M Result :=
  h <- expectHead e ;; v <- expectString h ;;
  p <- str (escapeString host v) ;; ret (value p).

Definition prim_string_unescape (env e : ptr) : M Result :=
  h <- expectHead e ;; v <- expectString h ;;
  match unescapeString host v with
  | Some u => p <- str u ;; ret (value p)
  | None => throw (StdException "unescapeString")
  end.

Definition prim_string_length (env e : ptr) : M Result :=
  h <- expectHead e ;; v <- expectString h ;;
  p <- mk_nat (size v) ;; ret (value p).

Definition prim_string_char (env e : ptr) : M Result :=
  a <- twoArgs e ;;
  sv <- expectString (fst a) ;;
  iv <- expectNat64 (snd a) ;;
  if size sv <=? iv then
    throw (PartialEvalError ("Index " ++ to_string iv ++ " out of range") (snd a))
  else
    match String.get (Z.to_nat iv) sv with
    | Some c => p <- mk_nat (code c) ;; ret (value p)
    | None => undefined
    end.

Definition prim_char_string (env e : ptr) : M Result :=
  c <- expectCons e ;;
  cv <- expectNat64 (fst c) ;;
  if 256 <=? cv then
    throw (PartialEvalError
             ("Character code " ++ to_string cv ++ " out of range") (fst c))
  else
    p <- str (String.String (ascii_of_N (Z.to_N cv)) EmptyString) ;;
    ret (value p).

Definition prim_string_concat (env e : ptr) : M Result :=
  a <- twoArgs e ;;
  l <- expectString (fst a) ;;
  r <- expectString (snd a) ;;
  p <- str (l ++ r) ;; ret (value p).

Definition prim_string_substr (env e : ptr) : M Result :=
  c <- expectCons e ;;
  c1 <- expectCons (snd c) ;;
  c2 <- expectCons (snd c1) ;;
  sv <- expectString (fst c) ;;
  posv <- expectNat64 (fst c1) ;;
  let posv' := if size sv <? posv then size sv else posv in
  len <- expectNat64 (fst c2) ;;
  p <- str (substr sv posv' len) ;; ret (value p).

Definition prim_string_eq (env e : ptr) : M Result :=
  a <- twoArgs e ;;
  l <- expectString (fst a) ;;
  r <- expectString (snd a) ;;
  p <- boolean (String.eqb l r) ;; ret (value p).

(** The macro [unary(T, name, op)] at [Nat64] and at [Bool]. *)
Definition unary_Nat64 (op : Z -> Z) (env e : ptr) : M Result :=
  c <- expectCons e ;;
  v <- expectNat64 (fst c) ;;
  p <- emplaceBack (Nat64 (op v)) ;; ret (value p).

Definition unary_Bool (op : bool -> bool) (env e : ptr) : M Result :=
  c <- expectCons e ;;
  v <- expectBool (fst c) ;;
  p <- emplaceBack (Bool (op v)) ;; ret (value p).

(** The macro [binary(T, name, op)] at [Nat64]; [op] gives [None] where the
    machine operation has no defined result. *)
Definition binary_Nat64 (op : Z -> Z -> option Z) (env e : ptr) : M Result :=
  a <- twoArgs e ;;
  l <- expectNat64 (fst a) ;;
  r <- expectNat64 (snd a) ;;
  match op l r with
  | Some v => p <- emplaceBack (Nat64 v) ;; ret (value p)
  | None => undefined
  end.

(** [binary] at [Bool] with [&&] and [||]: the right operand, and its
    [expect], are reached only when the left one does not decide. *)
Definition binary_Bool_and (env e : ptr) : M Result :=
  a <- twoArgs e ;;
  l <- expectBool (fst a) ;;
  v <- (if l then expectBool (snd a) else ret false) ;;
  p <- emplaceBack (Bool v) ;; ret (value p).

Definition binary_Bool_or (env e : ptr) : M Result :=
  a <- twoArgs e ;;
  l <- expectBool (fst a) ;;
  v <- (if l then ret true else expectBool (snd a)) ;;
  p <- emplaceBack (Bool v) ;; ret (value p).

Definition binary_Bool (op : bool -> bool -> bool) (env e : ptr) : M Result :=
  a <- twoArgs e ;;
  l <- expectBool (fst a) ;;
  r <- expectBool (snd a) ;;
  p <- emplaceBack (Bool (op l r)) ;; ret (value p).

(** The macro [binpred(T, name, op)] at [Nat64]. *)
Definition binpred_Nat64 (op : Z -> Z -> bool) (env e : ptr) : M Result :=
  a <- twoArgs e ;;
  l <- expectNat64 (fst a) ;;
  r <- expectNat64 (snd a) ;;
  ret (value (if op l r then btrue else bfalse)).

(** The operators of the source on [uint64_t]. *)
Definition op_minus (a : Z) : Z := wrap64 (- a).
Definition op_add (a b : Z) : option Z := Some (wrap64 (a + b)).
Definition op_sub (a b : Z) : option Z := Some (wrap64 (a - b)).
Definition op_mul (a b : Z) : option Z := Some (wrap64 (a * b)).
Definition op_div (a b : Z) : option Z :=
  if b =? 0 then None else Some (a / b).
Definition op_mod (a b : Z) : option Z :=
  if b =? 0 then None else Some (a mod b).

Definition prim_minus := unary_Nat64 op_minus.
Definition prim_add := binary_Nat64 op_add.
Definition prim_sub := binary_Nat64 op_sub.
Definition prim_mul := binary_Nat64 op_mul.
Definition prim_div := binary_Nat64 op_div.
Definition prim_mod := binary_Nat64 op_mod.

Definition endl : string := String.String (ascii_of_nat 10) EmptyString.
Definition dquote : string := String.String (ascii_of_nat 34) EmptyString.

Definition prim_print (env e : ptr) : M Result :=
  h <- expectHead e ;;
  st <- get ;;
  p <- str (toString host (pool st) h) ;; ret (value p).

Definition prim_display (env e : ptr) : M Result :=
  c <- expectCons e ;;
  v <- expectString (fst c) ;;
  modify (fun st => set_stdout (stdout st ++ [v]) st) ;;
  ret (value unit_).

Definition prim_debug_save_file (env e : ptr) : M Result :=
  a <- twoArgs e ;;
  name <- expectString (fst a) ;;
  if fileOpens host name then
    modify (fun st => set_files ((name, EmptyString) :: files st) st) ;;
    v <- expectString (snd a) ;;
    modify (fun st => set_files ((name, v ++ endl) :: tl (files st)) st) ;;
    ret (value unit_)
  else throw (PartialEvalError "Could not open file" (fst a)).

(** Modelled from the spec: [addMacro] is declared in the missing header;
    the macro registry is a sequence of closures and a map from the name
    to the position. *)
Definition addMacro (name : string) (cl : ptr * ptr * ptr) : M ()%type :=
  modify (fun st =>
    set_macros (macros st ++ [cl])
               (<[name := length (macros st)]> (nameMacros st)) st).

(** ** The evaluator

    [eval] calls itself for sub-expressions and loops for tail calls; both
    are the parameter [ev] below, which [eval] instantiates with itself at
    one unit of fuel less.  The loops over arena lists take [fuel]. *)
Section Evaluator.
Variable ev : ptr -> ptr -> M ptr.

(** [Evaluator::evalList] *)
Fixpoint evalList (fuel : nat) (env e : ptr) : M ptr :=
  match fuel with
  | O => outOfFuel
  | S fuel' =>
    t <- deref e ;;
    match t with
    | Nil => ret e
    | Cons head tail =>
      ehead <- ev env head ;;
      etail <- evalList fuel' env tail ;;
      head' <- headOf e ;;
      if Nat.eqb ehead head' && Nat.eqb etail tail then ret e
      else mk_cons ehead etail
    | _ => ev env e
    end
  end.

(** [Evaluator::beginList]: the loop runs while [it] is a cons; it is left
    from inside at the last cell, or not entered when [e] is no cons. *)
Fixpoint beginList (fuel : nat) (env e : ptr) : M ptr :=
  match fuel with
  | O => outOfFuel
  | S fuel' =>
    t <- deref e ;;
    match t with
    | Cons head tail =>
      u <- deref tail ;;
      match u with
      | Cons _ _ => ev env head ;; beginList fuel' env tail
      | _ => expectNil tail ;; ret head
      end
    | _ => expectNil e ;; ret unit_
    end
  end.

(** [Evaluator::quasiquote] *)
Fixpoint quasiquote (fuel : nat) (env e : ptr) : M ptr :=
  match fuel with
  | O => outOfFuel
  | S fuel' =>
    t <- deref e ;;
    match t with
    | Cons head tail =>
      h <- deref head ;;
      let isUnquote :=
        match h with Symbol s => String.eqb s "unquote" | _ => false end in
      if isUnquote then
        a <- expectHead tail ;; ev env a
      else
        ehead <- quasiquote fuel' env head ;;
        etail <- quasiquote fuel' env tail ;;
        head' <- headOf e ;;
        if Nat.eqb ehead head' && Nat.eqb etail tail then ret e
        else mk_cons ehead etail
    | _ => ret e
    end
  end.

(** *** Primitive forms (arguments as written) *)

Definition prim_lambda (env e : ptr) : M Result :=
  c <- expectCons e ;;
  p <- emplaceBack (Closure env (fst c) (snd c)) ;;
  ret (value p).

(** The branches are references into the argument list and are read
    after the test has been evaluated. *)
Definition prim_cond (env e : ptr) : M Result :=
  c <- expectCons e ;;
  let t := snd c in
  c1 <- expectCons t ;;
  let u := snd c1 in
  uu <- deref u ;;
  let hasElse := match uu with Cons _ _ => true | _ => false end in
  v <- ev env (fst c) ;;
  result <- expectBool v ;;
  if result then iftrue <- headOf t ;; ret (tailcall env iftrue)
  else if hasElse then iffalse <- headOf u ;; ret (tailcall env iffalse)
  else ret (tailcall env unit_).

Definition prim_quote (fuel : nat) (env e : ptr) : M Result :=
  h <- expectHead e ;;
  r <- quasiquote fuel env h ;;
  ret (value r).

Definition prim_unquote (env e : ptr) : M Result :=
  h <- expectHead e ;;
  r <- ev env h ;;
  ret (value r).

(** The first loop of the [match] primitive: the first clause whose
    pattern matches gives the tail call. *)
Fixpoint matchClauses (fuel : nat) (env target it : ptr)
    : M (option Result) :=
  match fuel with
  | O => outOfFuel
  | S fuel' =>
    t <- deref it ;;
    match t with
    | Cons cl next =>
      c <- expectCons cl ;;
      m <- match_ fuel target (fst c) env false ;;
      if fst m then
        expr <- expectHead (snd c) ;;
        ret (Some (tailcall (snd m) expr))
      else matchClauses fuel' env target next
    | _ => ret None
    end
  end.

(** The second loop: the patterns, printed for the message. *)
Fixpoint clausePatterns (fuel : nat) (first : bool) (it : ptr) : M string :=
  match fuel with
  | O => outOfFuel
  | S fuel' =>
    t <- deref it ;;
    match t with
    | Cons cl next =>
      c <- expectCons cl ;;
      st <- get ;;
      rest <- clausePatterns fuel' false next ;;
      ret ((if first then EmptyString else ", ")
             ++ toString host (pool st) (fst c) ++ rest)
    | _ => ret EmptyString
    end
  end.

Definition prim_match (fuel : nat) (env e : ptr) : M Result :=
  c <- expectCons e ;;
  let t := snd c in
  expectCons t ;;
  target <- ev env (fst c) ;;
  clauses <- headOf t ;;
  r <- matchClauses fuel env target clauses ;;
  match r with
  | Some res => ret res
  | None =>
    pats <- clausePatterns fuel true clauses ;;
    st <- get ;;
    throw (PartialEvalError
             ("nonexhaustive patterns: { " ++ pats ++ " } ?= "
                ++ toString host (pool st) target) clauses)
  end.

(** The loop of [let]; the two arguments of [extend] are taken in the
    order written (C++ leaves their order open). *)
Fixpoint letLoop (fuel : nat) (env it : ptr) : M ptr :=
  match fuel with
  | O => outOfFuel
  | S fuel' =>
    t <- deref it ;;
    match t with
    | Cons d next =>
      a <- twoArgs d ;;
      s <- expectSymbol (fst a) ;;
      v <- ev env (snd a) ;;
      env' <- extend env s v ;;
      letLoop fuel' env' next
    | _ => ret env
    end
  end.

Definition prim_let (fuel : nat) (env e : ptr) : M Result :=
  c <- expectCons e ;;
  env' <- letLoop fuel env (fst c) ;;
  b <- beginList fuel env' (snd c) ;;
  ret (tailcall env' b).

(** First loop of [letrec]: placeholder bindings; [refs] collects the
    value cells, the tail of each fresh entry. *)
Fixpoint letrecBind (fuel : nat) (env it : ptr) (refs : list ptr)
    : M (ptr * list ptr) :=
  match fuel with
  | O => outOfFuel
  | S fuel' =>
    t <- deref it ;;
    match t with
    | Cons d next =>
      c <- expectCons d ;;
      s <- expectSymbol (fst c) ;;
      env' <- extend env s unit_ ;;
      x <- deref env' ;;
      match x with
      | Cons entry _ =>
        y <- deref entry ;;
        match y with
        | Cons _ cell =>
          z <- deref cell ;;
          match z with
          | Cons _ _ => letrecBind fuel' env' next (refs ++ [cell])
          | _ => abort
          end
        | _ => abort
        end
      | _ => abort
      end
    | _ => ret (env, refs)
    end
  end.

(** [*ref = v]: assigns the head of the cons cell [cell]. *)
Definition assignHead (cell v : ptr) : M ()%type :=
  t <- deref cell ;;
  match t with
  | Cons _ tl =>
    modify (fun st => set_pool (<[cell := Cons v tl]> (pool st)) st)
  | _ => abort
  end.

(** Second loop of [letrec]: evaluate and assign in order. *)
Fixpoint letrecAssign (fuel : nat) (env it : ptr) (refs : list ptr) (i : nat)
    : M ()%type :=
  match fuel with
  | O => outOfFuel
  | S fuel' =>
    t <- deref it ;;
    match t with
    | Cons d next =>
      a <- twoArgs d ;;
      v <- ev env (snd a) ;;
      match refs !! i with
      | Some cell => assignHead cell v ;; letrecAssign fuel' env next refs (S i)
      | None => undefined
      end
    | _ => ret tt
    end
  end.

Definition prim_letrec (fuel : nat) (env e : ptr) : M Result :=
  c <- expectCons e ;;
  r <- letrecBind fuel env (fst c) [] ;;
  defs <- headOf e ;;
  letrecAssign fuel (fst r) defs (snd r) 0%nat ;;
  b <- beginList fuel (fst r) (snd c) ;;
  ret (tailcall (fst r) b).

(** [define]; the arguments of [extend] in the order written. *)
Definition prim_define (env e : ptr) : M Result :=
  a <- twoArgs e ;;
  st <- get ;;
  s <- expectSymbol (fst a) ;;
  v <- ev env (snd a) ;;
  g <- extend (globalEnv st) s v ;;
  note did_define ;;
  modify (set_globalEnv g) ;;
  ret (value unit_).

(** [define_macro]; the arguments of [addMacro] in the order written. *)
Definition prim_define_macro (env e : ptr) : M Result :=
  a <- twoArgs e ;;
  s <- expectSymbol (fst a) ;;
  v <- ev env (snd a) ;;
  cl <- expectClosure v ;;
  note did_define_macro ;;
  addMacro s cl ;;
  ret (value unit_).

(** The search loop of [set]: the first entry whose key is the symbol has
    its value cell assigned. *)
Fixpoint setLoop (fuel : nat) (it : ptr) (s : string) (val : ptr) : M bool :=
  match fuel with
  | O => outOfFuel
  | S fuel' =>
    t <- deref it ;;
    match t with
    | Cons curr next =>
      c <- deref curr ;;
      match c with
      | Cons lhs cell =>
        u <- deref cell ;;
        match u with
        | Cons _ _ =>
          l <- deref lhs ;;
          let found :=
            match l with Symbol v => String.eqb v s | _ => false end in
          if found then note did_set ;; assignHead cell val ;; ret true
          else setLoop fuel' next s val
        | _ => abort
        end
      | _ => setLoop fuel' next s val
      end
    | _ => ret false
    end
  end.

Definition prim_set (fuel : nat) (env e : ptr) : M Result :=
  c <- expectCons e ;;
  c1 <- expectCons (snd c) ;;
  val <- ev env (fst c1) ;;
  lhs <- headOf e ;;
  s <- expectSymbol lhs ;;
  found <- setLoop fuel env s val ;;
  if found : bool then ret (value unit_)
  else
    lhs' <- headOf e ;;
    throw (PartialEvalError ("unbound symbol " ++ dquote ++ s ++ dquote) lhs').

Definition prim_begin (fuel : nat) (env e : ptr) : M Result :=
  b <- beginList fuel env e ;;
  ret (tailcall env b).

(** The call [f(env, args)] through the registry entry. *)
Definition applyPrim (fuel : nat) (f : PrimFn) (env e : ptr) : M Result :=
  match f with
  | p_lambda => prim_lambda env e
  | p_cond => prim_cond env e
  | p_quote => prim_quote fuel env e
  | p_unquote => prim_unquote env e
  | p_match => prim_match fuel env e
  | p_let => prim_let fuel env e
  | p_letrec => prim_letrec fuel env e
  | p_define => prim_define env e
  | p_define_macro => prim_define_macro env e
  | p_set => prim_set fuel env e
  | p_begin => prim_begin fuel env e
  | p_eval => prim_eval env e
  | p_env => prim_env env e
  | p_get_syntax => prim_get_syntax env e
  | p_set_syntax => prim_set_syntax fuel env e
  | p_get_global_env => prim_get_global_env env e
  | p_set_global_env => prim_set_global_env env e
  | p_nil => prim_nil env e
  | p_cons => prim_cons env e
  | p_list => prim_list env e
  | p_id => prim_id env e
  | p_string_symbol => prim_string_symbol env e
  | p_string_nat64 => prim_string_nat64 env e
  | p_string_escape => prim_string_escape env e
  | p_string_unescape => prim_string_unescape env e
  | p_string_length => prim_string_length env e
  | p_string_char => prim_string_char env e
  | p_char_string => prim_char_string env e
  | p_string_concat => prim_string_concat env e
  | p_string_substr => prim_string_substr env e
  | p_string_eq => prim_string_eq env e
  | p_minus => prim_minus env e
  | p_add => prim_add env e
  | p_sub => prim_sub env e
  | p_mul => prim_mul env e
  | p_div => prim_div env e
  | p_mod => prim_mod env e
  | p_le => binpred_Nat64 Z.leb env e
  | p_lt => binpred_Nat64 Z.ltb env e
  | p_ge => binpred_Nat64 Z.geb env e
  | p_gt => binpred_Nat64 Z.gtb env e
  | p_eq => binpred_Nat64 Z.eqb env e
  | p_neq => binpred_Nat64 (fun a b => negb (Z.eqb a b)) env e
  | p_not => unary_Bool negb env e
  | p_and => binary_Bool_and env e
  | p_or => binary_Bool_or env e
  | p_implies => binary_Bool implb env e
  | p_iff => binary_Bool Bool.eqb env e
  | p_print => prim_print env e
  | p_display => prim_display env e
  | p_debug_save_file => prim_debug_save_file env e
  end.

(** What one turn of the loop of [eval] ends with. *)
Inductive Step : Type :=
| Done (v : ptr)
| Continue (env e : ptr).

(** The application branch of [eval], the body of its [try] block. *)
Definition evalApply (fuel : nat) (env e head tail : ptr) : M Step :=
  ehead <- ev env head ;;
  h <- deref ehead ;;
  match h with
  | Prim id =>
    st <- get ;;
    match prims st !! id with
    | Some (evalParams, f) =>
      args <- (if evalParams : bool then evalList fuel env tail else ret tail) ;;
      res <- applyPrim fuel f env args ;;
      match res_env res with
      | None => ret (Done (res_e res))
      | Some env' => ret (Continue env' (res_e res))
      end
    | None => undefined
    end
  | Closure cenv formal es =>
    params <- evalList fuel env tail ;;
    m <- match_ fuel params formal cenv false ;;
    if fst m then
      b <- beginList fuel (snd m) es ;;
      ret (Continue (snd m) b)
    else
      st <- get ;;
      throw (EvalError
               ("pattern matching failed: " ++ toString host (pool st) formal
                  ++ " ?= " ++ toString host (pool st) params) tail e)
  | _ =>
    st <- get ;;
    throw (EvalError
             ("head element " ++ toString host (pool st) ehead
                ++ " is not a function") head e)
  end.

(** One turn of the [while (true)] of [Evaluator::eval]. *)
Definition evalStep (fuel : nat) (env e : ptr) : M ptr :=
  t <- deref e ;;
  match t with
  | Symbol s =>
    val <- lookup fuel env s ;;
    match val with
    | Some v => ret v
    | None =>
      st <- get ;;
      match namePrims st !! s with
      | Some id => emplaceBack (Prim id)
      | None =>
        throw (PartialEvalError ("unbound symbol " ++ dquote ++ s ++ dquote) e)
      end
    end
  | Cons head tail =>
    next <- decorate e (evalApply fuel env e head tail) ;;
    match next with
    | Done v => ret v
    | Continue env' e' => ev env' e'
    end
  | _ => ret e
  end.

End Evaluator.

(** [Evaluator::eval] *)
Fixpoint eval (fuel : nat) (env e : ptr) : M ptr :=
  match fuel with
  | O => outOfFuel
  | S fuel' => evalStep (eval fuel') fuel' env e
  end.

(** ** Macro expander *)

(** [Evaluator::expand] and [Evaluator::expandList].  The [catch] of
    [expand] decorates with [e] as it is when the exception arrives: the
    given list while it is being expanded, the expanded list afterwards. *)
Fixpoint expand (fuel : nat) (e : ptr) : M ptr :=
  match fuel with
  | O => outOfFuel
  | S fuel' =>
    t <- deref e ;;
    match t with
    | Cons _ _ =>
      e1 <- decorate e (expandList fuel' e) ;;
      decorate e1 (
        t1 <- deref e1 ;;
        match t1 with
        | Cons head tail =>
          h <- deref head ;;
          st <- get ;;
          match h with
          | Symbol s =>
            match nameMacros st !! s with
            | Some i =>
              match macros st !! i with
              | Some (cenv, formal, es) =>
                m <- match_ fuel' tail formal cenv false ;;
                if fst m then
                  b <- beginList (eval fuel') fuel' (snd m) es ;;
                  eval fuel' (snd m) b
                else
                  st1 <- get ;;
                  throw (EvalError
                    ("pattern matching failed: "
                       ++ toString host (pool st1) formal ++ " ?= "
                       ++ toString host (pool st1) tail) tail e1)
              | None => undefined
              end
            | None => ret e1
            end
          | _ => ret e1
          end
        | _ => abort
        end)
    | _ => ret e
    end
  end

with expandList (fuel : nat) (e : ptr) : M ptr :=
  match fuel with
  | O => outOfFuel
  | S fuel' =>
    t <- deref e ;;
    match t with
    | Nil => ret e
    | Cons head tail =>
      ehead <- expand fuel' head ;;
      etail <- expandList fuel' tail ;;
      head' <- headOf e ;;
      if Nat.eqb ehead head' && Nat.eqb etail tail then ret e
      else mk_cons ehead etail
    | _ => expand fuel' e
    end
  end.

(** ** Parse-forest resolver *)

Definition Location_eqb (a b : Location) : bool :=
  Nat.eqb (l_pos a) (l_pos b) && Nat.eqb (l_i a) (l_i b).

(** [for (Tree* r: right) res.push_back(cons(sym(name), r));] *)
Fixpoint consEach (name : string) (right : list ptr) : M (list ptr) :=
  match right with
  | [] => ret []
  | r :: right' =>
    k <- sym name ;;
    c <- mk_cons k r ;;
    res <- consEach name right' ;;
    ret (c :: res)
  end.

(** [for (Tree* c: child) for (Tree* r: right) curr.push_back(cons(c, r));] *)
Fixpoint consOnto (c : ptr) (right : list ptr) : M (list ptr) :=
  match right with
  | [] => ret []
  | r :: right' =>
    x <- mk_cons c r ;;
    res <- consOnto c right' ;;
    ret (x :: res)
  end.

Fixpoint consProduct (child right : list ptr) : M (list ptr) :=
  match child with
  | [] => ret []
  | c :: child' =>
    xs <- consOnto c right ;;
    ys <- consProduct child' right ;;
    ret (xs ++ ys)%list
  end.

Section Resolver.
Variable rec : Location -> list ptr -> nat -> M (list ptr).

(** The loop "One step to left" over the back-links of a state. *)
Fixpoint resolveLinks (loc : Location) (right : list ptr) (maxDepth : nat)
    (links : list (Location * Location)) : M (list ptr) :=
  match links with
  | [] => ret []
  | (prevLink, childLink) :: links' =>
    child <-
      (if Location_eqb childLink (Leaf host) then
         st <- get ;;
         let ps := parser (grammar st) in
         match l_pos loc with
         | O => undefined
         | S k =>
           match sentence ps !! k with
           | Some tok =>
             match patternNames (grammar st) !! pattern tok with
             | Some name =>
               k1 <- sym name ;;
               k2 <- str (lexeme tok) ;;
               k3 <- mk_cons k2 nil_ ;;
               k4 <- mk_cons k1 k3 ;;
               ret [k4]
             | None => undefined
             end
           | None => undefined
           end
         end
       else rec childLink [nil_] (maxDepth - 1)%nat) ;;
    curr <- consProduct child right ;;
    final <- rec prevLink curr maxDepth ;;
    res <- resolveLinks loc right maxDepth links' ;;
    ret (final ++ res)%list
  end.

(** The body of [Evaluator::resolve(loc, right, maxDepth)]. *)
Definition resolveStep (loc : Location) (right : list ptr) (maxDepth : nat)
    : M (list ptr) :=
  if Nat.eqb maxDepth 0 then ret []
  else
    st <- get ;;
    match forest (parser (grammar st)) !! l_pos loc with
    | Some row =>
      match row !! l_i loc with
      | Some (state, links) =>
        if Nat.eqb (progress state) 0 then
          match right with
          | [] => ret []
          | _ =>
            match ruleNames (grammar st) !! rule state with
            | Some name => consEach name right
            | None => undefined
            end
          end
        else resolveLinks loc right maxDepth links
      | None => undefined
      end
    | None => undefined
    end.

End Resolver.

Fixpoint resolveAt (fuel : nat) (loc : Location) (right : list ptr)
    (maxDepth : nat) : M (list ptr) :=
  match fuel with
  | O => outOfFuel
  | S fuel' => resolveStep (resolveAt fuel') loc right maxDepth
  end.

(** The loop of [Evaluator::resolve(maxDepth)] over the states at the end
    of the sentence: the parses of every completed start item. *)
Fixpoint resolveAll (fuel : nat) (pos i : nat)
    (row : list (EarleyState * list (Location * Location)))
    (maxDepth : nat) : M (list ptr) :=
  match row with
  | [] => ret []
  | (state, _) :: row' =>
    st <- get ;;
    match parserRules (parser (grammar st)) !! rule state with
    | Some (lhs, rhs) =>
      final <-
        (if Nat.eqb (startPos state) 0 && Nat.eqb (fst lhs) StartSymbol
            && Nat.eqb (progress state) (length rhs)
         then resolveAt fuel {| l_pos := pos; l_i := i |} [nil_] maxDepth
         else ret []) ;;
      rest <- resolveAll fuel pos (S i) row' maxDepth ;;
      ret (final ++ rest)%list
    | None => undefined
    end
  end.

(** [for (const auto& parse: all) std::cout << parse->toString() << std::endl;] *)
Fixpoint printAll (all : list ptr) : M ()%type :=
  match all with
  | [] => ret tt
  | t :: all' =>
    modify (fun st =>
      set_stdout (stdout st ++ [toString host (pool st) t]) st) ;;
    printAll all'
  end.

(** [Evaluator::resolve(maxDepth)] *)
Definition resolve (fuel : nat) (maxDepth : nat) : M ptr :=
  st <- get ;;
  let ps := parser (grammar st) in
  let pos := length (sentence ps) in
  match forest ps !! pos with
  | None => throw Unreachable
  | Some row =>
    all <- resolveAll fuel pos 0%nat row maxDepth ;;
    match all with
    | [] => throw NotImplemented
    | [t] => ret t
    | _ => printAll all ;; throw NotImplemented
    end
  end.

(** [Evaluator::evalParsedStatement] *)
Definition evalParsedStatement (fuel : nat) : M ptr :=
  e <- resolve fuel (defaultMaxDepth host) ;;
  e1 <- expand fuel e ;;
  modify (fun st => set_stdout (stdout st ++ [toString host (pool st) e1]) st) ;;
  st <- get ;;
  eval fuel (globalEnv st) e1.

(** ** Construction: default syntax, macros and primitives *)

(** Modelled from the spec: [addPrimitive] is declared in the missing
    header; the primitive registry is a sequence of [(evalArgs, fn)] and a
    map from the name to the position. *)
Definition addPrimitive (name : string) (p : bool * PrimFn) : M ()%type :=
  modify (fun st =>
    set_prims (prims st ++ [p])
              (<[name := length (prims st)]> (namePrims st)) st).

Fixpoint sequenceM (ms : list (M ptr)) : M (list ptr) :=
  match ms with
  | [] => ret []
  | m :: ms' => x <- m ;; xs <- sequenceM ms' ;; ret (x :: xs)
  end.

(** The macro [list(...)]: the elements in order, then [makeList]. *)
Definition listM (ms : list (M ptr)) : M ptr :=
  es <- sequenceM ms ;; makeList es.

Definition chr (n : nat) : string := String.String (ascii_of_nat n) EmptyString.

Definition symbol_ (n : string) : M ptr := listM [sym n; mk_nat 0].
Definition pattern_ (name : string) (lhs pat : M ptr) : M ptr :=
  listM [sym name; lhs; pat].
Definition rule_ (name : string) (lhs rhs : M ptr) : M ptr :=
  listM [sym name; lhs; rhs].
Definition chars_ (w : string) : M ptr := listM [sym "char"; str w].
Definition except_ (w : string) : M ptr := listM [sym "except"; str w].
Definition range_ (l u : Z) : M ptr := listM [sym "range"; mk_nat l; mk_nat u].
Definition word_ (w : string) : M ptr := listM [sym "word"; str w].
Definition alt_ (l : list (M ptr)) : M ptr := listM (sym "alt" :: l).
Definition concat_ (l : list (M ptr)) : M ptr := listM (sym "concat" :: l).
Definition star_ (a : M ptr) : M ptr := listM [sym "star"; a].
Definition plus_ (a : M ptr) : M ptr := listM [sym "plus"; a].

Definition defaultPatterns : M ptr :=
  listM [
    pattern_ "_" (symbol_ "_")
      (star_ (chars_ (" " ++ chr 12 ++ chr 10 ++ chr 13 ++ chr 9 ++ chr 11)));
    pattern_ "_" (symbol_ "_")
      (concat_ [word_ "//"; star_ (except_ (chr 10 ++ chr 13))]);
    pattern_ "_" (symbol_ "_")
      (concat_ [word_ "/*";
                star_ (concat_ [star_ (except_ "*");
                                plus_ (chars_ "*");
                                except_ "/"]);
                star_ (except_ "*");
                plus_ (chars_ "*");
                chars_ "/"]);
    pattern_ "symbol'" (symbol_ "tree")
      (concat_ [alt_ [range_ 97 122; range_ 65 90; chars_ "_'";
                      listM [sym "utf8seg"]];
                star_ (alt_ [range_ 97 122; range_ 65 90; range_ 48 57;
                             chars_ "_'"; listM [sym "utf8seg"]])]);
    pattern_ "nat64'" (symbol_ "tree")
      (alt_ [plus_ (range_ 48 57);
             concat_ [chars_ "0"; chars_ "xX";
                      plus_ (alt_ [range_ 48 57; range_ 97 102;
                                   range_ 65 70])]]);
    pattern_ "string'" (symbol_ "tree")
      (concat_ [chars_ dquote;
                star_ (alt_ [except_ ("\" ++ dquote);
                             concat_ [chars_ "\";
                                      chars_ ("\" ++ dquote ++ "abfnrtv")]]);
                chars_ dquote]);
    pattern_ "_" (symbol_ "left_paren") (word_ "(");
    pattern_ "_" (symbol_ "right_paren") (word_ ")");
    pattern_ "_" (symbol_ "period") (word_ ".");
    pattern_ "_" (symbol_ "quote") (word_ "`");
    pattern_ "_" (symbol_ "comma") (word_ ",")
  ].

Definition defaultRules : M ptr :=
  listM [
    rule_ "nil'" (symbol_ "list") (listM []);
    rule_ "cons'" (symbol_ "list") (listM [symbol_ "tree"; symbol_ "list"]);
    rule_ "period'" (symbol_ "list")
      (listM [symbol_ "tree"; symbol_ "period"; symbol_ "tree"]);
    rule_ "quote'" (symbol_ "tree") (listM [symbol_ "quote"; symbol_ "tree"]);
    rule_ "unquote'" (symbol_ "tree") (listM [symbol_ "comma"; symbol_ "tree"]);
    rule_ "tree'" (symbol_ "tree")
      (listM [symbol_ "left_paren"; symbol_ "list"; symbol_ "right_paren"]);
    rule_ "id'" (symbol_ "_") (listM [symbol_ "tree"])
  ].

(** [addMacro(name, Closure{ globalEnv, formal, es })] *)
Definition defaultMacro (name : string) (formal es : M ptr) : M ()%type :=
  st <- get ;;
  f <- formal ;;
  b <- es ;;
  addMacro name (globalEnv st, f, b).

Definition defaultMacros : M ()%type :=
  defaultMacro "symbol'" (listM [sym "s"])
    (listM [listM [sym "string_symbol"; sym "s"]]) ;;
  defaultMacro "nat64'" (listM [sym "n"])
    (listM [listM [sym "string_nat64"; sym "n"]]) ;;
  defaultMacro "string'" (listM [sym "s"])
    (listM [listM [sym "string_unescape";
                   listM [sym "string_substr"; sym "s"; mk_nat 1;
                          listM [sym "sub";
                                 listM [sym "string_length"; sym "s"];
                                 mk_nat 2]]]]) ;;
  defaultMacro "nil'" (listM []) (listM [listM [sym "nil"]]) ;;
  defaultMacro "cons'" (listM [sym "l"; sym "r"])
    (listM [listM [sym "cons"; sym "l"; sym "r"]]) ;;
  defaultMacro "id'" (listM [sym "l"]) (listM [sym "l"]) ;;
  defaultMacro "period'" (listM [sym "l"; sym "_"; sym "r"])
    (listM [listM [sym "cons"; sym "l"; sym "r"]]) ;;
  defaultMacro "quote'" (listM [sym "_"; sym "l"])
    (listM [listM [sym "list";
                   listM [sym "string_symbol"; str "quote"]; sym "l"]]) ;;
  defaultMacro "unquote'" (listM [sym "_"; sym "l"])
    (listM [listM [sym "list";
                   listM [sym "string_symbol"; str "unquote"]; sym "l"]]) ;;
  defaultMacro "tree'" (listM [sym "_"; sym "l"; sym "_"]) (listM [sym "l"]).

(** The primitives in the order of their [addPrimitive] calls. *)
Definition primitiveTable : list (string * (bool * PrimFn)) :=
  [ ("lambda", (false, p_lambda)); ("cond", (false, p_cond));
    ("quote", (false, p_quote)); ("unquote", (false, p_unquote));
    ("match", (false, p_match)); ("let", (false, p_let));
    ("letrec", (false, p_letrec)); ("define", (false, p_define));
    ("define_macro", (false, p_define_macro)); ("set", (false, p_set));
    ("begin", (false, p_begin));
    ("eval", (true, p_eval)); ("env", (true, p_env));
    ("get_syntax", (true, p_get_syntax)); ("set_syntax", (true, p_set_syntax));
    ("get_global_env", (true, p_get_global_env));
    ("set_global_env", (true, p_set_global_env));
    ("nil", (true, p_nil)); ("cons", (true, p_cons));
    ("list", (true, p_list)); ("id", (true, p_id));
    ("string_symbol", (true, p_string_symbol));
    ("string_nat64", (true, p_string_nat64));
    ("string_escape", (true, p_string_escape));
    ("string_unescape", (true, p_string_unescape));
    ("string_length", (true, p_string_length));
    ("string_char", (true, p_string_char));
    ("char_string", (true, p_char_string));
    ("string_concat", (true, p_string_concat));
    ("string_substr", (true, p_string_substr));
    ("string_eq", (true, p_string_eq));
    ("minus", (true, p_minus));
    ("add", (true, p_add)); ("sub", (true, p_sub)); ("mul", (true, p_mul));
    ("div", (true, p_div)); ("mod", (true, p_mod));
    ("le", (true, p_le)); ("lt", (true, p_lt));
    ("ge", (true, p_ge)); ("gt", (true, p_gt));
    ("eq", (true, p_eq)); ("neq", (true, p_neq));
    ("not", (true, p_not));
    ("and", (true, p_and)); ("or", (true, p_or));
    ("implies", (true, p_implies)); ("iff", (true, p_iff));
    ("print", (true, p_print)); ("display", (true, p_display));
    ("debug_save_file", (true, p_debug_save_file)) ].

Fixpoint addPrimitives (l : list (string * (bool * PrimFn))) : M ()%type :=
  match l with
  | [] => ret tt
  | (name, p) :: l' => addPrimitive name p ;; addPrimitives l'
  end.

Definition emptyState : State :=
  {| pool := []; globalEnv := nil_;
     grammar :=
       {| patterns := nil_; rules := nil_;
          symbolNames := []; nameSymbols := ∅;
          patternNames := []; ruleNames := [];
          lexer := [];
          parser := {| ignoredSymbol := 0; startSymbol := 0;
                       parserPatterns := []; parserRules := [];
                       sentence := []; forest := [] |} |};
     macros := []; nameMacros := ∅;
     prims := []; namePrims := ∅;
     stdout := []; files := []; trace := [] |}.

(** [Evaluator::Evaluator()] *)
Definition Evaluator (fuel : nat) : M ()%type :=
  emplaceBack Nil ;;
  emplaceBack Unit ;;
  emplaceBack (Bool true) ;;
  emplaceBack (Bool false) ;;
  p <- defaultPatterns ;;
  r <- defaultRules ;;
  setSyntax fuel p r ;;
  defaultMacros ;;
  addPrimitives primitiveTable.

End WithHost.

(** ** A host to run examples with, and the freshly constructed evaluator *)

Definition sampleHost : Host :=
  {| toString := fun _ _ => "<tree>";
     escapeString := fun w => w;
     unescapeString := fun w => Some w;
     expectMessage := fun what _ _ => "expected " ++ what;
     fileOpens := fun _ => true;
     Leaf := {| l_pos := 4095; l_i := 4095 |};
     defaultMaxDepth := 1024 |}.

Definition initialState : State := snd (Evaluator sampleHost 64 emptyState).

(** ** Reading a tree back from the arena *)

(** A tree as a value, to state what an example evaluates to; a closure
    is shown without its parts. *)
Inductive Datum : Type :=
| DNil
| DCons (h t : Datum)
| DSymbol (s : string)
| DString (s : string)
| DNat64 (n : Z)
| DBool (b : bool)
| DUnit
| DClosure
| DPrim (id : nat).

Fixpoint readback (fuel : nat) (pl : list Tree) (p : ptr) : option Datum :=
  match fuel with
  | O => None
  | S fuel' =>
    match pl !! p with
    | Some Nil => Some DNil
    | Some (Cons h t) =>
      match readback fuel' pl h, readback fuel' pl t with
      | Some x, Some y => Some (DCons x y)
      | _, _ => None
      end
    | Some (Symbol s) => Some (DSymbol s)
    | Some (String s) => Some (DString s)
    | Some (Nat64 n) => Some (DNat64 n)
    | Some (Bool b) => Some (DBool b)
    | Some Unit => Some DUnit
    | Some (Closure _ _ _) => Some DClosure
    | Some (Prim i) => Some (DPrim i)
    | None => None
    end
  end.

Fixpoint DList (l : list Datum) : Datum :=
  match l with
  | [] => DNil
  | x :: r => DCons x (DList r)
  end.

(** Builds [prog] in the fresh evaluator, evaluates it in the global
    environment and reads the value (or the failure) back. *)
Definition evaluate (fuel : nat) (prog : M ptr) : Outcome (option Datum) :=
  match prog initialState with
  | (Ret e, st) =>
    match eval sampleHost fuel (globalEnv st) e st with
    | (Ret v, st') => Ret (readback fuel (pool st') v)
    | (Throw x, _) => Throw x
    | (Abort, _) => Abort
    | (Undefined, _) => Undefined
    | (OutOfFuel, _) => OutOfFuel
    end
  | _ => Undefined
  end.

(** *** Example inputs, built in the arena of the fresh evaluator *)

(** The state after [prog] has built its tree. *)
Definition arena (prog : M ptr) : State := snd (prog initialState).

(** [(quote (unquote x))], at 587; [x] is 583. *)
Definition quotePattern : M ptr :=
  listM [sym "quote"; listM [sym "unquote"; sym "x"]].
Definition quotePatternState : State := arena quotePattern.

(** The argument list [(7 2)], at 584. *)
Definition sevenTwo : M ptr := listM [mk_nat 7; mk_nat 2].
Definition sevenTwoState : State := arena sevenTwo.

(** The argument list [(5)], at 582. *)
Definition justFive : M ptr := listM [mk_nat 5].
Definition justFiveState : State := arena justFive.


(** [(cond (eq 1 0) 1)], at 591. *)
Definition condProgram : M ptr :=
  listM [sym "cond"; listM [sym "eq"; mk_nat 1; mk_nat 0]; mk_nat 1].
Definition condState : State := arena condProgram.
Definition condHeadState : State := snd (eval sampleHost 5 nil_ 581 condState).
Definition condTestState : State := snd (eval sampleHost 5 nil_ 587 condHeadState).

(** The body [((display "hello") 5)], at 587. *)
Definition beginBody : M ptr :=
  listM [listM [sym "display"; str "hello"]; mk_nat 5].
Definition beginBodyState : State := arena beginBody.

(** [(add 1 2)], at 586: a tree without [unquote]. *)
Definition sumProgram : M ptr := listM [sym "add"; mk_nat 1; mk_nat 2].
Definition sumState : State := arena sumProgram.

(** [(begin (define_macro m (lambda (x) x)) undefined_symbol)], at 597. *)
Definition macroThenFail : M ptr :=
  listM [sym "begin";
         listM [sym "define_macro"; sym "m";
                listM [sym "lambda"; listM [sym "x"]; sym "x"]];
         sym "undefined_symbol"].
Definition macroThenFailState : State := arena macroThenFail.

(** [(undefined_symbol 1)], at 584. *)
Definition unboundCall : M ptr := listM [sym "undefined_symbol"; mk_nat 1].
Definition unboundCallState : State := arena unboundCall.
Definition unboundCallFailed : State :=
  snd (eval sampleHost 10 nil_ 584 unboundCallState).

(** The fresh evaluator after parsing the sentence [x]: one token of
    pattern 3 ([symbol']), and the item of rule 6 ([id']) before and after
    the token. *)
Definition parsedRow : list (EarleyState * list (Location * Location)) :=
  [({| startPos := 0; rule := 6; progress := 1 |},
    [({| l_pos := 0; l_i := 0 |}, Leaf sampleHost)])].

Definition parsedState : State :=
  let ps := parser (grammar initialState) in
  set_grammar
    (set_parser
       {| ignoredSymbol := ignoredSymbol ps; startSymbol := startSymbol ps;
          parserPatterns := parserPatterns ps; parserRules := parserRules ps;
          sentence := [{| pattern := 3; lexeme := "x" |}];
          forest := [[({| startPos := 0; rule := 6; progress := 0 |}, [])];
                     parsedRow] |}
       (grammar initialState))
    initialState.
(** The same sentence with a second completed start item: two parses. *)
Definition ambiguousState : State :=
  let ps := parser (grammar initialState) in
  set_grammar
    (set_parser
       {| ignoredSymbol := ignoredSymbol ps; startSymbol := startSymbol ps;
          parserPatterns := parserPatterns ps; parserRules := parserRules ps;
          sentence := [{| pattern := 3; lexeme := "x" |}];
          forest := [[({| startPos := 0; rule := 6; progress := 0 |}, [])];
                     (parsedRow ++ parsedRow)%list] |}
       (grammar initialState))
    initialState.

Definition parsedResolved : State :=
  snd (resolveAll sampleHost 5 1 0 parsedRow 8 parsedState).

(** ** Numerals, for stating what [string_nat64] reads *)





(** ** Lists in the arena, for stating what [beginList] does *)

(** The cons cells of the list at [p], in order, and what the last tail
    is; [None] when [fuel] cells do not reach the end. *)
Fixpoint spine (fuel : nat) (pl : list Tree) (p : ptr)
    : option (list ptr * ptr) :=
  match fuel with
  | O => None
  | S fuel' =>
    match pl !! p with
    | Some (Cons _ tl) =>
      match spine fuel' pl tl with
      | Some (cells, term) => Some (p :: cells, term)
      | None => None
      end
    | Some _ => Some ([], p)
    | None => None
    end
  end.

Section Words.
Context (host : Host) (ev : ptr -> ptr -> M ptr) (env : ptr).

(** [beginList] in the words of the specification, on the cells of the
    list: nothing to do gives [Unit]; the last element is returned as it
    is; any other element is evaluated, its value dropped.  The tail of the
    last cell, [term], must be [Nil]. *)
Fixpoint beginList_words (cells : list ptr) (term : ptr) : M ptr :=
  match cells with
  | [] => expectNil host term ;; ret unit_
  | [c] => expectNil host term ;; headOf c
  | c :: rest =>
    h <- headOf c ;; ev env h ;; beginList_words rest term
  end.

End Words.

(** ** Trees without [unquote] forms *)

(** No cons cell within [d] levels of [p], along heads and tails, has the
    symbol [unquote] as its head, and the tree ends within [d] levels. *)
Fixpoint noUnquote (d : nat) (pl : list Tree) (p : ptr) : bool :=
  match d with
  | O => false
  | S d' =>
    match pl !! p with
    | Some (Cons h tl) =>
      match pl !! h with
      | Some (Symbol s) =>
        negb (String.eqb s "unquote") && noUnquote d' pl h && noUnquote d' pl tl
      | Some _ => noUnquote d' pl h && noUnquote d' pl tl
      | None => false
      end
    | Some _ => true
    | None => false
    end
  end.

(** The variants [eval] returns as they are. *)
Definition selfEvaluating (t : Tree) : bool :=
  match t with
  | Symbol _ | Cons _ _ => false
  | _ => true
  end.

(** ** Relations on computations and states, for the proofs *)

Local Open Scope list_scope.

(** [mle m1 m2]: wherever [m1] does not run out of fuel, [m2] behaves the
    same. *)
Definition mle {A} (m1 m2 : M A) : Prop :=
  forall st, fst (m1 st) <> OutOfFuel -> m2 st = m1 st.

(** [stable]: the arena only grows; a node keeps its variant and, if it is
    a cons, its tail (only heads are ever assigned).  [weak] adds that the
    log only grows and the primitive registry stays.  [frame n0] adds that
    if the log did not grow, the global environment, the grammar and the
    macro registry are the same and so is every node below [n0].  [wpres]
    and [pres] say that a computation relates every state to the one it
    leaves. *)
Definition stable (pl pl' : list Tree) : Prop :=
  (length pl <= length pl')%nat
  /\ forall p t, pl !! p = Some t ->
       match t with
       | Cons _ tl => exists h', pl' !! p = Some (Cons h' tl)
       | _ => pl' !! p = Some t
       end.

Definition weak (st st' : State) : Prop :=
  stable (pool st) (pool st')
  /\ (exists evs, trace st' = evs ++ trace st)
  /\ prims st' = prims st /\ namePrims st' = namePrims st.

Definition same_core (n0 : nat) (st st' : State) : Prop :=
  globalEnv st' = globalEnv st /\ grammar st' = grammar st
  /\ macros st' = macros st /\ nameMacros st' = nameMacros st
  /\ forall p, (p < n0)%nat -> pool st' !! p = pool st !! p.

Definition frame (n0 : nat) (st st' : State) : Prop :=
  weak st st' /\ (trace st' = trace st -> same_core n0 st st').

Definition wpres {A} (m : M A) : Prop := forall st, weak st (snd (m st)).

Definition pres {A} (n0 : nat) (m : M A) : Prop :=
  forall st, (n0 <= length (pool st))%nat -> frame n0 st (snd (m st)).

(** A computation that leaves the state alone. *)
Definition readonly {A} (m : M A) : Prop := forall st, snd (m st) = st.

(** ** Lists and trees that evaluation and expansion return as they are *)

(** The list at [p] ends within [d] cells and each element is
    self-evaluating; a last tail that is not [Nil] counts as an element,
    as [evalList] evaluates it. *)
Fixpoint selfList (d : nat) (pl : list Tree) (p : ptr) : bool :=
  match d with
  | O => false
  | S d' =>
    match pl !! p with
    | Some Nil => true
    | Some (Cons h t) =>
      match pl !! h with
      | Some x => selfEvaluating x && selfList d' pl t
      | None => false
      end
    | Some x => selfEvaluating x
    | None => false
    end
  end.

(** No list within [d] levels of [p] has a macro name as its head:
    [noMacroCall] for a tree, [noMacroCalls] for the elements of a list. *)
Fixpoint noMacroCall (d : nat) (nm : gmap string nat) (pl : list Tree)
    (p : ptr) : bool :=
  match d with
  | O => false
  | S d' =>
    match pl !! p with
    | Some (Cons h _) =>
      noMacroCalls d' nm pl p
      && match pl !! h with
         | Some (Symbol s) =>
           match nm !! s with Some _ => false | None => true end
         | Some _ => true
         | None => false
         end
    | Some _ => true
    | None => false
    end
  end

with noMacroCalls (d : nat) (nm : gmap string nat) (pl : list Tree)
    (p : ptr) : bool :=
  match d with
  | O => false
  | S d' =>
    match pl !! p with
    | Some Nil => true
    | Some (Cons h t) => noMacroCall d' nm pl h && noMacroCalls d' nm pl t
    | Some _ => noMacroCall d' nm pl p
    | None => false
    end
  end.

(** A [Nat64] as the source holds it. *)
Definition inRange64 (z : Z) : Prop := 0 <= z < 2 ^ 64.

(** ** Relations between the states before and after a computation *)

(** [keeps R m]: [m] relates every state to the state it leaves, whatever
    its outcome. *)
Definition keeps {A} (R : State -> State -> Prop) (m : M A) : Prop :=
  forall st, R st (snd (m st)).

(** Only the tables of the grammar may differ: the arena, the
    environments, the registries, the output and the two syntax lists are
    the same. *)
Definition syntaxOnly (st st' : State) : Prop :=
  pool st' = pool st /\ globalEnv st' = globalEnv st
  /\ macros st' = macros st /\ nameMacros st' = nameMacros st
  /\ prims st' = prims st /\ namePrims st' = namePrims st
  /\ stdout st' = stdout st /\ files st' = files st /\ trace st' = trace st
  /\ patterns (grammar st') = patterns (grammar st)
  /\ rules (grammar st') = rules (grammar st).

(** Only new nodes and new output: the arena and the output are extended,
    everything else is the same. *)
Definition allocatesOnly (st st' : State) : Prop :=
  (exists extra, pool st' = pool st ++ extra)
  /\ (exists out, stdout st' = stdout st ++ out)
  /\ globalEnv st' = globalEnv st /\ grammar st' = grammar st
  /\ macros st' = macros st /\ nameMacros st' = nameMacros st
  /\ prims st' = prims st /\ namePrims st' = namePrims st
  /\ files st' = files st /\ trace st' = trace st.

(** A parse-tree node as the resolver builds it: a cons allocated at or
    after [n0] whose head is a symbol naming one of the rules. *)
Definition parseNode (names : list string) (pl : list Tree) (n0 : nat)
    (p : ptr) : Prop :=
  (n0 <= p)%nat
  /\ exists k r name,
       pl !! p = Some (Cons k r) /\ pl !! k = Some (Symbol name)
       /\ name ∈ names.

Definition parsesOf (st st' : State) (res : list ptr) : Prop :=
  Forall (parseNode (ruleNames (grammar st)) (pool st') (length (pool st))) res.

(** The list at [p] holds the elements [es], in order, and ends in the
    [Nil] sentinel. *)
Fixpoint holdsList (pl : list Tree) (p : ptr) (es : list ptr) : Prop :=
  match es with
  | [] => p = nil_
  | e :: es' => exists tl, pl !! p = Some (Cons e tl) /\ holdsList pl tl es'
  end.

(** * The NFA lexer's table and pattern constructors

    [NFALexer] of [parsing/lexer.hpp].  A state is its index in [table];
    a byte label and a state number are natural numbers (the source keeps
    them in [unsigned char] and [unsigned int]).  A constructor is a
    function from the table to its result and the new table, or to [None]
    where the source indexes [table] out of range or appends to a vector
    it is iterating over, which C++ leaves undefined. *)
Module NFALexer.

(** [struct Entry { vector<pair<unsigned char, State>> tr; optional<Symbol> ac; }] *)
Record Entry : Type := { tr : list (nat * nat); ac : option nat }.

(** [Entry(): tr(), ac() {}] *)
Definition emptyEntry : Entry := {| tr := []; ac := None |}.

Abbreviation State := nat.
Abbreviation NFA := (nat * nat)%type.

Definition L (A : Type) : Type := list Entry -> option (A * list Entry).

Definition lret {A} (a : A) : L A := fun tbl => Some (a, tbl).

Definition lbind {A B} (m : L A) (f : A -> L B) : L B :=
  fun tbl =>
    match m tbl with
    | Some (a, tbl') => f a tbl'
    | None => None
    end.

Declare Scope lexer_scope.
Delimit Scope lexer_scope with lexer.
Notation "x <- c1 ;; c2" := (lbind c1 (fun x => c2))
  (at level 100, c1 at next level, right associativity) : lexer_scope.
Notation "c1 ;; c2" := (lbind c1 (fun _ => c2))
  (at level 100, right associativity) : lexer_scope.
Local Open Scope lexer_scope.

(** [NFALexer(): Lexer(), table(), initial(0) { table.emplace_back(); }] *)
Definition initial : State := 0%nat.
Definition create : list Entry := [emptyEntry].

(** [#define node(x) State x = table.size(); table.emplace_back()] *)
Definition node : L State :=
  fun tbl => Some (length tbl, tbl ++ [emptyEntry]).

(** [#define trans(s, c, t) table[s].tr.emplace_back(c, t)] *)
Definition trans (s : State) (c : nat) (t : State) : L ()%type :=
  fun tbl =>
    match tbl !! s with
    | Some en => Some (tt, <[s := {| tr := tr en ++ [(c, t)]; ac := ac en |}]> tbl)
    | None => None
    end.

(** A [for] loop over a vector that the body does not touch. *)
Fixpoint forEach {A} (l : list A) (f : A -> L ()%type) : L ()%type :=
  match l with
  | [] => lret tt
  | x :: l' => f x ;; forEach l' f
  end.

(** [addPattern]: an epsilon move (label 0) from the initial state, and
    the accepting mark unless the state has one. *)
Definition addPattern (id : nat) (nfa : NFA) : L ()%type :=
  trans initial 0 (fst nfa) ;;
  fun tbl =>
    match tbl !! snd nfa with
    | Some en =>
      Some (tt, <[snd nfa :=
                   {| tr := tr en;
                      ac := match ac en with
                            | Some o => Some o
                            | None => Some id
                            end |}]> tbl)
    | None => None
    end.

Definition epsilon : L NFA :=
  s <- node ;; t <- node ;; trans s 0 t ;; lret (s, t).

Definition ch (ls : list nat) : L NFA :=
  s <- node ;; t <- node ;;
  forEach ls (fun c => trans s c t) ;;
  lret (s, t).

(** [for (unsigned int i = a; i <= b; i++) trans(s, i, t);] *)
Definition range (a b : nat) : L NFA :=
  s <- node ;; t <- node ;;
  forEach (seq a (S b - a)) (fun i => trans s i t) ;;
  lret (s, t).

(** [concat2]: the loop reads [table[b.first].tr] while it appends to
    [table[a.second].tr]; when both are the same vector and the loop runs
    at all, its iterators are invalidated. *)
Definition concat2 (a b : NFA) : L NFA :=
  fun tbl =>
    match tbl !! fst b with
    | Some en =>
      match tr en with
      | [] => Some ((fst a, snd b), tbl)
      | _ =>
        if Nat.eqb (snd a) (fst b) then None
        else (forEach (tr en) (fun ct => trans (snd a) (fst ct) (snd ct)) ;;
              lret (fst a, snd b)) tbl
      end
    | None => None
    end.

(** [concat(a, b...)], on constructed automata: [concat(a)] is [a]. *)
Fixpoint concat (a : NFA) (bs : list NFA) : L NFA :=
  match bs with
  | [] => lret a
  | b :: bs' => r <- concat b bs' ;; concat2 a r
  end.

(** [for (unsigned char c: str)] *)
Definition bytes (str : string) : list nat :=
  map nat_of_ascii (list_ascii_of_string str).

(** The loop of [word]: [t] is the last state of the chain so far. *)
Fixpoint wordLoop (cs : list nat) (t : State) : L State :=
  match cs with
  | [] => lret t
  | c :: cs' => curr <- node ;; trans t c curr ;; wordLoop cs' curr
  end.

Definition word (str : string) : L NFA :=
  s <- node ;; t <- wordLoop (bytes str) s ;; lret (s, t).

Definition alt (ls : list NFA) : L NFA :=
  s <- node ;; t <- node ;;
  forEach ls (fun a => trans s 0 (fst a) ;; trans (snd a) 0 t) ;;
  lret (s, t).

Definition star (a : NFA) : L NFA :=
  s <- node ;; t <- node ;;
  trans s 0 (fst a) ;; trans (snd a) 0 t ;;
  trans (snd a) 0 (fst a) ;; trans s 0 t ;;
  lret (s, t).

(** [concat2(a, star(a))]: the argument [star(a)] is built first. *)
Definition plus (a : NFA) : L NFA := r <- star a ;; concat2 a r.

Definition any : L NFA := range 1 255.
Definition utf8segment : L NFA := range 128 255.

(** [except]: the flags [f], then one transition per byte from 1 to 255
    whose flag is still set. *)
Definition except (ls : list nat) : L NFA :=
  s <- node ;; t <- node ;;
  forEach (filter (fun i => forallb (fun c => negb (Nat.eqb c i)) ls = true)
                  (seq 1 255))
          (fun i => trans s i t) ;;
  lret (s, t).

Definition tableSize : L nat := fun tbl => Some (length tbl, tbl).

(** ** Well-formed tables, for stating what the constructors keep *)

(** The initial state exists and every transition leads to a state of the
    table. *)
Definition wf (tbl : list Entry) : Prop :=
  (0 < length tbl)%nat
  /\ forall s en c t, tbl !! s = Some en -> (c, t) ∈ tr en ->
       (t < length tbl)%nat.

(** [wf], as a check that can be run. *)
Definition wfb (tbl : list Entry) : bool :=
  (0 <? length tbl)%nat
  && forallb (fun en => forallb (fun ct => (snd ct <? length tbl)%nat) (tr en))
             tbl.

Definition valid (tbl : list Entry) (a : NFA) : Prop :=
  (fst a < length tbl)%nat /\ (snd a < length tbl)%nat.

(** The table grew; a state that was there has kept its accepting mark and
    its transitions, with more transitions after them at most. *)
Definition extends (tbl tbl' : list Entry) : Prop :=
  (length tbl <= length tbl')%nat
  /\ forall s en, tbl !! s = Some en ->
       exists en', tbl' !! s = Some en' /\ ac en' = ac en
                   /\ exists more, tr en' = tr en ++ more.

(** [m] runs on [tbl] without undefined behaviour, leaves a well-formed
    table that extends [tbl], and its result satisfies [Q] there. *)
Definition runs {A} (m : L A) (tbl : list Entry)
    (Q : A -> list Entry -> Prop) : Prop :=
  exists r tbl', m tbl = Some (r, tbl') /\ wf tbl' /\ extends tbl tbl'
                 /\ Q r tbl'.

(** A constructor is safe on [tbl] when it runs and returns an automaton
    of the table it leaves. *)
Definition safe (tbl : list Entry) (m : L NFA) : Prop :=
  runs m tbl (fun r tbl' => valid tbl' r).

(** The two states a character class adds: one transition per byte of the
    class, in order, from the first to the second. *)
Definition classTable (tbl : list Entry) (cs : list nat) : list Entry :=
  tbl ++ [{| tr := map (fun c => (c, S (length tbl))) cs; ac := None |};
          emptyEntry].

(** The states [word] adds from state [n] on: a chain, one byte a step. *)
Fixpoint chain (n : nat) (cs : list nat) : list Entry :=
  match cs with
  | [] => [emptyEntry]
  | c :: cs' => {| tr := [(c, S n)]; ac := None |} :: chain (S n) cs'
  end.

End NFALexer.

(** ** Example inputs for the further properties *)

(** The list [(7 2)], at 584, and the pattern [(x . r)], at 587. *)
Definition pairPattern : M ptr :=
  sevenTwo ;; x <- sym "x" ;; r <- sym "r" ;; mk_cons x r.
Definition pairPatternState : State := arena pairPattern.

(** The argument list [("hello" 9 3)], at 586. *)
Definition substrArgs : M ptr := listM [str "hello"; mk_nat 9; mk_nat 3].
Definition substrArgsState : State := arena substrArgs.


(** The argument list [(#false 7)], at 583. *)
Definition falseSeven : M ptr := listM [ret bfalse; mk_nat 7].
Definition falseSevenState : State := arena falseSeven.


(** The argument list [("abc")], at 582. *)
Definition textArgs : M ptr := listM [str "abc"].
Definition textArgsState : State := arena textArgs.

(** An environment with a binding for [y] only, at 584. *)
Definition onlyYState : State := snd (extend nil_ "y" btrue initialState).

(** The table of a new lexer after [word "a"], states 1 and 2, and
    [word "b"], states 3 and 4. *)
Definition twoWords : list NFALexer.Entry :=
  match NFALexer.lbind (NFALexer.word "a") (fun _ => NFALexer.word "b")
          NFALexer.create with
  | Some (_, tbl) => tbl
  | None => []
  end.

(** * Properties *)

(** ** Running monadic code *)

Lemma bind_Ret {A B} (m : M A) (f : A -> M B) st a st' :
  m st = (Ret a, st') -> bind m f st = f a st'.
Proof. intros H. unfold bind. now rewrite H. Qed.

Lemma deref_Some p t st : pool st !! p = Some t -> deref p st = (Ret t, st).
Proof. intros H. unfold deref. now rewrite H. Qed.

Lemma bind_deref {B} p t (f : Tree -> M B) st :
  pool st !! p = Some t -> bind (deref p) f st = f t st.
Proof. intros H. apply bind_Ret, deref_Some, H. Qed.

Lemma emplaceBack_eq t st :
  emplaceBack t st = (Ret (length (pool st)), set_pool (pool st ++ [t]) st).
Proof. reflexivity. Qed.

Lemma expectCons_Some host p h t st :
  pool st !! p = Some (Cons h t) -> expectCons host p st = (Ret (h, t), st).
Proof. intros H. unfold expectCons. now rewrite (bind_deref _ _ _ _ H). Qed.

Lemma expectHead_Some host p h t st :
  pool st !! p = Some (Cons h t) -> expectHead host p st = (Ret h, st).
Proof.
  intros H. unfold expectHead.
  now rewrite (bind_Ret _ _ _ _ _ (expectCons_Some host _ _ _ _ H)).
Qed.

Lemma expectNil_Some host p st :
  pool st !! p = Some Nil -> expectNil host p st = (Ret tt, st).
Proof. intros H. unfold expectNil. now rewrite (bind_deref _ _ _ _ H). Qed.

Lemma expectBool_Some host p b st :
  pool st !! p = Some (Bool b) -> expectBool host p st = (Ret b, st).
Proof. intros H. unfold expectBool. now rewrite (bind_deref _ _ _ _ H). Qed.

Lemma expectNat64_Some host p n st :
  pool st !! p = Some (Nat64 n) -> expectNat64 host p st = (Ret n, st).
Proof. intros H. unfold expectNat64. now rewrite (bind_deref _ _ _ _ H). Qed.

Lemma expectString_Some host p w st :
  pool st !! p = Some (String w) -> expectString host p st = (Ret w, st).
Proof. intros H. unfold expectString. now rewrite (bind_deref _ _ _ _ H). Qed.

Lemma headOf_Some p h t st :
  pool st !! p = Some (Cons h t) -> headOf p st = (Ret h, st).
Proof. intros H. unfold headOf. now rewrite (bind_deref _ _ _ _ H). Qed.

Lemma twoArgs_Some host p a t b u st :
  pool st !! p = Some (Cons a t) -> pool st !! t = Some (Cons b u) ->
  twoArgs host p st = (Ret (a, b), st).
Proof.
  intros H1 H2. unfold twoArgs.
  rewrite (bind_Ret _ _ _ _ _ (expectCons_Some host _ _ _ _ H1)). cbn [snd fst].
  now rewrite (bind_Ret _ _ _ _ _ (expectCons_Some host _ _ _ _ H2)).
Qed.

(** Runs the next [deref] of the goal, [tac] finding the node. *)
Ltac step_deref tac :=
  erewrite bind_deref by (cbn [pool set_pool]; tac); cbv beta iota.

(** ** Lookup after extension *)

(** What [extend] allocates: the key, the value cell, the entry, the
    frame; the result is the frame. *)
Lemma extend_eq env s e st :
  extend env s e st =
  (Ret (length (pool st) + 3)%nat,
   set_pool (pool st ++ [Symbol s; Cons e nil_;
                          Cons (length (pool st)) (length (pool st) + 1)%nat;
                          Cons (length (pool st) + 2)%nat env]) st).
Proof.
  unfold extend, sym, mk_cons, bind, emplaceBack, set_pool. cbn [pool].
  rewrite !length_app. cbn [length globalEnv grammar macros nameMacros prims
    namePrims stdout files trace].
  rewrite <- !app_assoc. cbn [app].
  replace (length (pool st) + 1 + 1)%nat with (length (pool st) + 2)%nat by lia.
  replace (length (pool st) + 2 + 1)%nat with (length (pool st) + 3)%nat by lia.
  reflexivity.
Qed.

Lemma lookup_frame_0 (l : list Tree) a b c d :
  (l ++ [a; b; c; d]) !! length l = Some a.
Proof. now rewrite (list_lookup_middle l [b; c; d] a (length l)). Qed.

Lemma lookup_frame_1 (l : list Tree) a b c d :
  (l ++ [a; b; c; d]) !! (length l + 1)%nat = Some b.
Proof.
  replace (l ++ [a; b; c; d]) with ((l ++ [a]) ++ b :: [c; d])
    by now rewrite <- app_assoc.
  apply list_lookup_middle. rewrite length_app. cbn. lia.
Qed.

Lemma lookup_frame_2 (l : list Tree) a b c d :
  (l ++ [a; b; c; d]) !! (length l + 2)%nat = Some c.
Proof.
  replace (l ++ [a; b; c; d]) with ((l ++ [a; b]) ++ c :: [d])
    by now rewrite <- app_assoc.
  apply list_lookup_middle. rewrite length_app. cbn. lia.
Qed.

Lemma lookup_frame_3 (l : list Tree) a b c d :
  (l ++ [a; b; c; d]) !! (length l + 3)%nat = Some d.
Proof.
  replace (l ++ [a; b; c; d]) with ((l ++ [a; b; c]) ++ d :: [])
    by now rewrite <- app_assoc.
  apply list_lookup_middle. rewrite length_app. cbn. lia.
Qed.

(** C7, as amended: looking up the symbol just bound gives the bound value
    when that value is not the [Unit] placeholder, and reports "unbound"
    when it is; a binding for another symbol is transparent.  Both lookups
    run in the arena as [extend] leaves it. *)
Theorem lookup_extend (fuel : nat) (st : State) (env : ptr) (s s' : string)
    (v : ptr) (tv : Tree) :
  pool st !! v = Some tv ->
  let st' := snd (extend env s v st) in
  let st'' := snd (extend env s' v st) in
  (exists env', fst (extend env s v st) = Ret env' /\
     lookup (S fuel) env' s st' =
       (Ret (match tv with Unit => None | _ => Some v end), st')) /\
  (s <> s' ->
   exists env', fst (extend env s' v st) = Ret env' /\
     lookup (S fuel) env' s st'' = lookup fuel env s st'').
Proof.
  intros Hv st' st''. subst st' st''. rewrite !extend_eq. cbn [fst snd].
  split.
  - eexists. split; [reflexivity|].
    cbn [lookup].
    step_deref ltac:(apply lookup_frame_3).
    step_deref ltac:(apply lookup_frame_2).
    step_deref ltac:(apply lookup_frame_1).
    step_deref ltac:(apply lookup_frame_0).
    rewrite String.eqb_refl.
    step_deref ltac:(apply lookup_app_l_Some, Hv).
    now destruct tv.
  - intros Hne. eexists. split; [reflexivity|].
    cbn [lookup].
    step_deref ltac:(apply lookup_frame_3).
    step_deref ltac:(apply lookup_frame_2).
    step_deref ltac:(apply lookup_frame_1).
    step_deref ltac:(apply lookup_frame_0).
    destruct (String.eqb_spec s' s) as [->|_]; [congruence|reflexivity].
Qed.

(** ** Matching under quote and unquote *)

(** C6: against the pattern [(quote (unquote pat))], read from the arena
    at [qpat], the matcher in normal mode does what it does against [pat]:
    same flag, same bindings, same arena.  The two extra nodes it walks
    through cost two units of fuel. *)
Theorem match_quote_unquote (host : Host) (fuel : nat) (st : State)
    (e env qpat q t1 u x uq t2 pat y : ptr) :
  pool st !! qpat = Some (Cons q t1) ->
  pool st !! q = Some (Symbol "quote") ->
  pool st !! t1 = Some (Cons u x) ->
  pool st !! u = Some (Cons uq t2) ->
  pool st !! uq = Some (Symbol "unquote") ->
  pool st !! t2 = Some (Cons pat y) ->
  match_ host (S (S fuel)) e qpat env false st
  = match_ host fuel e pat env false st.
Proof.
  intros Hq Hqs Ht1 Hu Huq Ht2.
  cbn [match_].
  step_deref ltac:(exact Hq).
  step_deref ltac:(exact Hqs).
  cbn [String.eqb Ascii.eqb Bool.eqb andb negb].
  rewrite (bind_Ret _ _ _ _ _ (expectHead_Some host _ _ _ _ Ht1)).
  step_deref ltac:(exact Hu).
  step_deref ltac:(exact Huq).
  cbn [String.eqb Ascii.eqb Bool.eqb andb negb].
  rewrite (bind_Ret _ _ _ _ _ (expectHead_Some host _ _ _ _ Ht2)).
  reflexivity.
Qed.

(** ** Arithmetic primitives *)

Lemma wrap64_opp (n : Z) : wrap64 (- n) = (2 ^ 64 - n) mod 2 ^ 64.
Proof.
  unfold wrap64.
  replace (2 ^ 64 - n) with (- n + 1 * 2 ^ 64) by lia.
  now rewrite Z_mod_plus_full.
Qed.

(** C10: on the argument list [(n)] the [minus] primitive allocates and
    returns [Nat64 ((2^64 - n) mod 2^64)], without failing; for [n = 0]
    that is [Nat64 0]. *)
Theorem minus_wraps (host : Host) (st : State) (env e a t : ptr) (n : Z) :
  pool st !! e = Some (Cons a t) ->
  pool st !! a = Some (Nat64 n) ->
  prim_minus host env e st
  = (Ret (value (length (pool st))),
     set_pool (pool st ++ [Nat64 ((2 ^ 64 - n) mod 2 ^ 64)]) st)
  /\ (n = 0 -> (2 ^ 64 - n) mod 2 ^ 64 = 0).
Proof.
  intros He Ha. split.
  - unfold prim_minus, unary_Nat64.
    rewrite (bind_Ret _ _ _ _ _ (expectCons_Some host _ _ _ _ He)). cbn [fst].
    rewrite (bind_Ret _ _ _ _ _ (expectNat64_Some host _ _ _ Ha)).
    unfold op_minus. rewrite wrap64_opp. reflexivity.
  - intros ->. reflexivity.
Qed.

(** C8: [div] and [mod] apply the machine operation to their two [Nat64]
    arguments with no test of the divisor.  With a nonzero divisor they
    return the quotient and the remainder; with a zero divisor the source
    has no branch at all, neither a result nor an evaluation error: the
    behaviour is undefined. *)
Theorem div_mod_unguarded (host : Host) (st : State) (env e a t b u : ptr)
    (x y : Z) :
  pool st !! e = Some (Cons a t) ->
  pool st !! t = Some (Cons b u) ->
  pool st !! a = Some (Nat64 x) ->
  pool st !! b = Some (Nat64 y) ->
  (y <> 0 ->
     prim_div host env e st
     = (Ret (value (length (pool st))), set_pool (pool st ++ [Nat64 (x / y)]) st)
     /\ prim_mod host env e st
     = (Ret (value (length (pool st))), set_pool (pool st ++ [Nat64 (x mod y)]) st))
  /\ (y = 0 ->
     prim_div host env e st = (Undefined, st)
     /\ prim_mod host env e st = (Undefined, st)).
Proof.
  intros He Ht Ha Hb.
  unfold prim_div, prim_mod, binary_Nat64.
  rewrite !(bind_Ret _ _ _ _ _ (twoArgs_Some host _ _ _ _ _ _ He Ht)). cbn [fst snd].
  rewrite !(bind_Ret _ _ _ _ _ (expectNat64_Some host _ _ _ Ha)).
  rewrite !(bind_Ret _ _ _ _ _ (expectNat64_Some host _ _ _ Hb)).
  unfold op_div, op_mod. split.
  - intros Hy. apply Z.eqb_neq in Hy. rewrite Hy. split; reflexivity.
  - intros ->. split; reflexivity.
Qed.

(** ** What [string_nat64] reads *)











(** ** More fuel never changes a result

    Every function is monotone in its fuel, and all of them are built from
    [bind], so the proofs follow the shape of the code. *)


Lemma mle_refl {A} (m : M A) : mle m m.
Proof. intros st _. reflexivity. Qed.

Lemma mle_outOfFuel {A} (m : M A) : mle outOfFuel m.
Proof. intros st H. now contradiction H. Qed.

Lemma mle_bind {A B} (m1 m2 : M A) (f1 f2 : A -> M B) :
  mle m1 m2 -> (forall a, mle (f1 a) (f2 a)) -> mle (bind m1 f1) (bind m2 f2).
Proof.
  intros Hm Hf st H. unfold bind in *.
  destruct (m1 st) as [[a|x| | |] st1] eqn:E; cbn in H; try congruence;
    rewrite (Hm st) by (rewrite E; cbn; discriminate); rewrite E;
    [now apply Hf|reflexivity..].
Qed.

Lemma mle_decorate {A} e (m1 m2 : M A) :
  mle m1 m2 -> mle (decorate e m1) (decorate e m2).
Proof.
  intros Hm st H. unfold decorate in *.
  destruct (m1 st) as [[a|x| | |] st1] eqn:E; cbn in H; try congruence;
    rewrite (Hm st) by (rewrite E; cbn; discriminate); rewrite E;
    reflexivity.
Qed.

Ltac mle_step :=
  match goal with
  | |- mle outOfFuel _ => apply mle_outOfFuel
  | |- mle (bind _ _) (bind _ _) => apply mle_bind; [|intros ?]
  | |- mle (decorate _ _) (decorate _ _) => apply mle_decorate
  | |- mle (match ?x with _ => _ end) _ => destruct x
  | |- mle ?m ?m => apply mle_refl
  end.

Ltac mle_auto := repeat (mle_step || (now auto with mle)).

Create HintDb mle.

Lemma lookup_mono n m env s : (n <= m)%nat -> mle (lookup n env s) (lookup m env s).
Proof.
  revert m env. induction n as [|n IH]; intros [|m] env Hle;
    [apply mle_outOfFuel..|lia|].
  assert (forall e, mle (lookup n e s) (lookup m e s)) by (intros; apply IH; lia).
  cbn [lookup]. mle_auto.
Qed.
#[local] Hint Resolve lookup_mono : mle.

Lemma tree_eq_mono n m a b : (n <= m)%nat -> mle (tree_eq n a b) (tree_eq m a b).
Proof.
  revert m a b. induction n as [|n IH]; intros [|m] a b Hle;
    [apply mle_outOfFuel..|lia|].
  assert (forall x y, mle (tree_eq n x y) (tree_eq m x y)) by (intros; apply IH; lia).
  cbn [tree_eq]. mle_auto.
Qed.
#[local] Hint Resolve tree_eq_mono : mle.

Section Monotone.
Context (host : Host).

Lemma match_mono n m e pat env q :
  (n <= m)%nat -> mle (match_ host n e pat env q) (match_ host m e pat env q).
Proof.
  revert m e pat env q. induction n as [|n IH]; intros [|m] e pat env q Hle;
    [apply mle_outOfFuel..|lia|].
  assert (forall a b c d, mle (match_ host n a b c d) (match_ host m a b c d))
    by (intros; apply IH; lia).
  assert (forall x y, mle (tree_eq n x y) (tree_eq m x y))
    by (intros; apply tree_eq_mono; lia).
  cbn [match_]. mle_auto.
Qed.

#[local] Hint Resolve match_mono : mle.

Lemma patterns_mono n m :
  (n <= m)%nat ->
  (forall e, mle (treePattern host n e) (treePattern host m e))
  /\ (forall e, mle (listPatterns host n e) (listPatterns host m e)).
Proof.
  revert m. induction n as [|n IH]; intros [|m] Hle;
    [split; intros; apply mle_outOfFuel..|lia|].
  destruct (IH m ltac:(lia)) as [IH1 IH2].
  split; intros e; [cbn [treePattern]|cbn [listPatterns]]; mle_auto.
Qed.

Lemma treePattern_mono n m e :
  (n <= m)%nat -> mle (treePattern host n e) (treePattern host m e).
Proof. intros H. now apply patterns_mono. Qed.
#[local] Hint Resolve treePattern_mono : mle.

Lemma listSymbols_mono n m e :
  (n <= m)%nat -> mle (listSymbols host n e) (listSymbols host m e).
Proof.
  revert m e. induction n as [|n IH]; intros [|m] e Hle;
    [apply mle_outOfFuel..|lia|].
  assert (forall x, mle (listSymbols host n x) (listSymbols host m x))
    by (intros; apply IH; lia).
  cbn [listSymbols]. mle_auto.
Qed.
#[local] Hint Resolve listSymbols_mono : mle.

Lemma addPatterns_mono n m e :
  (n <= m)%nat -> mle (addPatterns host n e) (addPatterns host m e).
Proof.
  revert m e. induction n as [|n IH]; intros [|m] e Hle;
    [apply mle_outOfFuel..|lia|].
  assert (forall x, mle (addPatterns host n x) (addPatterns host m x))
    by (intros; apply IH; lia).
  assert (forall x, mle (treePattern host n x) (treePattern host m x))
    by (intros; apply treePattern_mono; lia).
  cbn [addPatterns]. mle_auto.
Qed.
#[local] Hint Resolve addPatterns_mono : mle.

Lemma addRules_mono n m e :
  (n <= m)%nat -> mle (addRules host n e) (addRules host m e).
Proof.
  revert m e. induction n as [|n IH]; intros [|m] e Hle;
    [apply mle_outOfFuel..|lia|].
  assert (forall x, mle (addRules host n x) (addRules host m x))
    by (intros; apply IH; lia).
  assert (forall x, mle (listSymbols host n x) (listSymbols host m x))
    by (intros; apply listSymbols_mono; lia).
  cbn [addRules]. mle_auto.
Qed.
#[local] Hint Resolve addRules_mono : mle.

Lemma setSyntax_mono n m p r :
  (n <= m)%nat -> mle (setSyntax host n p r) (setSyntax host m p r).
Proof. intros Hle. unfold setSyntax. mle_auto. Qed.
#[local] Hint Resolve setSyntax_mono : mle.

Section MonotoneEvaluator.
Variables ev1 ev2 : ptr -> ptr -> M ptr.
Hypothesis ev_mono : forall env e, mle (ev1 env e) (ev2 env e).
#[local] Hint Resolve ev_mono : mle.

Ltac by_fuel_induction f :=
  let n := fresh "n" in let IH := fresh "IH" in
  intros n; induction n as [|n IH]; intros [|?] **;
    [apply mle_outOfFuel..|lia|];
  cbn [f]; mle_auto; apply IH; lia.

Lemma evalList_mono : forall n m env e,
  (n <= m)%nat -> mle (evalList ev1 n env e) (evalList ev2 m env e).
Proof. by_fuel_induction evalList. Qed.
#[local] Hint Resolve evalList_mono : mle.

Lemma beginList_mono : forall n m env e,
  (n <= m)%nat -> mle (beginList host ev1 n env e) (beginList host ev2 m env e).
Proof. by_fuel_induction beginList. Qed.
#[local] Hint Resolve beginList_mono : mle.

Lemma quasiquote_mono : forall n m env e,
  (n <= m)%nat -> mle (quasiquote host ev1 n env e) (quasiquote host ev2 m env e).
Proof.
  intros n; induction n as [|n IH]; intros [|m] **;
    [apply mle_outOfFuel..|lia|].
  assert (forall a b, mle (quasiquote host ev1 n a b) (quasiquote host ev2 m a b))
    by (intros; apply IH; lia).
  cbn [quasiquote]. mle_auto.
Qed.
#[local] Hint Resolve quasiquote_mono : mle.

Lemma matchClauses_mono : forall n m env target it,
  (n <= m)%nat ->
  mle (matchClauses host n env target it) (matchClauses host m env target it).
Proof.
  intros n; induction n as [|n IH]; intros [|m] **;
    [apply mle_outOfFuel..|lia|].
  assert (forall a b c, mle (matchClauses host n a b c) (matchClauses host m a b c))
    by (intros; apply IH; lia).
  cbn [matchClauses]. mle_auto.
Qed.
#[local] Hint Resolve matchClauses_mono : mle.

Lemma clausePatterns_mono : forall n m first it,
  (n <= m)%nat ->
  mle (clausePatterns host n first it) (clausePatterns host m first it).
Proof. by_fuel_induction clausePatterns. Qed.
#[local] Hint Resolve clausePatterns_mono : mle.

Lemma letLoop_mono : forall n m env it,
  (n <= m)%nat -> mle (letLoop host ev1 n env it) (letLoop host ev2 m env it).
Proof. by_fuel_induction letLoop. Qed.
#[local] Hint Resolve letLoop_mono : mle.

Lemma letrecBind_mono : forall n m env it refs,
  (n <= m)%nat ->
  mle (letrecBind host n env it refs) (letrecBind host m env it refs).
Proof. by_fuel_induction letrecBind. Qed.
#[local] Hint Resolve letrecBind_mono : mle.

Lemma letrecAssign_mono : forall n m env it refs i,
  (n <= m)%nat ->
  mle (letrecAssign host ev1 n env it refs i) (letrecAssign host ev2 m env it refs i).
Proof. by_fuel_induction letrecAssign. Qed.
#[local] Hint Resolve letrecAssign_mono : mle.

Lemma setLoop_mono : forall n m it s val,
  (n <= m)%nat -> mle (setLoop n it s val) (setLoop m it s val).
Proof. by_fuel_induction setLoop. Qed.
#[local] Hint Resolve setLoop_mono : mle.

Lemma applyPrim_mono n m f env e :
  (n <= m)%nat ->
  mle (applyPrim host ev1 n f env e) (applyPrim host ev2 m f env e).
Proof.
  intros Hle. destruct f; cbn [applyPrim]; try apply mle_refl;
    unfold prim_cond, prim_quote, prim_unquote, prim_match, prim_let,
      prim_letrec, prim_define, prim_define_macro, prim_set, prim_begin,
      prim_set_syntax;
    mle_auto.
Qed.
#[local] Hint Resolve applyPrim_mono : mle.

Lemma evalStep_mono n m env e :
  (n <= m)%nat ->
  mle (evalStep host ev1 n env e) (evalStep host ev2 m env e).
Proof. intros Hle. unfold evalStep, evalApply. mle_auto. Qed.

End MonotoneEvaluator.

Lemma eval_mono n m env e :
  (n <= m)%nat -> mle (eval host n env e) (eval host m env e).
Proof.
  revert m env e. induction n as [|n IH]; intros [|m] env e Hle;
    [apply mle_outOfFuel..|lia|].
  cbn [eval]. apply evalStep_mono; [|lia].
  intros. apply IH. lia.
Qed.

(** A result obtained with some fuel is obtained with any larger fuel. *)
Lemma eval_fuel_more n m env e st r st' :
  eval host n env e st = (r, st') -> r <> OutOfFuel -> (n <= m)%nat ->
  eval host m env e st = (r, st').
Proof.
  intros H Hr Hle. rewrite <- H. apply eval_mono; [exact Hle|].
  now rewrite H.
Qed.

End Monotone.

(** ** What evaluation can change *)


Lemma stable_refl pl : stable pl pl.
Proof.
  split; [lia|]. intros p t H. destruct t; eauto.
Qed.

Lemma stable_trans a b c : stable a b -> stable b c -> stable a c.
Proof.
  intros [L1 H1] [L2 H2]. split; [lia|].
  intros p t Hp. specialize (H1 p t Hp).
  destruct t; try (now apply (H2 p _ H1)).
  destruct H1 as [h' H1]. exact (H2 p _ H1).
Qed.

Lemma stable_app pl l : stable pl (pl ++ l).
Proof.
  split; [rewrite length_app; lia|].
  intros p t H. apply (lookup_app_l_Some _ l) in H. destruct t; eauto.
Qed.

Lemma stable_assign pl cell h tl v :
  pl !! cell = Some (Cons h tl) -> stable pl (<[cell := Cons v tl]> pl).
Proof.
  intros Hc. split; [rewrite length_insert; lia|].
  intros p t Hp. destruct (decide (cell = p)) as [->|Hne].
  - rewrite Hc in Hp. injection Hp as <-.
    exists v. apply list_lookup_insert_eq. now apply lookup_lt_Some in Hc.
  - rewrite list_lookup_insert_ne by exact Hne. destruct t; eauto.
Qed.

Lemma weak_refl st : weak st st.
Proof. repeat split; [lia| |now exists []]. intros p t H. destruct t; eauto. Qed.

Lemma weak_trans a b c : weak a b -> weak b c -> weak a c.
Proof.
  intros (S1 & [e1 T1] & P1 & N1) (S2 & [e2 T2] & P2 & N2).
  repeat split; try congruence.
  - apply (stable_trans _ _ _ S1 S2).
  - apply (stable_trans _ _ _ S1 S2).
  - exists (e2 ++ e1). rewrite T2, T1. now rewrite app_assoc.
Qed.

Lemma trace_grows_eq {A} (e1 e2 t : list A) : e2 ++ e1 ++ t = t -> e1 = [] /\ e2 = [].
Proof.
  intros H. apply (f_equal (@length A)) in H. rewrite !length_app in H.
  destruct e1, e2; cbn in H; try lia. easy.
Qed.

Lemma frame_refl n0 st : frame n0 st st.
Proof. split; [apply weak_refl|]. intros _. now repeat split. Qed.

Lemma frame_trans n0 a b c : frame n0 a b -> frame n0 b c -> frame n0 a c.
Proof.
  intros [W1 C1] [W2 C2]. split; [apply (weak_trans _ _ _ W1 W2)|].
  intros HT.
  destruct W1 as (_ & [e1 T1] & _), W2 as (_ & [e2 T2] & _).
  assert (e1 = [] /\ e2 = []) as [-> ->].
  { apply (trace_grows_eq e1 e2 (trace a)). now rewrite <- T1, <- T2. }
  cbn in T1, T2.
  destruct (C1 T1) as (G1 & R1 & M1 & N1 & Q1), (C2 T2) as (G2 & R2 & M2 & N2 & Q2).
  repeat split; try congruence.
  intros p Hp. now rewrite Q2, Q1.
Qed.

Lemma frame_weak n0 st st' : frame n0 st st' -> weak st st'.
Proof. now intros []. Qed.

(** Once the log has grown, only [weak] is left to keep. *)
Lemma frame_after_note n0 st st1 st2 ev :
  trace st1 = ev :: trace st -> weak st st1 -> weak st1 st2 -> frame n0 st st2.
Proof.
  intros HT W1 W2. split; [apply (weak_trans _ _ _ W1 W2)|].
  intros HT2. destruct W2 as (_ & [e2 T2] & _).
  rewrite T2, HT in HT2. apply (f_equal (@length Effect)) in HT2.
  rewrite length_app in HT2. cbn in HT2. lia.
Qed.

Lemma pres_bind {A B} n0 (m : M A) (f : A -> M B) :
  pres n0 m -> (forall a, pres n0 (f a)) -> pres n0 (bind m f).
Proof.
  intros Hm Hf st Hn. specialize (Hm st Hn). unfold bind.
  destruct (m st) as [[a|x| | |] st1]; cbn [snd] in *; try exact Hm.
  apply (frame_trans _ _ _ _ Hm). apply Hf.
  destruct Hm as [[[L _] _] _]. lia.
Qed.

Lemma wpres_bind {A B} (m : M A) (f : A -> M B) :
  wpres m -> (forall a, wpres (f a)) -> wpres (bind m f).
Proof.
  intros Hm Hf st. specialize (Hm st). unfold bind.
  destruct (m st) as [[a|x| | |] st1]; cbn [snd] in *; try exact Hm.
  apply (weak_trans _ _ _ Hm). apply Hf.
Qed.

Lemma pres_note {B} n0 ev (f : () -> M B) :
  (forall a, wpres (f a)) -> pres n0 (bind (note ev) f).
Proof.
  intros Hf st Hn. unfold bind, note, modify.
  apply (frame_after_note n0 st (set_trace (ev :: trace st) st) _ ev).
  - reflexivity.
  - repeat split; cbn; [lia| |now exists [ev]]. intros p t H. destruct t; eauto.
  - apply Hf.
Qed.

Lemma pres_decorate {A} n0 e (m : M A) : pres n0 m -> pres n0 (decorate e m).
Proof.
  intros Hm st Hn. specialize (Hm st Hn). unfold decorate.
  destruct (m st) as [[a|[]| | |] st1]; exact Hm.
Qed.

Lemma pres_wpres {A} (m : M A) : pres 0 m -> wpres m.
Proof. intros H st. apply (frame_weak 0), H. lia. Qed.


Lemma readonly_pres {A} n0 (m : M A) : readonly m -> pres n0 m.
Proof. intros H st _. rewrite H. apply frame_refl. Qed.

Lemma readonly_wpres {A} (m : M A) : readonly m -> wpres m.
Proof. intros H st. rewrite H. apply weak_refl. Qed.

Lemma readonly_bind {A B} (m : M A) (f : A -> M B) :
  readonly m -> (forall a, readonly (f a)) -> readonly (bind m f).
Proof.
  intros Hm Hf st. specialize (Hm st). unfold bind.
  destruct (m st) as [[a|x| | |] st1]; cbn [snd] in *; subst; try reflexivity.
  apply Hf.
Qed.

Lemma readonly_ret {A} (a : A) : readonly (ret a).
Proof. now intros st. Qed.
Lemma readonly_throw {A} x : readonly (@throw A x).
Proof. now intros st. Qed.
Lemma readonly_abort {A} : readonly (@abort A).
Proof. now intros st. Qed.
Lemma readonly_undefined {A} : readonly (@undefined A).
Proof. now intros st. Qed.
Lemma readonly_outOfFuel {A} : readonly (@outOfFuel A).
Proof. now intros st. Qed.
Lemma readonly_get : readonly get.
Proof. now intros st. Qed.
Lemma readonly_deref p : readonly (deref p).
Proof. intros st. unfold deref. now destruct (pool st !! p). Qed.

Create HintDb ro.
#[local] Hint Resolve readonly_ret readonly_throw readonly_abort
  readonly_undefined readonly_outOfFuel readonly_get readonly_deref : ro.

Ltac ro_step :=
  match goal with
  | |- readonly (bind _ _) => apply readonly_bind; [|intros ?]
  | |- readonly (match ?x with _ => _ end) => destruct x
  end.
Ltac ro_auto := repeat (ro_step || (now auto with ro)).

Lemma frame_emplaceBack n0 t st :
  (n0 <= length (pool st))%nat -> frame n0 st (set_pool (pool st ++ [t]) st).
Proof.
  intros Hn. split.
  - repeat split; cbn; try apply stable_app. now exists [].
  - intros _. repeat split. intros p Hp. cbn.
    apply lookup_app_l. lia.
Qed.

Lemma pres_emplaceBack n0 t : pres n0 (emplaceBack t).
Proof. intros st Hn. now apply frame_emplaceBack. Qed.

Lemma pres_set_stdout n0 (f : State -> list string) :
  pres n0 (modify (fun st => set_stdout (f st) st)).
Proof.
  intros st _. split; [|intros _; now repeat split].
  repeat split; cbn; [lia| |now exists []]. intros p t H. destruct t; eauto.
Qed.

Lemma pres_set_files n0 (f : State -> list (string * string)) :
  pres n0 (modify (fun st => set_files (f st) st)).
Proof.
  intros st _. split; [|intros _; now repeat split].
  repeat split; cbn; [lia| |now exists []]. intros p t H. destruct t; eauto.
Qed.

Lemma wpres_set_grammar (f : State -> Grammar) :
  wpres (modify (fun st => set_grammar (f st) st)).
Proof.
  intros st. repeat split; cbn; [lia| |now exists []].
  intros p t H. destruct t; eauto.
Qed.

Lemma wpres_modify_grammar f : wpres (modify_grammar f).
Proof. apply (wpres_set_grammar (fun st => f (grammar st))). Qed.

Lemma wpres_set_globalEnv g : wpres (modify (set_globalEnv g)).
Proof.
  intros st. repeat split; cbn; [lia| |now exists []].
  intros p t H. destruct t; eauto.
Qed.

Lemma wpres_addMacro name cl : wpres (addMacro name cl).
Proof.
  intros st. repeat split; cbn; [lia| |now exists []].
  intros p t H. destruct t; eauto.
Qed.

Lemma wpres_assignHead cell v : wpres (assignHead cell v).
Proof.
  intros st. unfold assignHead, bind, deref.
  destruct (pool st !! cell) as [[]|] eqn:E; cbn; try apply weak_refl.
  repeat split; cbn; try (eapply stable_assign; exact E). now exists [].
Qed.

Lemma pres_assignHead n0 cell v : (n0 <= cell)%nat -> pres n0 (assignHead cell v).
Proof.
  intros Hc st Hn. split; [apply wpres_assignHead|].
  intros _. unfold assignHead, bind, deref.
  destruct (pool st !! cell) as [[]|] eqn:E; cbn; try (now repeat split).
  repeat split; try reflexivity.
  intros p Hp. apply list_lookup_insert_ne. lia.
Qed.

Create HintDb pres.
#[local] Hint Resolve readonly_pres readonly_wpres pres_emplaceBack
  pres_set_stdout pres_set_files wpres_set_grammar wpres_modify_grammar
  wpres_set_globalEnv wpres_addMacro wpres_assignHead : pres.
#[local] Hint Resolve readonly_ret readonly_throw readonly_abort
  readonly_undefined readonly_outOfFuel readonly_get readonly_deref : pres.

Ltac pres_step :=
  match goal with
  | |- pres _ (bind (note _) _) => apply pres_note; intros ?
  | |- pres _ (bind _ _) => apply pres_bind; [|intros ?]
  | |- pres _ (decorate _ _) => apply pres_decorate
  | |- pres _ (match ?x with _ => _ end) => destruct x
  | |- wpres (bind _ _) => apply wpres_bind; [|intros ?]
  | |- wpres (match ?x with _ => _ end) => destruct x
  | |- readonly (bind _ _) => apply readonly_bind; [|intros ?]
  | |- readonly (match ?x with _ => _ end) => destruct x
  end.
Ltac pres_auto := repeat (pres_step || (now auto with pres)).

Section Frames.
Context (host : Host).

Lemma readonly_expectFail {A} what e : readonly (@expectFail host A what e).
Proof. unfold expectFail. pres_auto. Qed.
#[local] Hint Resolve readonly_expectFail : pres.

Lemma readonly_expectCons e : readonly (expectCons host e).
Proof. unfold expectCons. pres_auto. Qed.
Lemma readonly_expectNil e : readonly (expectNil host e).
Proof. unfold expectNil. pres_auto. Qed.
Lemma readonly_expectSymbol e : readonly (expectSymbol host e).
Proof. unfold expectSymbol. pres_auto. Qed.
Lemma readonly_expectString e : readonly (expectString host e).
Proof. unfold expectString. pres_auto. Qed.
Lemma readonly_expectNat64 e : readonly (expectNat64 host e).
Proof. unfold expectNat64. pres_auto. Qed.
Lemma readonly_expectBool e : readonly (expectBool host e).
Proof. unfold expectBool. pres_auto. Qed.
Lemma readonly_expectClosure e : readonly (expectClosure host e).
Proof. unfold expectClosure. pres_auto. Qed.
#[local] Hint Resolve readonly_expectCons readonly_expectNil
  readonly_expectSymbol readonly_expectString readonly_expectNat64
  readonly_expectBool readonly_expectClosure : pres.

Lemma readonly_expectHead e : readonly (expectHead host e).
Proof. unfold expectHead. pres_auto. Qed.
Lemma readonly_headOf e : readonly (headOf e).
Proof. unfold headOf. pres_auto. Qed.
Lemma readonly_twoArgs e : readonly (twoArgs host e).
Proof. unfold twoArgs. pres_auto. Qed.
Lemma readonly_stoull0 w : readonly (stoull0 w).
Proof. unfold stoull0. pres_auto. Qed.
Lemma readonly_syntaxEntry e : readonly (syntaxEntry host e).
Proof. unfold syntaxEntry. pres_auto. Qed.
#[local] Hint Resolve readonly_expectHead readonly_headOf readonly_twoArgs
  readonly_stoull0 readonly_syntaxEntry : pres.

Lemma readonly_lookup n env s : readonly (lookup n env s).
Proof. revert env. induction n as [|n IH]; intros env; cbn [lookup]; pres_auto. Qed.

Lemma readonly_tree_eq n a b : readonly (tree_eq n a b).
Proof. revert a b. induction n as [|n IH]; intros a b; cbn [tree_eq]; pres_auto. Qed.
#[local] Hint Resolve readonly_lookup readonly_tree_eq : pres.

Lemma readonly_patterns n :
  (forall e, readonly (treePattern host n e))
  /\ (forall e, readonly (listPatterns host n e)).
Proof.
  induction n as [|n [IH1 IH2]]; split; intros e;
    [cbn [treePattern]|cbn [listPatterns]|cbn [treePattern]|cbn [listPatterns]];
    pres_auto.
Qed.

Lemma readonly_treePattern n e : readonly (treePattern host n e).
Proof. apply readonly_patterns. Qed.
#[local] Hint Resolve readonly_treePattern : pres.

Lemma pres_extend n0 env s e : pres n0 (extend env s e).
Proof. unfold extend, sym, mk_cons. pres_auto. Qed.
#[local] Hint Resolve pres_extend : pres.

Lemma pres_match n0 n e pat env q : pres n0 (match_ host n e pat env q).
Proof.
  revert e pat env q. induction n as [|n IH]; intros e pat env q;
    cbn [match_]; pres_auto.
Qed.
#[local] Hint Resolve pres_match : pres.

Lemma wpres_getSymbol name : wpres (getSymbol name).
Proof. unfold getSymbol. pres_auto. Qed.
#[local] Hint Resolve wpres_getSymbol : pres.

Lemma wpres_listSymbols n e : wpres (listSymbols host n e).
Proof. revert e. induction n as [|n IH]; intros e; cbn [listSymbols]; pres_auto. Qed.
#[local] Hint Resolve wpres_listSymbols : pres.

Lemma wpres_addPatterns n e : wpres (addPatterns host n e).
Proof. revert e. induction n as [|n IH]; intros e; cbn [addPatterns]; pres_auto. Qed.

Lemma wpres_addRules n e : wpres (addRules host n e).
Proof. revert e. induction n as [|n IH]; intros e; cbn [addRules]; pres_auto. Qed.
#[local] Hint Resolve wpres_addPatterns wpres_addRules : pres.

Lemma wpres_setSyntax n p r : wpres (setSyntax host n p r).
Proof. unfold setSyntax. pres_auto. Qed.
#[local] Hint Resolve wpres_setSyntax : pres.

Lemma pres_makeList n0 es : pres n0 (makeList es).
Proof. induction es; cbn [makeList]; unfold mk_cons; pres_auto. Qed.

Lemma bind_Ret_inv {A B} (m : M A) (f : A -> M B) st b st' :
  bind m f st = (Ret b, st') ->
  exists a st1, m st = (Ret a, st1) /\ f a st1 = (Ret b, st').
Proof.
  unfold bind. destruct (m st) as [[a|x| | |] st1]; try discriminate. eauto.
Qed.

Lemma readonly_Ret_inv {A} (m : M A) st a st' :
  readonly m -> m st = (Ret a, st') -> st' = st.
Proof. intros H E. specialize (H st). now rewrite E in H. Qed.

Lemma deref_Ret_inv p st t st' :
  deref p st = (Ret t, st') -> st' = st /\ pool st !! p = Some t.
Proof.
  unfold deref. destruct (pool st !! p); intros [= <- <-]; auto.
Qed.

Lemma pres_bind_post {A B} n0 (m : M A) (f : A -> M B) (Q : A -> Prop) :
  pres n0 m ->
  (forall st a st', (n0 <= length (pool st))%nat -> m st = (Ret a, st') -> Q a) ->
  (forall a, Q a -> pres n0 (f a)) ->
  pres n0 (bind m f).
Proof.
  intros Hm HQ Hf st Hn. specialize (Hm st Hn). unfold bind.
  destruct (m st) as [[a|x| | |] st1] eqn:E; cbn [snd] in *; try exact Hm.
  apply (frame_trans _ _ _ _ Hm). apply Hf; [now apply (HQ st a st1)|].
  destruct Hm as [[[L _] _] _]. lia.
Qed.

(** The value cells [letrec] remembers are cells of the entries it has
    just allocated. *)
Lemma letrecBind_refs n0 fuel : forall env it refs st r st',
  letrecBind host fuel env it refs st = (Ret r, st') ->
  (n0 <= length (pool st))%nat ->
  Forall (fun c => (n0 <= c)%nat) refs ->
  Forall (fun c => (n0 <= c)%nat) (snd r).
Proof.
  induction fuel as [|fuel IH]; intros env it refs st r st' H Hn Hrefs;
    [discriminate|].
  cbn [letrecBind] in H.
  apply bind_Ret_inv in H as (t & st1 & Ht & H).
  apply deref_Ret_inv in Ht as [-> Ht].
  destruct t; try (injection H as <- <-; exact Hrefs).
  apply bind_Ret_inv in H as (c & st1 & Hc & H).
  apply (readonly_Ret_inv _ _ _ _ (readonly_expectCons _)) in Hc as ->.
  apply bind_Ret_inv in H as (w & st1 & Hw & H).
  apply (readonly_Ret_inv _ _ _ _ (readonly_expectSymbol _)) in Hw as ->.
  apply bind_Ret_inv in H as (env' & st2 & He & H).
  rewrite extend_eq in He. injection He as <- <-.
  apply bind_Ret_inv in H as (x & st3 & Hx & H).
  apply deref_Ret_inv in Hx as [-> Hx]. cbn [pool set_pool] in Hx.
  rewrite lookup_frame_3 in Hx. injection Hx as <-.
  apply bind_Ret_inv in H as (y & st3 & Hy & H).
  apply deref_Ret_inv in Hy as [-> Hy]. cbn [pool set_pool] in Hy.
  rewrite lookup_frame_2 in Hy. injection Hy as <-.
  apply bind_Ret_inv in H as (z & st3 & Hz & H).
  apply deref_Ret_inv in Hz as [-> Hz]. cbn [pool set_pool] in Hz.
  rewrite lookup_frame_1 in Hz. injection Hz as <-.
  apply IH in H; [exact H| |].
  - cbn [pool set_pool]. rewrite length_app. lia.
  - apply Forall_app. split; [exact Hrefs|]. repeat constructor. lia.
Qed.

Lemma pres_letrecBind n0 fuel env it refs :
  pres n0 (letrecBind host fuel env it refs).
Proof.
  revert env it refs. induction fuel as [|n IH]; intros env it refs;
    cbn [letrecBind]; pres_auto.
Qed.
#[local] Hint Resolve pres_letrecBind pres_makeList : pres.

Lemma pres_setLoop n0 fuel it s val : pres n0 (setLoop fuel it s val).
Proof.
  revert it. induction fuel as [|n IH]; intros it; cbn [setLoop]; pres_auto.
Qed.
#[local] Hint Resolve pres_setLoop : pres.

Lemma pres_matchClauses n0 fuel env target it :
  pres n0 (matchClauses host fuel env target it).
Proof.
  revert it. induction fuel as [|n IH]; intros it; cbn [matchClauses]; pres_auto.
Qed.

Lemma readonly_clausePatterns fuel first it :
  readonly (clausePatterns host fuel first it).
Proof.
  revert first it. induction fuel as [|n IH]; intros first it;
    cbn [clausePatterns]; pres_auto.
Qed.
#[local] Hint Resolve pres_matchClauses readonly_clausePatterns : pres.

Section FramesEvaluator.
Variable n0 : nat.
Variable ev : ptr -> ptr -> M ptr.
Hypothesis ev_pres : forall env e, pres n0 (ev env e).
#[local] Hint Resolve ev_pres : pres.

Lemma pres_evalList fuel env e : pres n0 (evalList ev fuel env e).
Proof.
  revert env e. induction fuel as [|n IH]; intros env e;
    cbn [evalList]; unfold mk_cons; pres_auto.
Qed.

Lemma pres_beginList fuel env e : pres n0 (beginList host ev fuel env e).
Proof.
  revert env e. induction fuel as [|n IH]; intros env e;
    cbn [beginList]; pres_auto.
Qed.

Lemma pres_quasiquote fuel env e : pres n0 (quasiquote host ev fuel env e).
Proof.
  revert env e. induction fuel as [|n IH]; intros env e;
    cbn [quasiquote]; unfold mk_cons; pres_auto.
Qed.
#[local] Hint Resolve pres_evalList pres_beginList pres_quasiquote : pres.

Lemma pres_letLoop fuel env it : pres n0 (letLoop host ev fuel env it).
Proof.
  revert env it. induction fuel as [|n IH]; intros env it;
    cbn [letLoop]; pres_auto.
Qed.

Lemma pres_letrecAssign fuel env it refs i :
  Forall (fun c => (n0 <= c)%nat) refs ->
  pres n0 (letrecAssign host ev fuel env it refs i).
Proof.
  intros Hrefs. revert env it i. induction fuel as [|n IH]; intros env it i;
    cbn [letrecAssign]; [pres_auto|].
  apply pres_bind; [pres_auto|]. intros t. destruct t; try (now pres_auto).
  apply pres_bind; [pres_auto|]. intros a.
  apply pres_bind; [pres_auto|]. intros v.
  destruct (refs !! i) as [cell|] eqn:E; [|pres_auto].
  apply pres_bind; [|intros; apply IH].
  apply pres_assignHead.
  exact (proj1 (Forall_lookup _ refs) Hrefs i cell E).
Qed.
#[local] Hint Resolve pres_letLoop : pres.

Lemma pres_prim_letrec fuel env e : pres n0 (prim_letrec host ev fuel env e).
Proof.
  unfold prim_letrec. apply pres_bind; [pres_auto|]. intros c.
  apply (pres_bind_post _ _ _
           (fun r => Forall (fun c => (n0 <= c)%nat) (snd r)));
    [pres_auto| |].
  - intros st a st' Hn H. apply (letrecBind_refs n0 _ _ _ _ _ _ _ H Hn).
    constructor.
  - intros r Hr. apply pres_bind; [pres_auto|]. intros defs.
    apply pres_bind; [now apply pres_letrecAssign|]. intros _. pres_auto.
Qed.
#[local] Hint Resolve pres_prim_letrec : pres.

Lemma pres_applyPrim fuel f env e : pres n0 (applyPrim host ev fuel f env e).
Proof.
  destruct f; cbn [applyPrim]; try apply pres_prim_letrec;
    unfold prim_lambda, prim_cond, prim_quote, prim_unquote, prim_match,
      prim_let, prim_define, prim_define_macro, prim_set, prim_begin,
      prim_eval, prim_env, prim_get_syntax, prim_set_syntax,
      prim_get_global_env, prim_set_global_env, prim_nil, prim_cons,
      prim_list, prim_id, prim_string_symbol, prim_string_nat64,
      prim_string_escape, prim_string_unescape, prim_string_length,
      prim_string_char, prim_char_string, prim_string_concat,
      prim_string_substr, prim_string_eq, prim_minus, prim_add, prim_sub,
      prim_mul, prim_div, prim_mod, unary_Nat64, unary_Bool, binary_Nat64,
      binary_Bool_and, binary_Bool_or, binary_Bool, binpred_Nat64,
      prim_print, prim_display, prim_debug_save_file,
      mk_cons, sym, str, mk_nat, boolean;
    pres_auto.
Qed.
#[local] Hint Resolve pres_applyPrim : pres.

Lemma pres_evalStep fuel env e : pres n0 (evalStep host ev fuel env e).
Proof. unfold evalStep, evalApply. pres_auto. Qed.

End FramesEvaluator.

Lemma pres_eval n0 fuel env e : pres n0 (eval host fuel env e).
Proof.
  revert env e. induction fuel as [|n IH]; intros env e; cbn [eval].
  - pres_auto.
  - now apply pres_evalStep.
Qed.

Lemma pres_expand n0 fuel :
  (forall e, pres n0 (expand host fuel e))
  /\ (forall e, pres n0 (expandList host fuel e)).
Proof.
  induction fuel as [|n [IH1 IH2]]; split; intros e;
    [cbn [expand]|cbn [expandList]|cbn [expand]|cbn [expandList]];
    unfold mk_cons; pres_auto;
    auto using pres_eval, pres_beginList.
Qed.

Lemma pres_consEach n0 name right : pres n0 (consEach name right).
Proof. induction right; cbn [consEach]; unfold sym, mk_cons; pres_auto. Qed.

Lemma pres_consOnto n0 c right : pres n0 (consOnto c right).
Proof. induction right; cbn [consOnto]; unfold mk_cons; pres_auto. Qed.
#[local] Hint Resolve pres_consEach pres_consOnto : pres.

Lemma pres_consProduct n0 child right : pres n0 (consProduct child right).
Proof. induction child; cbn [consProduct]; pres_auto. Qed.
#[local] Hint Resolve pres_consProduct : pres.

Lemma pres_resolveAt n0 fuel loc right maxDepth :
  pres n0 (resolveAt host fuel loc right maxDepth).
Proof.
  revert loc right maxDepth.
  induction fuel as [|n IH]; intros loc right maxDepth; cbn [resolveAt];
    [pres_auto|].
  unfold resolveStep. pres_auto.
  match goal with |- pres _ (resolveLinks _ _ _ _ _ ?l) => induction l as [|[] l IHl] end;
    cbn [resolveLinks]; unfold sym, str, mk_cons; pres_auto.
Qed.
#[local] Hint Resolve pres_resolveAt : pres.

Lemma pres_resolveAll n0 fuel pos i row maxDepth :
  pres n0 (resolveAll host fuel pos i row maxDepth).
Proof.
  revert i. induction row as [|[] row IH]; intros i; cbn [resolveAll]; pres_auto.
Qed.

Lemma pres_printAll n0 all : pres n0 (printAll host all).
Proof. induction all; cbn [printAll]; pres_auto. Qed.
#[local] Hint Resolve pres_resolveAll pres_printAll : pres.

Lemma pres_evalParsedStatement n0 fuel : pres n0 (evalParsedStatement host fuel).
Proof.
  unfold evalParsedStatement, resolve. pres_auto;
    auto using pres_eval; apply pres_expand.
Qed.

(** Evaluation keeps the arena stable, whatever it performs. *)
Lemma eval_stable fuel env e st :
  stable (pool st) (pool (snd (eval host fuel env e st))).
Proof. apply (pres_eval 0). lia. Qed.

(** C1, as amended: when the evaluation of a statement fails and the
    statement has performed none of [define], [define_macro], [set_syntax],
    [set] and [set_global_env] (its log is as at the start), then the
    global environment, the grammar tables, the macro registry and the
    primitive registry are as at the start, and so is every node the arena
    held at the start, hence everything reachable from them. *)
Theorem failed_statement_restores (fuel : nat) (st st' : State) (env e : ptr)
    (x : Exn) :
  eval host fuel env e st = (Throw x, st') ->
  trace st' = trace st ->
  globalEnv st' = globalEnv st /\ grammar st' = grammar st
  /\ macros st' = macros st /\ nameMacros st' = nameMacros st
  /\ prims st' = prims st /\ namePrims st' = namePrims st
  /\ forall p, (p < length (pool st))%nat -> pool st' !! p = pool st !! p.
Proof.
  intros H HT.
  assert (F := pres_eval (length (pool st)) fuel env e st ltac:(lia)).
  rewrite H in F. cbn [snd] in F.
  destruct F as [(_ & _ & P & N) C]. destruct (C HT) as (G & R & M1 & M2 & Q).
  now repeat split.
Qed.

(** The same for a whole statement: resolution of the parse, macro
    expansion, evaluation in the global environment. *)
Lemma failed_parsed_statement_restores (fuel : nat) (st st' : State) (x : Exn) :
  evalParsedStatement host fuel st = (Throw x, st') ->
  trace st' = trace st ->
  globalEnv st' = globalEnv st /\ grammar st' = grammar st
  /\ macros st' = macros st /\ nameMacros st' = nameMacros st
  /\ prims st' = prims st /\ namePrims st' = namePrims st
  /\ forall p, (p < length (pool st))%nat -> pool st' !! p = pool st !! p.
Proof.
  intros H HT.
  assert (F := pres_evalParsedStatement (length (pool st)) fuel st ltac:(lia)).
  rewrite H in F. cbn [snd] in F.
  destruct F as [(_ & _ & P & N) C]. destruct (C HT) as (G & R & M1 & M2 & Q).
  now repeat split.
Qed.

End Frames.

(** ** [cond] without an else branch *)

Lemma bind_get {B} (f : State -> M B) st : bind get f st = f st st.
Proof. reflexivity. Qed.

Lemma stable_Unit pl pl' p : stable pl pl' -> pl !! p = Some Unit -> pl' !! p = Some Unit.
Proof. intros [_ H] Hp. exact (H p Unit Hp). Qed.

Lemma stable_Nil pl pl' p : stable pl pl' -> pl !! p = Some Nil -> pl' !! p = Some Nil.
Proof. intros [_ H] Hp. exact (H p Nil Hp). Qed.

(** C9: in an application whose head evaluates to the [cond] primitive and
    whose arguments are the two-element list [(test iftrue)], if [test]
    evaluates to [Bool false] then the application evaluates to the [Unit]
    sentinel, in the state the test left.  The arguments are read once
    the head has been evaluated. *)
Theorem cond_without_else (host : Host) (st st1 st2 : State)
    (env e head tail test t2 iftrue u ph pv : ptr) (id n1 n2 : nat) :
  pool st !! unit_ = Some Unit ->
  pool st !! e = Some (Cons head tail) ->
  eval host n1 env head st = (Ret ph, st1) ->
  pool st1 !! ph = Some (Prim id) ->
  prims st1 !! id = Some (false, p_cond) ->
  pool st1 !! tail = Some (Cons test t2) ->
  pool st1 !! t2 = Some (Cons iftrue u) ->
  pool st1 !! u = Some Nil ->
  eval host n2 env test st1 = (Ret pv, st2) ->
  pool st2 !! pv = Some (Bool false) ->
  exists n, forall m, (n <= m)%nat ->
    eval host m env e st = (Ret unit_, st2)
    /\ pool st2 !! unit_ = Some Unit.
Proof.
  intros HU He Hhead Hph Hid Htail Ht2 Hu Htest Hpv.
  assert (HU2 : pool st2 !! unit_ = Some Unit).
  { apply (stable_Unit (pool st1)).
    - generalize (eval_stable host n2 env test st1). now rewrite Htest.
    - apply (stable_Unit (pool st)); [|exact HU].
      generalize (eval_stable host n1 env head st). now rewrite Hhead. }
  exists (S (S (Nat.max n1 n2))). intros m Hm. split; [|exact HU2].
  destruct m as [|[|k]]; try lia.
  assert (Hh : eval host (S k) env head st = (Ret ph, st1))
    by (apply (eval_fuel_more host n1); [exact Hhead|discriminate|lia]).
  assert (Ht : eval host (S k) env test st1 = (Ret pv, st2))
    by (apply (eval_fuel_more host n2); [exact Htest|discriminate|lia]).
  assert (Happ : evalApply host (eval host (S k)) (S k) env e head tail st
                 = (Ret (Continue env unit_), st2)).
  { unfold evalApply.
    rewrite (bind_Ret _ _ _ _ _ Hh).
    rewrite (bind_deref _ _ _ _ Hph).
    rewrite bind_get, Hid.
    rewrite (bind_Ret _ _ st1 tail st1) by reflexivity.
    cbn [applyPrim]. unfold prim_cond.
    rewrite (bind_Ret _ (fun res => match res_env res with
                                    | Some env' => ret (Continue env' (res_e res))
                                    | None => ret (Done (res_e res))
                                    end) st1 (tailcall env unit_) st2);
      [reflexivity|].
    rewrite (bind_Ret _ _ _ _ _ (expectCons_Some host _ _ _ _ Htail)). cbn [fst snd].
    rewrite (bind_Ret _ _ _ _ _ (expectCons_Some host _ _ _ _ Ht2)). cbn [fst snd].
    rewrite (bind_deref _ _ _ _ Hu).
    rewrite (bind_Ret _ _ _ _ _ Ht).
    rewrite (bind_Ret _ _ _ _ _ (expectBool_Some host _ _ _ Hpv)).
    reflexivity. }
  change (eval host (S (S k)) env e st)
    with (evalStep host (eval host (S k)) (S k) env e st).
  unfold evalStep.
  rewrite (bind_deref _ _ _ _ He).
  rewrite (bind_Ret _ _ st (Continue env unit_) st2)
    by (unfold decorate; now rewrite Happ).
  cbn [eval]. unfold evalStep.
  now rewrite (bind_deref _ _ _ _ HU2).
Qed.

(** ** [beginList] on the elements of a list *)

Lemma spine_stable pl pl' : stable pl pl' ->
  forall d p r, spine d pl p = Some r -> spine d pl' p = Some r.
Proof.
  intros [_ HS]. induction d as [|d IH]; intros p r H; [discriminate|].
  cbn [spine] in *.
  destruct (pl !! p) as [t|] eqn:E; [|discriminate].
  specialize (HS p t E).
  destruct t; try (rewrite HS; exact H).
  destruct HS as [h' ->].
  destruct (spine d pl tail) as [[cells term]|] eqn:HS'; [|discriminate].
  now rewrite (IH _ _ HS').
Qed.

Lemma beginList_words_cons host ev env c c' rest term :
  beginList_words host ev env (c :: c' :: rest) term
  = (h <- headOf c ;; ev env h ;; beginList_words host ev env (c' :: rest) term).
Proof. reflexivity. Qed.

Lemma bind_ext_on {A B} (m : M A) (f g : A -> M B) st :
  (forall a st1, m st = (Ret a, st1) -> f a st1 = g a st1) ->
  bind m f st = bind m g st.
Proof.
  intros H. unfold bind. destruct (m st) as [[a|x| | |] st1]; auto.
Qed.

(** C4: on a list whose cells are [cells] and whose last tail is [term],
    [beginList] evaluates the elements before the last in order, dropping
    the values, and returns the last element unevaluated; with no cell it
    returns [Unit]; and it fails, by the [expect<Nil>], when [term] is not
    [Nil].  All of that is [beginList_words]. *)
Theorem beginList_spec (host : Host) (n d : nat) :
  forall (fuel : nat) (st : State) (env e : ptr) (cells : list ptr) (term : ptr),
  spine d (pool st) e = Some (cells, term) ->
  (d <= fuel)%nat ->
  beginList host (eval host n) fuel env e st
  = beginList_words host (eval host n) env cells term st.
Proof.
  induction d as [|d IH]; intros fuel st env e cells term H Hle; [discriminate|].
  destruct fuel as [|fuel]; [lia|].
  cbn [spine] in H. cbn [beginList].
  destruct (pool st !! e) as [t|] eqn:E; [|discriminate].
  rewrite (bind_deref _ _ _ _ E).
  destruct t; try (injection H as <- <-; reflexivity).
  destruct (spine d (pool st) tail) as [[cells' term']|] eqn:HS; [|discriminate].
  injection H as <- <-.
  destruct d as [|d']; [discriminate|].
  assert (S' := HS). cbn [spine] in S'.
  destruct (pool st !! tail) as [u|] eqn:Eu; [|discriminate].
  rewrite (bind_deref _ _ _ _ Eu).
  assert (Hcons : forall a b, u = Cons a b ->
            (eval host n env head;; beginList host (eval host n) fuel env tail) st
            = beginList_words host (eval host n) env (e :: cells') term' st).
  { intros a b ->.
    destruct (spine d' (pool st) b) as [[c2 t2]|]; [|discriminate].
    injection S' as <- <-.
    rewrite beginList_words_cons.
    rewrite (bind_Ret _ _ _ _ _ (headOf_Some _ _ _ _ E)).
    apply bind_ext_on. intros v st1 Hv.
    apply (IH fuel st1 env tail); [|lia].
    apply (spine_stable (pool st)); [|exact HS].
    generalize (eval_stable host n env head st). now rewrite Hv. }
  assert (Hend : (forall a b, u <> Cons a b) ->
            (expectNil host tail;; ret head) st
            = beginList_words host (eval host n) env (e :: cells') term' st).
  { intros Hu.
    assert (cells' = [] /\ term' = tail) as [-> ->]
      by (destruct u; try (now injection S' as <- <-); now destruct (Hu head0 tail0)).
    cbn [beginList_words].
    apply bind_ext_on. intros [] st1 H1.
    apply (readonly_Ret_inv _ _ _ _ (readonly_expectNil host _)) in H1 as ->.
    now rewrite (headOf_Some _ _ _ _ E). }
  destruct u; try (apply Hend; discriminate).
  now apply (Hcons head0 tail0).
Qed.

(** ** Quasi-quotation of a tree without [unquote] *)

Lemma quasiquote_noUnquote host ev d :
  forall fuel st env t,
  noUnquote d (pool st) t = true -> (d <= fuel)%nat ->
  quasiquote host ev fuel env t st = (Ret t, st).
Proof.
  induction d as [|d IH]; intros fuel st env t H Hle; [discriminate|].
  destruct fuel as [|fuel]; [lia|].
  cbn [noUnquote] in H. cbn [quasiquote].
  destruct (pool st !! t) as [x|] eqn:E; [|discriminate].
  rewrite (bind_deref _ _ _ _ E).
  destruct x; try reflexivity.
  destruct (pool st !! head) as [y|] eqn:Eh; [|discriminate].
  rewrite (bind_deref _ _ _ _ Eh).
  assert (Hun : match y with Symbol s => String.eqb s "unquote" | _ => false end
                = false /\ noUnquote d (pool st) head = true
                /\ noUnquote d (pool st) tail = true).
  { destruct y; try (apply andb_prop in H as [H1 H2]; now auto).
    apply andb_prop in H as [H H2]. apply andb_prop in H as [H0 H1].
    apply negb_true_iff in H0. auto. }
  destruct Hun as (-> & Hh & Ht).
  rewrite (bind_Ret _ _ _ _ _ (IH fuel st env head Hh ltac:(lia))).
  rewrite (bind_Ret _ _ _ _ _ (IH fuel st env tail Ht ltac:(lia))).
  rewrite (bind_Ret _ _ _ _ _ (headOf_Some _ _ _ _ E)).
  now rewrite !Nat.eqb_refl.
Qed.

(** C3, as amended: on a tree [t] without [unquote] forms [quasiquote]
    returns [t] itself and changes nothing, so evaluating the result is
    evaluating [t]; the round trip gives back [t] when [t] is
    self-evaluating, that is neither a symbol nor a cons. *)
Theorem quasiquote_round_trip (host : Host) (n d fuel : nat) (st : State)
    (env t : ptr) (x : Tree) :
  noUnquote d (pool st) t = true ->
  (d <= fuel)%nat ->
  pool st !! t = Some x ->
  let roundTrip :=
    q <- quasiquote host (eval host n) fuel env t ;; eval host (S n) env q in
  roundTrip st = eval host (S n) env t st
  /\ (selfEvaluating x = true -> roundTrip st = (Ret t, st)).
Proof.
  intros H Hle Ht roundTrip. subst roundTrip.
  rewrite (bind_Ret _ _ _ _ _ (quasiquote_noUnquote host _ d fuel st env t H Hle)).
  split; [reflexivity|].
  intros Hx. cbn [eval]. unfold evalStep.
  rewrite (bind_deref _ _ _ _ Ht).
  destruct x; try discriminate; reflexivity.
Qed.

(** ** The result policy of [resolve] *)



(** * The scenarios of the specification, run on the model *)

Example scenario_add :
  evaluate 10 (listM [sym "add"; mk_nat 2; mk_nat 3]) = Ret (Some (DNat64 5)).
Proof. vm_compute. reflexivity. Qed.

Example scenario_let :
  evaluate 10
    (listM [sym "let";
            listM [listM [sym "x"; mk_nat 10]; listM [sym "y"; mk_nat 20]];
            listM [sym "mul"; sym "x"; sym "y"]])
  = Ret (Some (DNat64 200)).
Proof. vm_compute. reflexivity. Qed.

Example scenario_letrec :
  evaluate 40
    (listM [sym "letrec";
            listM [listM [sym "f";
              listM [sym "lambda"; listM [sym "n"];
                listM [sym "cond"; listM [sym "eq"; sym "n"; mk_nat 0];
                       mk_nat 1;
                       listM [sym "mul"; sym "n";
                              listM [sym "f";
                                     listM [sym "sub"; sym "n"; mk_nat 1]]]]]]];
            listM [sym "f"; mk_nat 5]])
  = Ret (Some (DNat64 120)).
Proof. vm_compute. reflexivity. Qed.

Example scenario_quasiquote :
  evaluate 10
    (listM [sym "quote";
            listM [sym "a";
                   listM [sym "unquote"; listM [sym "add"; mk_nat 1; mk_nat 2]];
                   sym "c"]])
  = Ret (Some (DList [DSymbol "a"; DNat64 3; DSymbol "c"])).
Proof. vm_compute. reflexivity. Qed.

Example scenario_match :
  evaluate 10
    (listM [sym "match";
            listM [sym "cons"; mk_nat 1;
                   listM [sym "cons"; mk_nat 2; listM [sym "nil"]]];
            listM [listM [(x <- sym "x" ;; r <- sym "rest" ;; mk_cons x r);
                          sym "x"]]])
  = Ret (Some (DNat64 1)).
Proof. vm_compute. reflexivity. Qed.

(** [(define_macro swap (lambda (a b) (list (string_symbol "list") b a)))]
    and then [(swap 1 2)], expanded and evaluated. *)
Example scenario_macro :
  match (d <- listM [sym "define_macro"; sym "swap";
                     listM [sym "lambda"; listM [sym "a"; sym "b"];
                            listM [sym "list";
                                   listM [sym "string_symbol"; str "list"];
                                   sym "b"; sym "a"]]] ;;
         eval sampleHost 10 nil_ d ;;
         u <- listM [sym "swap"; mk_nat 1; mk_nat 2] ;;
         x <- expand sampleHost 10 u ;;
         eval sampleHost 10 nil_ x) initialState with
  | (Ret v, st) => readback 5 (pool st) v
  | _ => None
  end = Some (DList [DNat64 2; DNat64 1]).
Proof. vm_compute. reflexivity. Qed.

Example scenario_unbound_in_lambda :
  evaluate 10
    (listM [listM [sym "lambda"; listM [sym "x"]; sym "y"]; mk_nat 1])
  = Throw (PartialEvalError ("unbound symbol " ++ dquote ++ "y" ++ dquote)%string
             584).
Proof. vm_compute. reflexivity. Qed.

(** The sentence [x], parsed: resolved to [(id' (symbol' "x"))], expanded
    to the symbol [x], which is unbound. *)
Example scenario_statement :
  fst (resolve sampleHost 5 8 parsedState) = Ret 587%nat
  /\ readback 5 (pool (snd (resolve sampleHost 5 8 parsedState))) 587
     = Some (DList [DSymbol "id'"; DList [DSymbol "symbol'"; DString "x"]])
  /\ fst (evalParsedStatement sampleHost 20 parsedState)
     = Throw (PartialEvalError ("unbound symbol " ++ dquote ++ "x" ++ dquote)%string
                594).
Proof. repeat split; vm_compute; reflexivity. Qed.

(** Two parses: both are printed and resolution fails. *)
Example scenario_ambiguous :
  fst (resolve sampleHost 5 8 ambiguousState) = Throw NotImplemented
  /\ stdout (snd (resolve sampleHost 5 8 ambiguousState)) = ["<tree>"; "<tree>"]
  /\ stdout ambiguousState = [].
Proof. repeat split; vm_compute; reflexivity. Qed.

(** [set] assigns the binding that the body then reads: the entry is
    shared, not copied. *)
Example scenario_set :
  evaluate 10
    (listM [sym "let"; listM [listM [sym "x"; mk_nat 1]];
            listM [sym "set"; sym "x"; mk_nat 2];
            sym "x"])
  = Ret (Some (DNat64 2)).
Proof. vm_compute. reflexivity. Qed.

(** A closure sees a later [set] of a variable it captured. *)
Example scenario_set_captured :
  evaluate 20
    (listM [sym "let";
            listM [listM [sym "x"; mk_nat 1];
                   listM [sym "f"; listM [sym "lambda"; listM []; sym "x"]]];
            listM [sym "set"; sym "x"; mk_nat 7];
            listM [sym "f"]])
  = Ret (Some (DNat64 7)).
Proof. vm_compute. reflexivity. Qed.

(** * The properties at concrete inputs *)

(** ** C1 *)

(** A statement that defines a macro and then fails: it performs none of
    [define], [set_syntax], [set], [set_global_env], and yet the macro
    registry is not as it was. *)
Lemma define_macro_persists :
  (exists x, fst (eval sampleHost 10 nil_ 597 macroThenFailState) = Throw x)
  /\ trace macroThenFailState = []
  /\ trace (snd (eval sampleHost 10 nil_ 597 macroThenFailState))
     = [did_define_macro]
  /\ macros (snd (eval sampleHost 10 nil_ 597 macroThenFailState))
     <> macros macroThenFailState.
Proof.
  split; [eexists; vm_compute; reflexivity|].
  split; [vm_compute; reflexivity|].
  split; [vm_compute; reflexivity|].
  intros H. apply (f_equal (@length _)) in H. vm_compute in H. discriminate.
Qed.

Lemma failed_statement_restores_witness :
  eval sampleHost 10 nil_ 584 unboundCallState
  = (Throw (EvalError ("unbound symbol " ++ dquote ++ "undefined_symbol" ++ dquote)%string
              581 584), unboundCallFailed)
  /\ trace unboundCallFailed = trace unboundCallState
  /\ (globalEnv unboundCallFailed = globalEnv unboundCallState
      /\ grammar unboundCallFailed = grammar unboundCallState
      /\ macros unboundCallFailed = macros unboundCallState
      /\ nameMacros unboundCallFailed = nameMacros unboundCallState
      /\ prims unboundCallFailed = prims unboundCallState
      /\ namePrims unboundCallFailed = namePrims unboundCallState
      /\ forall p, (p < length (pool unboundCallState))%nat ->
           pool unboundCallFailed !! p = pool unboundCallState !! p).
Proof.
  split; [vm_compute; reflexivity|].
  split; [vm_compute; reflexivity|].
  exact (failed_statement_restores sampleHost 10 unboundCallState
           unboundCallFailed nil_ 584
           (EvalError ("unbound symbol " ++ dquote ++ "undefined_symbol" ++ dquote)%string
              581 584)
           ltac:(vm_compute; reflexivity) ltac:(vm_compute; reflexivity)).
Defined.

(** ** C2 *)



(** ** C3 *)

(** [(add 1 2)] has no [unquote], and its round trip is [3], which is not
    the tree itself. *)
Lemma quasiquote_round_trip_fails :
  noUnquote 4 (pool sumState) 586 = true
  /\ fst ((q <- quasiquote sampleHost (eval sampleHost 5) 4 nil_ 586 ;;
           eval sampleHost 6 nil_ q) sumState) = Ret 588%nat
  /\ pool (snd ((q <- quasiquote sampleHost (eval sampleHost 5) 4 nil_ 586 ;;
                 eval sampleHost 6 nil_ q) sumState)) !! 588%nat
     = Some (Nat64 3)
  /\ fst (tree_eq 10 588 586
            (snd ((q <- quasiquote sampleHost (eval sampleHost 5) 4 nil_ 586 ;;
                   eval sampleHost 6 nil_ q) sumState))) = Ret false.
Proof. repeat split; vm_compute; reflexivity. Qed.

Lemma quasiquote_round_trip_witness :
  noUnquote 1 (pool sumState) 583 = true
  /\ pool sumState !! 583%nat = Some (Nat64 2)
  /\ (let roundTrip :=
        q <- quasiquote sampleHost (eval sampleHost 5) 4 nil_ 583 ;;
        eval sampleHost (S 5) nil_ q in
      roundTrip sumState = eval sampleHost (S 5) nil_ 583 sumState
      /\ (selfEvaluating (Nat64 2) = true ->
          roundTrip sumState = (Ret 583%nat, sumState))).
Proof.
  split; [vm_compute; reflexivity|].
  split; [vm_compute; reflexivity|].
  exact (quasiquote_round_trip sampleHost 5 1 4 sumState nil_ 583 (Nat64 2)
           ltac:(vm_compute; reflexivity) ltac:(lia)
           ltac:(vm_compute; reflexivity)).
Defined.

(** ** C4 *)

Lemma beginList_spec_witness :
  spine 3 (pool beginBodyState) 587 = Some ([587; 586]%nat, 0%nat)
  /\ beginList sampleHost (eval sampleHost 5) 4 nil_ 587 beginBodyState
     = beginList_words sampleHost (eval sampleHost 5) nil_ [587; 586]%nat 0%nat
         beginBodyState.
Proof.
  split; [vm_compute; reflexivity|].
  exact (beginList_spec sampleHost 5 3 4 beginBodyState nil_ 587
           [587; 586]%nat 0%nat
           ltac:(vm_compute; reflexivity) ltac:(lia)).
Defined.

(** ** C5 *)


(** ** C6 *)

Lemma match_quote_unquote_witness :
  pool quotePatternState !! 587%nat = Some (Cons 581 586)
  /\ match_ sampleHost (S (S 3)) btrue 587 nil_ false quotePatternState
     = match_ sampleHost 3 btrue 583 nil_ false quotePatternState.
Proof.
  split; [vm_compute; reflexivity|].
  exact (match_quote_unquote sampleHost 3 quotePatternState btrue nil_
           587 581 586 585 0 582 584 583 0
           ltac:(vm_compute; reflexivity) ltac:(vm_compute; reflexivity)
           ltac:(vm_compute; reflexivity) ltac:(vm_compute; reflexivity)
           ltac:(vm_compute; reflexivity) ltac:(vm_compute; reflexivity)).
Defined.

(** ** C7 *)

(** Bound to the [Unit] placeholder, the symbol is reported unbound. *)
Lemma lookup_extend_unit :
  pool initialState !! unit_ = Some Unit
  /\ fst (extend nil_ "x" unit_ initialState) = Ret 584%nat
  /\ fst (lookup 3 584 "x" (snd (extend nil_ "x" unit_ initialState)))
     = Ret None
  /\ fst (lookup 3 584 "x" (snd (extend nil_ "x" unit_ initialState)))
     <> Ret (Some unit_).
Proof.
  split; [vm_compute; reflexivity|].
  split; [vm_compute; reflexivity|].
  split; [vm_compute; reflexivity|].
  vm_compute. discriminate.
Qed.

Lemma lookup_extend_witness :
  pool initialState !! btrue = Some (Bool true)
  /\ (let st' := snd (extend nil_ "x" btrue initialState) in
      let st'' := snd (extend nil_ "y" btrue initialState) in
      (exists env', fst (extend nil_ "x" btrue initialState) = Ret env' /\
         lookup (S 2) env' "x" st' =
           (Ret (match Bool true with Unit => None | _ => Some btrue end), st')) /\
      ("x" <> "y" ->
       exists env', fst (extend nil_ "y" btrue initialState) = Ret env' /\
         lookup (S 2) env' "x" st'' = lookup 2 nil_ "x" st'')).
Proof.
  split; [vm_compute; reflexivity|].
  exact (lookup_extend 2 initialState nil_ "x" "y" btrue (Bool true)
           ltac:(vm_compute; reflexivity)).
Defined.

(** ** C8 *)

Lemma div_mod_unguarded_witness :
  pool sevenTwoState !! 584%nat = Some (Cons 581 583)
  /\ ((2 <> 0 ->
       prim_div sampleHost nil_ 584 sevenTwoState
       = (Ret (value (length (pool sevenTwoState))),
          set_pool (pool sevenTwoState ++ [Nat64 (7 / 2)]) sevenTwoState)
       /\ prim_mod sampleHost nil_ 584 sevenTwoState
       = (Ret (value (length (pool sevenTwoState))),
          set_pool (pool sevenTwoState ++ [Nat64 (7 mod 2)]) sevenTwoState))
      /\ (2 = 0 ->
          prim_div sampleHost nil_ 584 sevenTwoState = (Undefined, sevenTwoState)
          /\ prim_mod sampleHost nil_ 584 sevenTwoState
             = (Undefined, sevenTwoState))).
Proof.
  split; [vm_compute; reflexivity|].
  exact (div_mod_unguarded sampleHost sevenTwoState nil_ 584 581 583 582 0 7 2
           ltac:(vm_compute; reflexivity) ltac:(vm_compute; reflexivity)
           ltac:(vm_compute; reflexivity) ltac:(vm_compute; reflexivity)).
Defined.

(** ** C9 *)

Lemma cond_without_else_witness :
  eval sampleHost 5 nil_ 581 condState = (Ret 592%nat, condHeadState)
  /\ eval sampleHost 5 nil_ 587 condHeadState = (Ret bfalse, condTestState)
  /\ pool condTestState !! bfalse = Some (Bool false)
  /\ exists n, forall m, (n <= m)%nat ->
       eval sampleHost m nil_ 591 condState = (Ret unit_, condTestState)
       /\ pool condTestState !! unit_ = Some Unit.
Proof.
  split; [vm_compute; reflexivity|].
  split; [vm_compute; reflexivity|].
  split; [vm_compute; reflexivity|].
  exact (cond_without_else sampleHost condState condHeadState condTestState
           nil_ 591 581 590 587 589 588 0 592 bfalse 1 5 5
           ltac:(vm_compute; reflexivity) ltac:(vm_compute; reflexivity)
           ltac:(vm_compute; reflexivity) ltac:(vm_compute; reflexivity)
           ltac:(vm_compute; reflexivity) ltac:(vm_compute; reflexivity)
           ltac:(vm_compute; reflexivity) ltac:(vm_compute; reflexivity)
           ltac:(vm_compute; reflexivity) ltac:(vm_compute; reflexivity)).
Defined.

(** ** C10 *)

Lemma minus_wraps_witness :
  pool justFiveState !! 582%nat = Some (Cons 581 0)
  /\ pool justFiveState !! 581%nat = Some (Nat64 5)
  /\ (prim_minus sampleHost nil_ 582 justFiveState
      = (Ret (value (length (pool justFiveState))),
         set_pool (pool justFiveState ++ [Nat64 ((2 ^ 64 - 5) mod 2 ^ 64)])
                  justFiveState)
      /\ (5 = 0 -> (2 ^ 64 - 5) mod 2 ^ 64 = 0)).
Proof.
  split; [vm_compute; reflexivity|].
  split; [vm_compute; reflexivity|].
  exact (minus_wraps sampleHost justFiveState nil_ 582 581 0 5
           ltac:(vm_compute; reflexivity) ltac:(vm_compute; reflexivity)).
Defined.

(** * Further properties of the code *)

(** ** What evaluation never does to the arena and the primitives *)

(** X1: whatever an evaluation performs and however it ends, the arena
    only grows, every node keeps its variant, every cons keeps its tail
    (only heads are assigned, by [set] and [letrec]), and the primitive
    registry is the same. *)
Theorem evaluation_keeps_shape (host : Host) (fuel : nat) (env e : ptr)
    (st : State) :
  let st' := snd (eval host fuel env e st) in
  (length (pool st) <= length (pool st'))%nat
  /\ (forall p t, pool st !! p = Some t ->
        match t with
        | Cons _ tl => exists h', pool st' !! p = Some (Cons h' tl)
        | _ => pool st' !! p = Some t
        end)
  /\ prims st' = prims st /\ namePrims st' = namePrims st.
Proof.
  intros st'. subst st'.
  destruct (pres_eval host 0 fuel env e st ltac:(lia)) as [([L H] & _ & P & N) _].
  auto.
Qed.

(** ** [set], [extend] and [lookup] together *)

Lemma noted_assign_not_false cell val st st' :
  (note did_set ;; assignHead cell val ;; ret true) st <> (Ret false, st').
Proof.
  intros H. cbv [bind note modify assignHead deref abort ret] in H.
  cbn [pool set_trace] in H.
  destruct (pool st !! cell) as [[]|]; discriminate.
Qed.

(** X2: when the search of [set] finds no binding for the symbol (the
    primitive then fails with "unbound symbol"), it has changed nothing,
    and [lookup] finds no binding in that environment either. *)
Theorem set_unbound_lookup_unbound (fuel : nat) :
  forall (it : ptr) (s : string) (val : ptr) (st st' : State),
  setLoop fuel it s val st = (Ret false, st') ->
  st' = st /\ lookup fuel it s st = (Ret None, st).
Proof.
  induction fuel as [|fuel IH]; intros it s val st st' H; [discriminate|].
  cbn [setLoop] in H. cbn [lookup].
  apply bind_Ret_inv in H as (t & st1 & Ht & H).
  apply deref_Ret_inv in Ht as [-> Ht]. rewrite (bind_deref _ _ _ _ Ht).
  destruct t; try (injection H as <-; auto).
  apply bind_Ret_inv in H as (c & st1 & Hc & H).
  apply deref_Ret_inv in Hc as [-> Hc]. rewrite (bind_deref _ _ _ _ Hc).
  destruct c; try (now apply IH in H).
  apply bind_Ret_inv in H as (u & st1 & Hu & H).
  apply deref_Ret_inv in Hu as [-> Hu]. rewrite (bind_deref _ _ _ _ Hu).
  destruct u; try discriminate.
  apply bind_Ret_inv in H as (l & st1 & Hl & H).
  apply deref_Ret_inv in Hl as [-> Hl]. rewrite (bind_deref _ _ _ _ Hl).
  destruct l; try (now apply IH in H).
  destruct (String.eqb val0 s); [|now apply IH in H].
  now apply noted_assign_not_false in H.
Qed.

Lemma insert_frame_1 (l : list Tree) a b c d y :
  <[(length l + 1)%nat := y]> (l ++ [a; b; c; d]) = l ++ [a; y; c; d].
Proof.
  rewrite insert_app_r_alt by lia.
  now replace (length l + 1 - length l)%nat with 1%nat by lia.
Qed.

(** X3: on an environment just extended with a binding for [s], the search
    of [set] finds that binding, records the assignment and overwrites the
    value cell in place: a later [lookup] of [s] through the same
    environment pointer gives the assigned value (or "unbound" when that
    value is the [Unit] placeholder). *)
Theorem set_after_extend (fuel : nat) (st : State) (env : ptr) (s : string)
    (v val : ptr) (tval : Tree) :
  pool st !! val = Some tval ->
  let st1 := snd (extend env s v st) in
  let env' := (length (pool st) + 3)%nat in
  exists st2,
    setLoop (S fuel) env' s val st1 = (Ret true, st2)
    /\ trace st2 = did_set :: trace st
    /\ lookup (S fuel) env' s st2
       = (Ret (match tval with Unit => None | _ => Some val end), st2).
Proof.
  intros Hval st1 env'. subst st1 env'. rewrite extend_eq. cbn [snd].
  exists (set_pool (pool st ++ [Symbol s; Cons val nil_;
                                 Cons (length (pool st)) (length (pool st) + 1)%nat;
                                 Cons (length (pool st) + 2)%nat env])
                   (set_trace (did_set :: trace st) st)).
  split; [|split].
  - cbn [setLoop].
    step_deref ltac:(apply lookup_frame_3).
    step_deref ltac:(apply lookup_frame_2).
    step_deref ltac:(apply lookup_frame_1).
    step_deref ltac:(apply lookup_frame_0).
    rewrite String.eqb_refl.
    cbv [bind note modify assignHead deref ret]. cbn [pool set_pool set_trace].
    rewrite lookup_frame_1. cbn [pool set_pool set_trace trace].
    rewrite insert_frame_1. reflexivity.
  - reflexivity.
  - cbn [lookup].
    step_deref ltac:(apply lookup_frame_3).
    step_deref ltac:(apply lookup_frame_2).
    step_deref ltac:(apply lookup_frame_1).
    step_deref ltac:(apply lookup_frame_0).
    rewrite String.eqb_refl.
    step_deref ltac:(apply lookup_app_l_Some, Hval).
    now destruct tval.
Qed.

(** ** Destructuring by [match] *)

Lemma lookup_entry_hit fuel st env entry next k c v z s tv :
  pool st !! env = Some (Cons entry next) ->
  pool st !! entry = Some (Cons k c) ->
  pool st !! c = Some (Cons v z) ->
  pool st !! k = Some (Symbol s) ->
  pool st !! v = Some tv ->
  lookup (S fuel) env s st
  = (Ret (match tv with Unit => None | _ => Some v end), st).
Proof.
  intros H1 H2 H3 H4 H5. cbn [lookup].
  rewrite (bind_deref _ _ _ _ H1), (bind_deref _ _ _ _ H2),
    (bind_deref _ _ _ _ H3), (bind_deref _ _ _ _ H4).
  rewrite String.eqb_refl, (bind_deref _ _ _ _ H5). now destruct tv.
Qed.

Lemma lookup_entry_miss fuel st env entry next k c v z s s' :
  pool st !! env = Some (Cons entry next) ->
  pool st !! entry = Some (Cons k c) ->
  pool st !! c = Some (Cons v z) ->
  pool st !! k = Some (Symbol s') ->
  s' <> s ->
  lookup (S fuel) env s st = lookup fuel next s st.
Proof.
  intros H1 H2 H3 H4 Hne. cbn [lookup].
  rewrite (bind_deref _ _ _ _ H1), (bind_deref _ _ _ _ H2),
    (bind_deref _ _ _ _ H3), (bind_deref _ _ _ _ H4).
  now destruct (String.eqb_spec s' s).
Qed.

Lemma match_variable host fuel st e pat env s :
  pool st !! pat = Some (Symbol s) -> s <> "_" ->
  match_ host (S fuel) e pat env false st
  = (Ret (true, (length (pool st) + 3)%nat), snd (extend env s e st)).
Proof.
  intros Hp Hs. apply String.eqb_neq in Hs. cbn [match_].
  rewrite (bind_deref _ _ _ _ Hp), Hs. unfold bind. now rewrite extend_eq.
Qed.

(** X4: a pattern [(x . r)] of two distinct variables, matched in normal
    mode against a cons [(a . b)], succeeds and binds [x] to the head and
    [r] to the tail: looking either up in the environment [match] returns
    gives that part (or "unbound" when the part is the [Unit]
    placeholder). *)
Theorem match_pair_binds (host : Host) (fuel : nat) (st : State)
    (e pat env px pr a b : ptr) (x r : string) (ta tb : Tree) :
  pool st !! pat = Some (Cons px pr) ->
  pool st !! px = Some (Symbol x) ->
  pool st !! pr = Some (Symbol r) ->
  pool st !! e = Some (Cons a b) ->
  pool st !! a = Some ta ->
  pool st !! b = Some tb ->
  x <> "_" -> x <> "quote" -> x <> "..." -> r <> "_" -> x <> r ->
  exists env' st',
    match_ host (S (S fuel)) e pat env false st = (Ret (true, env'), st')
    /\ lookup (S (S fuel)) env' x st'
       = (Ret (match ta with Unit => None | _ => Some a end), st')
    /\ lookup (S (S fuel)) env' r st'
       = (Ret (match tb with Unit => None | _ => Some b end), st').
Proof.
  intros Hpat Hpx Hpr He Ha Hb Hx1 Hx2 Hx3 Hr1 Hxr.
  apply String.eqb_neq in Hx1, Hx2, Hx3, Hr1.
  set (st1 := snd (extend env x a st)).
  set (env1 := (length (pool st) + 3)%nat).
  set (st2 := snd (extend env1 r b st1)).
  set (env2 := (length (pool st1) + 3)%nat).
  assert (P1 : pool st1 = pool st ++ [Symbol x; Cons a nil_;
                 Cons (length (pool st)) (length (pool st) + 1)%nat;
                 Cons (length (pool st) + 2)%nat env])
    by (subst st1; now rewrite extend_eq).
  assert (P2 : pool st2 = pool st1 ++ [Symbol r; Cons b nil_;
                 Cons (length (pool st1)) (length (pool st1) + 1)%nat;
                 Cons (length (pool st1) + 2)%nat env1])
    by (subst st2; now rewrite extend_eq).
  exists env2, st2. split; [|split].
  - change (match_ host (S (S fuel)) e pat env false st)
      with ((p <- deref pat ;;
             match p, false with
             | Symbol s, false =>
               if String.eqb s "_" then ret (true, env)
               else env' <- extend env s e ;; ret (true, env')
             | Cons h t, _ =>
               hh <- deref h ;;
               let structural :=
                 x <- deref e ;;
                 match x with
                 | Cons eh et =>
                   r <- match_ host (S fuel) eh h env false ;;
                   if fst r then match_ host (S fuel) et t (snd r) false
                   else ret (false, snd r)
                 | _ => ret (false, env)
                 end in
               match hh with
               | Symbol s =>
                 if String.eqb s "quote" && negb false then
                   q <- expectHead host t ;; match_ host (S fuel) e q env true
                 else if String.eqb s "unquote" && false then
                   q <- expectHead host t ;; match_ host (S fuel) e q env false
                 else if String.eqb s "..." then
                   x <- deref e ;;
                   match x with
                   | Nil | Cons _ _ => ret (true, env)
                   | _ => ret (false, env)
                   end
                 else structural
               | _ => structural
               end
             | _, _ => b <- tree_eq (S fuel) e pat ;; ret (b, env)
             end) st).
    rewrite (bind_deref _ _ _ _ Hpat), (bind_deref _ _ _ _ Hpx).
    cbv zeta. rewrite Hx2, Hx3, andb_false_r. cbn [andb negb].
    rewrite (bind_deref _ _ _ _ He).
    rewrite (bind_Ret _ _ _ _ _ (match_variable host fuel st a px env x Hpx
                                   ltac:(now apply String.eqb_neq))).
    cbn [fst snd]. fold st1 env1.
    rewrite (match_variable host fuel st1 b pr env1 r);
      [reflexivity| |now apply String.eqb_neq].
    rewrite P1. apply lookup_app_l_Some, Hpr.
  - rewrite (lookup_entry_miss (S fuel) st2 env2
               (length (pool st1) + 2)%nat env1 (length (pool st1))
               (length (pool st1) + 1)%nat b nil_ x r);
      try (rewrite P2; first [apply lookup_frame_3 | apply lookup_frame_2
                             | apply lookup_frame_1 | apply lookup_frame_0]);
      [|congruence].
    apply (lookup_entry_hit fuel st2 env1 (length (pool st) + 2)%nat env
             (length (pool st)) (length (pool st) + 1)%nat a nil_ x ta);
      rewrite P2; apply lookup_app_l_Some; rewrite P1;
      first [apply lookup_frame_3 | apply lookup_frame_2
            | apply lookup_frame_1 | apply lookup_frame_0
            | apply lookup_app_l_Some, Ha].
  - apply (lookup_entry_hit (S fuel) st2 env2 (length (pool st1) + 2)%nat env1
             (length (pool st1)) (length (pool st1) + 1)%nat b nil_ r tb);
      rewrite P2;
      first [apply lookup_frame_3 | apply lookup_frame_2
            | apply lookup_frame_1 | apply lookup_frame_0
            | apply lookup_app_l_Some; rewrite P1; apply lookup_app_l_Some, Hb].
Qed.

(** ** Structural sharing: nothing changes, nothing is allocated *)

Lemma eval_selfEvaluating host n env p x st :
  pool st !! p = Some x -> selfEvaluating x = true ->
  eval host (S n) env p st = (Ret p, st).
Proof.
  intros Hp Hx. cbn [eval]. unfold evalStep. rewrite (bind_deref _ _ _ _ Hp).
  destruct x; try discriminate; reflexivity.
Qed.

(** X5: on a list whose elements are all self-evaluating (neither symbol
    nor cons), [evalList] returns the very list it was given and neither
    allocates nor changes anything. *)
Theorem evalList_identity (host : Host) (n d : nat) :
  forall (fuel : nat) (st : State) (env e : ptr),
  selfList d (pool st) e = true ->
  (d <= fuel)%nat ->
  evalList (eval host (S n)) fuel env e st = (Ret e, st).
Proof.
  induction d as [|d IH]; intros fuel st env e H Hle; [discriminate|].
  destruct fuel as [|fuel]; [lia|].
  cbn [selfList] in H. cbn [evalList].
  destruct (pool st !! e) as [x|] eqn:E; [|discriminate].
  rewrite (bind_deref _ _ _ _ E).
  destruct x; try discriminate; try reflexivity;
    try (now apply (eval_selfEvaluating host n env e _ st E)).
  destruct (pool st !! head) as [y|] eqn:Eh; [|discriminate].
  apply andb_prop in H as [Hy Ht].
  rewrite (bind_Ret _ _ _ _ _ (eval_selfEvaluating host n env head y st Eh Hy)).
  rewrite (bind_Ret _ _ _ _ _ (IH fuel st env tail Ht ltac:(lia))).
  rewrite (bind_Ret _ _ _ _ _ (headOf_Some _ _ _ _ E)).
  now rewrite !Nat.eqb_refl.
Qed.

Lemma decorate_Ret {A} e (m : M A) st a st' :
  m st = (Ret a, st') -> decorate e m st = (Ret a, st').
Proof. intros H. unfold decorate. now rewrite H. Qed.

Lemma expand_identity_both (host : Host) (d : nat) :
  forall (fuel : nat) (st : State),
  (d <= fuel)%nat ->
  (forall e, noMacroCall d (nameMacros st) (pool st) e = true ->
     expand host fuel e st = (Ret e, st))
  /\ (forall e, noMacroCalls d (nameMacros st) (pool st) e = true ->
     expandList host fuel e st = (Ret e, st)).
Proof.
  induction d as [|d IH]; intros fuel st Hle; [split; discriminate|].
  destruct fuel as [|fuel]; [lia|].
  destruct (IH fuel st ltac:(lia)) as [IH1 IH2].
  split; intros e H.
  - cbn [noMacroCall] in H. cbn [expand].
    destruct (pool st !! e) as [x|] eqn:E; [|discriminate].
    rewrite (bind_deref _ _ _ _ E).
    destruct x; try reflexivity.
    apply andb_prop in H as [Hl Hh].
    rewrite (bind_Ret _ _ _ _ _ (decorate_Ret e _ _ _ _ (IH2 e Hl))).
    apply decorate_Ret.
    rewrite (bind_deref _ _ _ _ E).
    destruct (pool st !! head) as [y|] eqn:Eh; [|discriminate].
    rewrite (bind_deref _ _ _ _ Eh), bind_get.
    destruct y; try reflexivity.
    now destruct (nameMacros st !! val).
  - cbn [noMacroCalls] in H. cbn [expandList].
    destruct (pool st !! e) as [x|] eqn:E; [|discriminate].
    rewrite (bind_deref _ _ _ _ E).
    destruct x; try reflexivity; try (now apply IH1).
    apply andb_prop in H as [Hh Ht].
    rewrite (bind_Ret _ _ _ _ _ (IH1 head Hh)).
    rewrite (bind_Ret _ _ _ _ _ (IH2 tail Ht)).
    rewrite (bind_Ret _ _ _ _ _ (headOf_Some _ _ _ _ E)).
    now rewrite !Nat.eqb_refl.
Qed.

(** X6: a tree in which no list has a macro name as its head expands to
    itself: [expand] returns the pointer it was given, allocates nothing
    and runs no macro. *)
Theorem expand_identity (host : Host) (d fuel : nat) (st : State) (e : ptr) :
  noMacroCall d (nameMacros st) (pool st) e = true ->
  (d <= fuel)%nat ->
  expand host fuel e st = (Ret e, st).
Proof. intros H Hle. now apply (expand_identity_both host d fuel st Hle). Qed.

(** ** String primitives at their bounds *)

Lemma append_cons (c : ascii) (a b : string) :
  (String.String c a ++ b)%string = String.String c (a ++ b)%string.
Proof. reflexivity. Qed.

Lemma append_empty (a : string) : (EmptyString ++ a)%string = a.
Proof. reflexivity. Qed.

Lemma substring_split (s : string) : forall n m,
  exists pre post,
    s = (pre ++ substring n m s ++ post)%string
    /\ String.length pre = Nat.min n (String.length s)
    /\ String.length (substring n m s) = Nat.min m (String.length s - n).
Proof.
  induction s as [|c s IH]; intros n m.
  - exists EmptyString, EmptyString. destruct n, m; repeat split.
  - destruct n as [|n].
    + destruct m as [|m].
      * exists EmptyString, (String.String c s). repeat split.
      * destruct (IH 0%nat m) as (pre & post & E & Lp & Ls).
        destruct pre; [|discriminate]. rewrite append_empty in E.
        exists EmptyString, post.
        change (substring 0 (S m) (String.String c s))
          with (String.String c (substring 0 m s)).
        rewrite append_empty, append_cons, <- E.
        change (String.length (String.String c ?x)) with (S (String.length x)).
        split; [reflexivity|]. split; [reflexivity|].
        cbn [String.length]. rewrite Ls. lia.
    + destruct (IH n m) as (pre & post & E & Lp & Ls).
      exists (String.String c pre), post.
      change (substring (S n) m (String.String c s)) with (substring n m s).
      rewrite append_cons, <- E. cbn [String.length].
      split; [reflexivity|]. split; [rewrite Lp|rewrite Ls]; lia.
Qed.

(** X7: [string_substr] never fails on a string and two numbers, wherever
    the position points: the position is clamped to the length of the
    string and the length is cut to what is left, so the result is the part
    of the string that starts at [min pos size] and has
    [min len (size - min pos size)] bytes. *)
Theorem string_substr_clamps (host : Host) (st : State)
    (env e s t pos u len u' : ptr) (sv : string) (p l : Z) :
  pool st !! e = Some (Cons s t) ->
  pool st !! t = Some (Cons pos u) ->
  pool st !! u = Some (Cons len u') ->
  pool st !! s = Some (String sv) ->
  pool st !! pos = Some (Nat64 p) ->
  pool st !! len = Some (Nat64 l) ->
  0 <= p -> 0 <= l ->
  exists w pre post,
    prim_string_substr host env e st
    = (Ret (value (length (pool st))), set_pool (pool st ++ [String w]) st)
    /\ sv = (pre ++ w ++ post)%string
    /\ size pre = Z.min p (size sv)
    /\ size w = Z.min l (size sv - Z.min p (size sv)).
Proof.
  intros He Ht Hu Hs Hpos Hlen Hp Hl.
  set (p' := if size sv <? p then size sv else p).
  destruct (substring_split sv (Z.to_nat p')
              (Z.to_nat (Z.min l (Z.of_nat (String.length sv)))))
    as (pre & post & E & Lp & Lw).
  exists (substr sv p' l), pre, post. split; [|split; [exact E|]].
  - unfold prim_string_substr.
    rewrite (bind_Ret _ _ _ _ _ (expectCons_Some host _ _ _ _ He)). cbn [fst snd].
    rewrite (bind_Ret _ _ _ _ _ (expectCons_Some host _ _ _ _ Ht)). cbn [fst snd].
    rewrite (bind_Ret _ _ _ _ _ (expectCons_Some host _ _ _ _ Hu)). cbn [fst snd].
    rewrite (bind_Ret _ _ _ _ _ (expectString_Some host _ _ _ Hs)).
    rewrite (bind_Ret _ _ _ _ _ (expectNat64_Some host _ _ _ Hpos)).
    rewrite (bind_Ret _ _ _ _ _ (expectNat64_Some host _ _ _ Hlen)).
    reflexivity.
  - unfold substr, size in *. subst p'.
    destruct (Z.ltb_spec (Z.of_nat (String.length sv)) p); split; lia.
Qed.


(** ** Boolean and arithmetic primitives *)

(** X9: [and] and [or] look at their second argument only when the first
    does not decide: [(and false x)] is [false] and [(or true x)] is [true]
    whatever [x] is, even when [x] is no boolean; with the other first
    argument they fail at [x].  [implies], which compares both operands,
    fails at such an [x] although a false first argument decides it. *)
Theorem and_or_short_circuit (host : Host) (st : State)
    (env e a t b u : ptr) (av : bool) (x : Tree) :
  pool st !! e = Some (Cons a t) ->
  pool st !! t = Some (Cons b u) ->
  pool st !! a = Some (Bool av) ->
  pool st !! b = Some x ->
  (forall v, x <> Bool v) ->
  let done v := (Ret (value (length (pool st))),
                 set_pool (pool st ++ [Bool v]) st) in
  let fails (r : Outcome Result * State) :=
    exists msg, r = (Throw (PartialEvalError msg b), st) in
  (if av then binary_Bool_or host env e st = done true
               /\ fails (binary_Bool_and host env e st)
   else binary_Bool_and host env e st = done false
        /\ fails (binary_Bool_or host env e st))
  /\ fails (binary_Bool host implb env e st).
Proof.
  intros He Ht Ha Hb Hx done fails. subst done fails. cbv beta.
  assert (Hfail : exists msg, expectBool host b st
                              = (Throw (PartialEvalError msg b), st)).
  { eexists. unfold expectBool. rewrite (bind_deref _ _ _ _ Hb).
    destruct x; try reflexivity. now destruct (Hx val). }
  destruct Hfail as [msg Hfail].
  unfold binary_Bool_and, binary_Bool_or, binary_Bool.
  rewrite !(bind_Ret _ _ _ _ _ (twoArgs_Some host _ _ _ _ _ _ He Ht)).
  cbn [fst snd].
  rewrite !(bind_Ret _ _ _ _ _ (expectBool_Some host _ _ _ Ha)).
  destruct av; repeat split; try reflexivity;
    exists msg; unfold bind; now rewrite Hfail.
Qed.

Lemma binary_Nat64_Some (host : Host) op st env e a t b u l r v :
  pool st !! e = Some (Cons a t) ->
  pool st !! t = Some (Cons b u) ->
  pool st !! a = Some (Nat64 l) ->
  pool st !! b = Some (Nat64 r) ->
  op l r = Some v ->
  binary_Nat64 host op env e st
  = (Ret (value (length (pool st))), set_pool (pool st ++ [Nat64 v]) st).
Proof.
  intros He Ht Ha Hb Hop. unfold binary_Nat64.
  rewrite (bind_Ret _ _ _ _ _ (twoArgs_Some host _ _ _ _ _ _ He Ht)).
  cbn [fst snd].
  rewrite (bind_Ret _ _ _ _ _ (expectNat64_Some host _ _ _ Ha)).
  rewrite (bind_Ret _ _ _ _ _ (expectNat64_Some host _ _ _ Hb)).
  now rewrite Hop.
Qed.

(** X10: [add], [sub] and [mul] never fail on two numbers; they wrap at
    64 bits.  A sum that reaches 2^64 comes back reduced by 2^64, a
    difference below zero comes back raised by 2^64 (so [sub] of a larger
    number from a smaller one is a large number, not an error), and a
    product is the true product less a multiple of 2^64. *)
Theorem nat64_arith_wraps (host : Host) (st : State) (env e a t b u : ptr)
    (l r : Z) :
  pool st !! e = Some (Cons a t) ->
  pool st !! t = Some (Cons b u) ->
  pool st !! a = Some (Nat64 l) ->
  pool st !! b = Some (Nat64 r) ->
  inRange64 l -> inRange64 r ->
  let out v := (Ret (value (length (pool st))),
                set_pool (pool st ++ [Nat64 v]) st) in
  prim_add host env e st = out (if l + r <? 2 ^ 64 then l + r else l + r - 2 ^ 64)
  /\ prim_sub host env e st = out (if r <=? l then l - r else l - r + 2 ^ 64)
  /\ exists v k, prim_mul host env e st = out v
                 /\ inRange64 v /\ l * r = v + k * 2 ^ 64.
Proof.
  intros He Ht Ha Hb Hl Hr out. unfold inRange64 in *.
  split; [|split].
  - apply (binary_Nat64_Some host _ _ _ _ _ _ _ _ _ _ _ He Ht Ha Hb).
    unfold op_add, wrap64. f_equal.
    destruct (Z.ltb_spec (l + r) (2 ^ 64)).
    + apply Z.mod_small. lia.
    + symmetry. apply Z.mod_unique_pos with (q := 1); lia.
  - apply (binary_Nat64_Some host _ _ _ _ _ _ _ _ _ _ _ He Ht Ha Hb).
    unfold op_sub, wrap64. f_equal.
    destruct (Z.leb_spec r l).
    + apply Z.mod_small. lia.
    + symmetry. apply Z.mod_unique_pos with (q := -1); lia.
  - exists ((l * r) mod 2 ^ 64), ((l * r) / 2 ^ 64). split; [|split].
    + now apply (binary_Nat64_Some host _ _ _ _ _ _ _ _ _ _ _ He Ht Ha Hb).
    + apply Z.mod_pos_bound. lia.
    + rewrite (Z.div_mod (l * r) (2 ^ 64)) at 1 by lia. lia.
Qed.

(** X11: the comparisons allocate nothing: they answer with one of the two
    boolean nodes made when the evaluator was constructed.  No evaluation
    can spoil those nodes (only heads of cons cells are ever assigned), so
    after any evaluation, however it ended, a comparison still returns a
    node that holds the right boolean, and leaves the state as it is. *)
Theorem comparison_after_evaluation (host : Host) (fuel : nat)
    (env0 e0 : ptr) (st0 : State) (op : Z -> Z -> bool)
    (env e a t b u : ptr) (l r : Z) :
  pool st0 !! btrue = Some (Bool true) ->
  pool st0 !! bfalse = Some (Bool false) ->
  let st := snd (eval host fuel env0 e0 st0) in
  pool st !! e = Some (Cons a t) ->
  pool st !! t = Some (Cons b u) ->
  pool st !! a = Some (Nat64 l) ->
  pool st !! b = Some (Nat64 r) ->
  exists p, binpred_Nat64 host op env e st = (Ret (value p), st)
            /\ pool st !! p = Some (Bool (op l r)).
Proof.
  intros Ht0 Hf0 st He Ht Ha Hb.
  destruct (eval_stable host fuel env0 e0 st0) as [_ Hst].
  pose proof (Hst _ _ Ht0) as Ht1. pose proof (Hst _ _ Hf0) as Hf1.
  cbn beta iota in Ht1, Hf1. fold st in Ht1, Hf1.
  exists (if op l r then btrue else bfalse). split.
  - unfold binpred_Nat64.
    rewrite (bind_Ret _ _ _ _ _ (twoArgs_Some host _ _ _ _ _ _ He Ht)).
    cbn [fst snd].
    rewrite (bind_Ret _ _ _ _ _ (expectNat64_Some host _ _ _ Ha)).
    rewrite (bind_Ret _ _ _ _ _ (expectNat64_Some host _ _ _ Hb)).
    reflexivity.
  - now destruct (op l r).
Qed.

(** ** [define] *)



(** ** Failures that are not evaluation errors *)

Lemma strtoull0_no_digits (c : ascii) (r : string) :
  is_space c = false -> c <> "-"%char -> c <> "+"%char ->
  match digit_val c with Some d => 10 <= d | None => True end ->
  strtoull0 (String.String c r) = NoConversion.
Proof.
  intros Hsp Hm Hp Hd. unfold strtoull0. cbn [skip_spaces]. rewrite Hsp.
  assert (H0 : c <> "0"%char) by (intros ->; change (10 <= 0) in Hd; lia).
  assert (Hsign :
    match String.String c r with
    | String.String "-" r0 => (true, r0)
    | String.String "+" r0 => (false, r0)
    | _ => (false, String.String c r)
    end = (false, String.String c r)).
  { destruct c as [[] [] [] [] [] [] [] []]; try reflexivity; congruence. }
  rewrite Hsign.
  assert (Hbase : detect_base (String.String c r) = (10, String.String c r)).
  { unfold detect_base.
    destruct c as [[] [] [] [] [] [] [] []]; try reflexivity; congruence. }
  rewrite Hbase. cbn [read_digits].
  destruct (digit_val c) as [d|]; [|reflexivity].
  now replace (d <? 10) with false by (symmetry; apply Z.ltb_ge; lia).
Qed.

(** X13: [string_nat64] on a text with no number at its start (the empty
    string, or a first character that is neither white space, a sign nor a
    decimal digit) does not raise an evaluation error: the conversion's own
    exception leaves the primitive, and the decoration that [eval] and
    [expand] put around an application lets it pass unchanged, whatever
    expression it is decorated with. *)
Theorem string_nat64_no_number (host : Host) (st : State)
    (env e a t x : ptr) (w : string) :
  pool st !! e = Some (Cons a t) ->
  pool st !! a = Some (String w) ->
  match w with
  | EmptyString => True
  | String.String c _ =>
    is_space c = false /\ c <> "-"%char /\ c <> "+"%char
    /\ match digit_val c with Some d => 10 <= d | None => True end
  end ->
  exists what,
    decorate x (prim_string_nat64 host env e) st
    = (Throw (StdException what), st).
Proof.
  intros He Ha Hw. eexists. unfold decorate, prim_string_nat64.
  rewrite (bind_Ret _ _ _ _ _ (expectHead_Some host _ _ _ _ He)).
  rewrite (bind_Ret _ _ _ _ _ (expectString_Some host _ _ _ Ha)).
  assert (Hc : strtoull0 w = NoConversion).
  { destruct w as [|c r]; [reflexivity|].
    destruct Hw as (H1 & H2 & H3 & H4). now apply strtoull0_no_digits. }
  unfold bind, stoull0. rewrite Hc. reflexivity.
Qed.

(** X14: the only incomplete error that leaves [eval] is the unbound
    symbol: when an evaluation ends in a [PartialEvalError], the node the
    error points at is a symbol that is no primitive's name, and the
    message names it.  Every error raised inside an application is
    completed by the decoration; an unbound symbol reached by a tail call
    is looked up after the decoration has been left. *)
Theorem partial_error_is_unbound_symbol (host : Host) (fuel : nat) :
  forall (env e : ptr) (st st' : State) (msg : string) (at_ : ptr),
  eval host fuel env e st = (Throw (PartialEvalError msg at_), st') ->
  exists s, pool st' !! at_ = Some (Symbol s)
            /\ namePrims st' !! s = None
            /\ msg = ("unbound symbol " ++ dquote ++ s ++ dquote)%string.
Proof.
  induction fuel as [|n IH]; intros env e st st' msg at_ H; [discriminate|].
  cbn [eval] in H. unfold evalStep in H.
  unfold bind at 1 in H. unfold deref at 1 in H.
  destruct (pool st !! e) as [t|] eqn:Et; [|discriminate].
  destruct t as [|head tail|val| | | | | |]; try discriminate.
  - (* an application: the decoration completes its errors *)
    unfold bind at 1 in H. unfold decorate in H.
    destruct (evalApply host (eval host n) n env e head tail st)
      as [[[v|env' e']|x| | |] st1]; try discriminate.
    + now apply IH in H.
    + destruct x; discriminate.
  - (* a symbol *)
    unfold bind at 1 in H.
    pose proof (readonly_lookup n env val st) as Hro.
    destruct (lookup n env val st) as [[[v|]|x| | |] st1] eqn:El;
      cbn [snd] in Hro; subst st1; try discriminate.
    + rewrite bind_get in H.
      destruct (namePrims st !! val) eqn:En; [discriminate|].
      injection H as <- <- <-. eauto.
    + exfalso. revert El. clear. revert env.
      induction n as [|n IHn]; intros env; [discriminate|].
      cbn [lookup]. unfold bind, deref.
      repeat match goal with
      | |- context [match pool st !! ?p with _ => _ end] =>
          destruct (pool st !! p) as [[]|]; try discriminate
      | |- context [if ?b then _ else _] => destruct b; try discriminate
      end; try apply IHn; try discriminate.
Qed.

(** ** What the syntax installer and the resolver leave alone *)

Section Keeps.
Context (R : State -> State -> Prop).
Hypothesis R_refl : forall st, R st st.
Hypothesis R_trans : forall a b c, R a b -> R b c -> R a c.

Lemma keeps_readonly {A} (m : M A) : readonly m -> keeps R m.
Proof. intros H st. rewrite (H st). apply R_refl. Qed.

Lemma keeps_bind {A B} (m : M A) (f : A -> M B) :
  keeps R m -> (forall a, keeps R (f a)) -> keeps R (bind m f).
Proof.
  intros Hm Hf st. unfold bind. specialize (Hm st).
  destruct (m st) as [[a|x| | |] st1]; cbn [snd] in *; try exact Hm.
  eapply R_trans; [exact Hm|apply Hf].
Qed.

Lemma keeps_decorate {A} e (m : M A) : keeps R m -> keeps R (decorate e m).
Proof.
  intros Hm st. unfold decorate. specialize (Hm st).
  destruct (m st) as [[a|[]| | |] st1]; exact Hm.
Qed.

End Keeps.

Create HintDb keeps.
#[local] Hint Resolve readonly_ret readonly_throw readonly_abort
  readonly_undefined readonly_outOfFuel readonly_get readonly_deref
  readonly_expectFail readonly_expectCons readonly_expectNil
  readonly_expectSymbol readonly_expectString readonly_expectNat64
  readonly_expectBool readonly_expectClosure readonly_expectHead
  readonly_headOf readonly_twoArgs readonly_syntaxEntry
  readonly_treePattern : keeps.

Lemma syntaxOnly_refl st : syntaxOnly st st.
Proof. repeat split. Qed.

Lemma syntaxOnly_trans a b c : syntaxOnly a b -> syntaxOnly b c -> syntaxOnly a c.
Proof. unfold syntaxOnly. intuition congruence. Qed.

Lemma allocatesOnly_refl st : allocatesOnly st st.
Proof.
  split; [exists []; now rewrite app_nil_r|].
  split; [exists []; now rewrite app_nil_r|]. repeat split.
Qed.

Lemma allocatesOnly_trans a b c :
  allocatesOnly a b -> allocatesOnly b c -> allocatesOnly a c.
Proof.
  intros ([x1 P1] & [o1 O1] & H1) ([x2 P2] & [o2 O2] & H2).
  split; [exists (x1 ++ x2)%list; now rewrite P2, P1, app_assoc|].
  split; [exists (o1 ++ o2)%list; now rewrite O2, O1, app_assoc|].
  intuition congruence.
Qed.

Ltac keeps_step :=
  match goal with
  | |- keeps syntaxOnly (bind _ _) =>
      apply (keeps_bind _ syntaxOnly_trans); [|intros ?]
  | |- keeps allocatesOnly (bind _ _) =>
      apply (keeps_bind _ allocatesOnly_trans); [|intros ?]
  | |- keeps _ (decorate _ _) => apply keeps_decorate
  | |- keeps _ (match ?x with _ => _ end) => destruct x
  | |- keeps syntaxOnly _ =>
      apply (keeps_readonly _ syntaxOnly_refl); now auto with keeps
  | |- keeps allocatesOnly _ =>
      apply (keeps_readonly _ allocatesOnly_refl); now auto with keeps
  end.
Ltac keeps_auto := repeat (keeps_step || (now auto with keeps)).

Lemma keeps_modify_grammar (f : Grammar -> Grammar) :
  (forall g, patterns (f g) = patterns g /\ rules (f g) = rules g) ->
  keeps syntaxOnly (modify_grammar f).
Proof.
  intros H st. destruct (H (grammar st)) as (H1 & H2).
  unfold modify_grammar, modify, syntaxOnly. cbn. auto 15.
Qed.

Lemma keeps_getSymbol name : keeps syntaxOnly (getSymbol name).
Proof.
  intros st. unfold getSymbol. rewrite bind_get. cbv zeta.
  destruct (nameSymbols (grammar st) !! name); cbn; repeat split.
Qed.
#[local] Hint Resolve keeps_getSymbol : keeps.

Lemma keeps_get_modify {B} (F : State -> Grammar -> Grammar)
    (k : State -> () -> M B) :
  (forall st, syntaxOnly st (set_grammar (F st (grammar st)) st)) ->
  (forall a u, keeps syntaxOnly (k a u)) ->
  keeps syntaxOnly (bind get (fun a => bind (modify_grammar (F a)) (k a))).
Proof.
  intros HF Hk st. unfold bind at 1. unfold get. cbn [fst snd].
  unfold bind, modify_grammar, modify. cbn [fst snd].
  eapply syntaxOnly_trans; [apply HF|apply Hk].
Qed.

Lemma keeps_listSymbols host n e : keeps syntaxOnly (listSymbols host n e).
Proof.
  revert e. induction n as [|n IH]; intros e; cbn [listSymbols]; keeps_auto.
Qed.
#[local] Hint Resolve keeps_listSymbols : keeps.

Ltac keeps_grammar :=
  match goal with
  | |- keeps syntaxOnly (bind get (fun a => bind (modify_grammar _) _)) =>
      apply keeps_get_modify;
      [intros ?; unfold syntaxOnly; cbn; auto 15|intros ? ?]
  | |- keeps syntaxOnly (bind (modify_grammar _) _) =>
      apply (keeps_bind _ syntaxOnly_trans);
      [apply keeps_modify_grammar; intros ?; cbn; auto|intros ?]
  end.

Lemma keeps_addPatterns host n e : keeps syntaxOnly (addPatterns host n e).
Proof.
  revert e. induction n as [|n IH]; intros e; cbn [addPatterns];
    repeat (keeps_grammar || keeps_step || (now auto with keeps)).
Qed.

Lemma keeps_addRules host n e : keeps syntaxOnly (addRules host n e).
Proof.
  revert e. induction n as [|n IH]; intros e; cbn [addRules];
    repeat (keeps_grammar || keeps_step || (now auto with keeps)).
Qed.

(** X15: [set_syntax] installs its two arguments as the syntax lists
    before it reads any entry, and nothing undoes that: whether the tables
    are then built or an entry is rejected half-way, the evaluator holds
    the new lists, so [get_syntax] hands them back.  Building the tables
    touches neither the arena, the environments, the registries nor the
    output. *)
Theorem set_syntax_installs (host : Host) (fuel : nat) (p r : ptr)
    (st : State) (env e : ptr) :
  let st' := snd (setSyntax host fuel p r st) in
  patterns (grammar st') = p /\ rules (grammar st') = r
  /\ pool st' = pool st /\ globalEnv st' = globalEnv st
  /\ macros st' = macros st /\ nameMacros st' = nameMacros st
  /\ prims st' = prims st /\ namePrims st' = namePrims st
  /\ stdout st' = stdout st /\ trace st' = trace st
  /\ prim_get_syntax env e st'
     = (Ret (value (length (pool st) + 1)%nat),
        set_pool (pool st ++ [Cons r nil_; Cons p (length (pool st))]) st').
Proof.
  intros st'. subst st'. unfold setSyntax.
  match goal with |- context [bind (modify_grammar ?F) ?k] =>
    set (F0 := F); set (k0 := k) end.
  set (st0 := set_grammar (F0 (grammar st)) st).
  change (snd (bind (modify_grammar F0) k0 st)) with (snd (k0 tt st0)).
  assert (Hk : syntaxOnly st0 (snd (k0 tt st0))).
  { enough (Hk : keeps syntaxOnly (k0 tt)) by apply Hk.
    subst k0. cbv beta.
    keeps_auto; auto using keeps_addPatterns, keeps_addRules. }
  revert Hk. generalize (snd (k0 tt st0)). intros st' Hk.
  destruct Hk as (B1 & B2 & B3 & B4 & B5 & B6 & B7 & B8 & B9 & B10 & B11).
  subst st0 F0. cbn in B1, B2, B3, B4, B5, B6, B7, B8, B9, B10, B11.
  repeat (split; [assumption|]).
  unfold prim_get_syntax. rewrite bind_get.
  unfold mk_cons, bind, emplaceBack, ret. cbn [fst snd pool set_pool].
  rewrite B10, B11, B1, length_app, <- app_assoc. cbn [length app].
  reflexivity.
Qed.

Lemma keeps_emplaceBack t : keeps allocatesOnly (emplaceBack t).
Proof.
  intros st. unfold emplaceBack, allocatesOnly. cbn.
  split; [now exists [t]|].
  split; [exists []; now rewrite app_nil_r|]. repeat split.
Qed.
#[local] Hint Resolve keeps_emplaceBack : keeps.

Lemma keeps_consEach name right : keeps allocatesOnly (consEach name right).
Proof. induction right; cbn [consEach]; unfold sym, mk_cons; keeps_auto. Qed.

Lemma keeps_consOnto c right : keeps allocatesOnly (consOnto c right).
Proof. induction right; cbn [consOnto]; unfold mk_cons; keeps_auto. Qed.
#[local] Hint Resolve keeps_consEach keeps_consOnto : keeps.

Lemma keeps_consProduct child right :
  keeps allocatesOnly (consProduct child right).
Proof. induction child; cbn [consProduct]; keeps_auto. Qed.
#[local] Hint Resolve keeps_consProduct : keeps.

Lemma keeps_resolveAt host fuel loc right maxDepth :
  keeps allocatesOnly (resolveAt host fuel loc right maxDepth).
Proof.
  revert loc right maxDepth.
  induction fuel as [|n IH]; intros loc right maxDepth; cbn [resolveAt];
    [keeps_auto|].
  unfold resolveStep. keeps_auto.
  match goal with
  | |- keeps _ (resolveLinks _ _ _ _ _ ?l) => induction l as [|[] l IHl]
  end; cbn [resolveLinks]; unfold sym, str, mk_cons; keeps_auto.
Qed.
#[local] Hint Resolve keeps_resolveAt : keeps.

Lemma keeps_resolveAll host fuel pos i row maxDepth :
  keeps allocatesOnly (resolveAll host fuel pos i row maxDepth).
Proof.
  revert i. induction row as [|[] row IH]; intros i; cbn [resolveAll];
    keeps_auto.
Qed.

Lemma keeps_printAll host all : keeps allocatesOnly (printAll host all).
Proof.
  induction all as [|t all IH]; cbn [printAll]; keeps_auto.
  intros st. unfold modify, allocatesOnly. cbn.
  split; [exists []; now rewrite app_nil_r|].
  split; [eexists; reflexivity|]. repeat split.
Qed.
#[local] Hint Resolve keeps_resolveAll keeps_printAll : keeps.

(** X16: resolving the parse forest only allocates and prints: whatever
    the forest holds and however the resolution ends (one parse, none,
    several, or a forest that is out of range), the old arena is a prefix
    of the new one, the old output a prefix of the new output, and the
    global environment, the grammar with its tables, the macros, the
    primitives, the files and the log of mutations are the same. *)
Theorem resolve_only_allocates (host : Host) (fuel maxDepth : nat)
    (st : State) :
  let st' := snd (resolve host fuel maxDepth st) in
  (exists extra, pool st' = pool st ++ extra)
  /\ (exists out, stdout st' = stdout st ++ out)
  /\ globalEnv st' = globalEnv st /\ grammar st' = grammar st
  /\ macros st' = macros st /\ nameMacros st' = nameMacros st
  /\ prims st' = prims st /\ namePrims st' = namePrims st
  /\ files st' = files st /\ trace st' = trace st.
Proof.
  enough (H : keeps allocatesOnly (resolve host fuel maxDepth)) by apply H.
  unfold resolve. keeps_auto.
Qed.

(** ** The trees the resolver returns *)

Lemma allocatesOnly_run {A} (m : M A) st a st1 :
  keeps allocatesOnly m -> m st = (Ret a, st1) -> allocatesOnly st st1.
Proof. intros H E. specialize (H st). now rewrite E in H. Qed.

Lemma parsesOf_later st st1 st' res :
  parsesOf st st1 res -> allocatesOnly st1 st' -> parsesOf st st' res.
Proof.
  intros H ([extra P] & _). unfold parsesOf in *.
  eapply Forall_impl; [exact H|].
  intros p (Hp & k & r & name & H1 & H2 & H3). split; [exact Hp|].
  exists k, r, name. rewrite P. auto using lookup_app_l_Some.
Qed.

Lemma parsesOf_earlier st st1 st' res :
  allocatesOnly st st1 -> parsesOf st1 st' res -> parsesOf st st' res.
Proof.
  intros ([extra P] & _ & _ & G & _) H. unfold parsesOf in *.
  eapply Forall_impl; [exact H|].
  intros p (Hp & Hn). rewrite G in Hn. split; [|exact Hn].
  rewrite P, length_app in Hp. lia.
Qed.

Lemma consEach_shape name right : forall st res st',
  consEach name right st = (Ret res, st') ->
  name ∈ ruleNames (grammar st) -> parsesOf st st' res.
Proof.
  induction right as [|r right IH]; intros st res st' H Hin.
  - injection H as <- <-. constructor.
  - cbn [consEach] in H. unfold sym, mk_cons in H.
    rewrite (bind_Ret _ _ _ _ _ (emplaceBack_eq _ _)) in H.
    rewrite (bind_Ret _ _ _ _ _ (emplaceBack_eq _ _)) in H.
    apply bind_Ret_inv in H as (res' & st2 & Hrec & H).
    injection H as <- <-.
    pose proof (allocatesOnly_run _ _ _ _ (keeps_consEach name right) Hrec)
      as Hal.
    apply IH in Hrec; [|exact Hin].
    constructor.
    + destruct Hal as ([extra P] & _). split.
      * cbn [pool set_pool]. rewrite length_app. cbn. lia.
      * exists (length (pool st)), r, name. rewrite P.
        cbn [pool set_pool]. rewrite length_app. cbn [length].
        split; [|split; [|exact Hin]].
        -- apply lookup_app_l_Some. rewrite <- app_assoc.
           replace (length (pool st) + 1)%nat
             with (length (pool st ++ [Symbol name])) by (rewrite length_app; cbn; lia).
           replace (pool st ++ [Symbol name] ++ [Cons (length (pool st)) r])
             with ((pool st ++ [Symbol name]) ++ [Cons (length (pool st)) r])
             by now rewrite <- app_assoc.
           now apply list_lookup_middle.
        -- apply lookup_app_l_Some, lookup_app_l_Some.
           now apply list_lookup_middle.
    + eapply parsesOf_earlier; [|exact Hrec].
      split; [eexists; cbn [pool set_pool]; now rewrite <- app_assoc|].
      split; [exists []; now rewrite app_nil_r|]. repeat split.
Qed.

Section ResolverShape.
Context (host : Host) (rec : Location -> list ptr -> nat -> M (list ptr)).
Hypothesis rec_keeps : forall loc right d, keeps allocatesOnly (rec loc right d).
Hypothesis rec_shape : forall loc right d st res st',
  rec loc right d st = (Ret res, st') -> parsesOf st st' res.

Lemma keeps_resolveLinks loc right d links :
  keeps allocatesOnly (resolveLinks host rec loc right d links).
Proof.
  induction links as [|[] l IHl]; cbn [resolveLinks];
    unfold sym, str, mk_cons; keeps_auto.
Qed.

Lemma resolveLinks_shape loc right d links : forall st res st',
  resolveLinks host rec loc right d links st = (Ret res, st') ->
  parsesOf st st' res.
Proof.
  induction links as [|[prevLink childLink] links IH]; intros st res st' H.
  - injection H as <- <-. constructor.
  - cbn [resolveLinks] in H.
    apply bind_Ret_inv in H as (child & st1 & Hchild & H).
    apply bind_Ret_inv in H as (curr & st2 & Hcurr & H).
    apply bind_Ret_inv in H as (final & st3 & Hfinal & H).
    apply bind_Ret_inv in H as (rest & st4 & Hrest & H).
    injection H as <- <-.
    assert (A1 : allocatesOnly st st1).
    { eapply allocatesOnly_run; [|exact Hchild].
      unfold sym, str, mk_cons. keeps_auto. }
    pose proof (allocatesOnly_run _ _ _ _ (keeps_consProduct _ _) Hcurr) as A2.
    pose proof (allocatesOnly_run _ _ _ _ (rec_keeps _ _ _) Hfinal) as A3.
    pose proof (allocatesOnly_run _ _ _ _ (keeps_resolveLinks _ _ _ _) Hrest)
      as A4.
    apply Forall_app. split.
    + eapply parsesOf_later; [|exact A4].
      eapply parsesOf_earlier;
        [exact (allocatesOnly_trans _ _ _ A1 A2)|].
      now apply rec_shape in Hfinal.
    + eapply parsesOf_earlier;
        [exact (allocatesOnly_trans _ _ _
                  (allocatesOnly_trans _ _ _ A1 A2) A3)|].
      now apply IH in Hrest.
Qed.

Lemma resolveStep_shape loc right d st res st' :
  resolveStep host rec loc right d st = (Ret res, st') -> parsesOf st st' res.
Proof.
  unfold resolveStep. intros H.
  destruct (Nat.eqb d 0); [injection H as <- <-; constructor|].
  rewrite bind_get in H.
  destruct (forest (parser (grammar st)) !! l_pos loc) as [row|];
    [|discriminate].
  destruct (row !! l_i loc) as [[state links]|]; [|discriminate].
  destruct (Nat.eqb (progress state) 0).
  - destruct right as [|r right]; [injection H as <- <-; constructor|].
    destruct (ruleNames (grammar st) !! rule state) as [name|] eqn:En;
      [|discriminate].
    eapply consEach_shape; [exact H|].
    eapply list_elem_of_lookup_2, En.
  - now apply resolveLinks_shape in H.
Qed.

End ResolverShape.

Lemma resolveAt_shape host fuel : forall loc right d st res st',
  resolveAt host fuel loc right d st = (Ret res, st') -> parsesOf st st' res.
Proof.
  induction fuel as [|n IH]; intros loc right d st res st' H; [discriminate|].
  cbn [resolveAt] in H.
  eapply resolveStep_shape; [|exact IH|exact H].
  intros. apply keeps_resolveAt.
Qed.

Lemma resolveAll_shape host fuel pos maxDepth row : forall i st res st',
  resolveAll host fuel pos i row maxDepth st = (Ret res, st') ->
  parsesOf st st' res.
Proof.
  induction row as [|[state links] row IH]; intros i st res st' H.
  - injection H as <- <-. constructor.
  - cbn [resolveAll] in H. rewrite bind_get in H.
    destruct (parserRules (parser (grammar st)) !! rule state) as [[lhs rhs]|];
      [|discriminate].
    apply bind_Ret_inv in H as (final & st1 & Hfinal & H).
    apply bind_Ret_inv in H as (rest & st2 & Hrest & H).
    injection H as <- <-.
    assert (A1 : allocatesOnly st st1).
    { eapply allocatesOnly_run; [|exact Hfinal]. keeps_auto. }
    pose proof (allocatesOnly_run _ _ _ _ (keeps_resolveAll _ _ _ _ _ _) Hrest)
      as A2.
    apply Forall_app. split.
    + eapply parsesOf_later; [|exact A2].
      destruct (_ && _) in Hfinal.
      * now apply resolveAt_shape in Hfinal.
      * injection Hfinal as <- <-. constructor.
    + eapply parsesOf_earlier; [exact A1|]. now apply IH in Hrest.
Qed.

(** X17: the tree a successful [resolve] returns is a node of its own
    making: a cons allocated during the resolution (the arena held no such
    node before), whose head is a symbol naming one of the grammar's
    rules.  This is the shape [expand] relies on when it looks the head
    up among the macros. *)
Theorem resolve_returns_rule_node (host : Host) (fuel maxDepth : nat)
    (st st' : State) (t : ptr) :
  resolve host fuel maxDepth st = (Ret t, st') ->
  (length (pool st) <= t)%nat
  /\ exists k r name,
       pool st' !! t = Some (Cons k r)
       /\ pool st' !! k = Some (Symbol name)
       /\ name ∈ ruleNames (grammar st).
Proof.
  unfold resolve. intros H. rewrite bind_get in H. cbv zeta in H.
  destruct (forest (parser (grammar st)) !! length (sentence (parser (grammar st))))
    as [row|]; [|discriminate].
  apply bind_Ret_inv in H as (all & st1 & Hall & H).
  apply resolveAll_shape in Hall.
  destruct all as [|t1 [|t2 all]]; try discriminate.
  - injection H as <- <-. now inversion Hall.
  - apply bind_Ret_inv in H as (u & st2 & _ & H). discriminate.
Qed.

(** ** [makeList] *)

Lemma holdsList_app pl extra es : forall p,
  holdsList pl p es -> holdsList (pl ++ extra) p es.
Proof.
  induction es as [|e es IH]; intros p H; cbn [holdsList] in *; [exact H|].
  destruct H as (tl & H1 & H2). exists tl.
  split; [now apply lookup_app_l_Some|now apply IH].
Qed.

(** X18: [makeList] never fails and builds its list back to front: it
    allocates one cons for each element and nothing else, and the result
    is the list of the elements in the order given, ending in the [Nil]
    sentinel; for no elements it is the sentinel itself.  Nothing but the
    arena changes. *)
Theorem makeList_builds (es : list ptr) (st : State) :
  exists p cells,
    makeList es st = (Ret p, set_pool (pool st ++ cells) st)
    /\ length cells = length es
    /\ holdsList (pool st ++ cells) p es.
Proof.
  induction es as [|e es IH]; cbn [makeList].
  - exists nil_, []. rewrite app_nil_r. destruct st. repeat split.
  - destruct IH as (r & cells & E & L & H).
    exists (length (pool st ++ cells)), (cells ++ [Cons e r])%list.
    rewrite (bind_Ret _ _ _ _ _ E). unfold mk_cons. rewrite emplaceBack_eq.
    cbn [pool set_pool]. rewrite app_assoc.
    split; [destruct st; reflexivity|].
    split; [rewrite length_app; cbn [length]; lia|].
    cbn [holdsList]. exists r.
    split; [now apply list_lookup_middle|now apply holdsList_app].
Qed.

(** * The NFA lexer's constructors *)

Section LexerProofs.
Import NFALexer.
Local Open Scope lexer_scope.

Lemma extends_refl tbl : extends tbl tbl.
Proof.
  split; [lia|]. intros s en H. exists en. repeat split; auto.
  exists []. now rewrite app_nil_r.
Qed.

Lemma extends_trans a b c : extends a b -> extends b c -> extends a c.
Proof.
  intros [L1 H1] [L2 H2]. split; [lia|].
  intros s en H. destruct (H1 _ _ H) as (en1 & E1 & A1 & m1 & T1).
  destruct (H2 _ _ E1) as (en2 & E2 & A2 & m2 & T2).
  exists en2. repeat split; [exact E2|congruence|].
  exists (m1 ++ m2)%list. now rewrite T2, T1, app_assoc.
Qed.

Lemma wfb_wf tbl : wfb tbl = true -> wf tbl.
Proof.
  unfold wfb, wf. intros H. apply andb_true_iff in H as [H0 H].
  apply Nat.ltb_lt in H0. split; [exact H0|].
  intros s en c t Hs Hin. rewrite forallb_forall in H.
  apply list_elem_of_lookup_2, list_elem_of_In in Hs. specialize (H _ Hs).
  rewrite forallb_forall in H. apply list_elem_of_In in Hin.
  specialize (H _ Hin). now apply Nat.ltb_lt in H.
Qed.

Lemma valid_extends tbl tbl' a : valid tbl a -> extends tbl tbl' -> valid tbl' a.
Proof. intros [H1 H2] [L _]. split; lia. Qed.

Lemma runs_ret {A} (a : A) tbl (Q : A -> list Entry -> Prop) :
  wf tbl -> Q a tbl -> runs (lret a) tbl Q.
Proof. intros W H. exists a, tbl. auto using extends_refl. Qed.

Lemma runs_bind {A B} (m : L A) (f : A -> L B) tbl Q Q' :
  runs m tbl Q ->
  (forall r tbl', wf tbl' -> extends tbl tbl' -> Q r tbl' -> runs (f r) tbl' Q') ->
  runs (lbind m f) tbl Q'.
Proof.
  intros (r & tbl1 & E & W & X & HQ) Hf.
  destruct (Hf r tbl1 W X HQ) as (r2 & tbl2 & E2 & W2 & X2 & HQ2).
  exists r2, tbl2. unfold lbind. rewrite E.
  eauto using extends_trans.
Qed.

Lemma runs_weaken {A} (m : L A) tbl (Q Q' : A -> list Entry -> Prop) :
  runs m tbl Q -> (forall r tbl', extends tbl tbl' -> Q r tbl' -> Q' r tbl') ->
  runs m tbl Q'.
Proof.
  intros (r & tbl1 & E & W & X & HQ) H. exists r, tbl1. auto.
Qed.

Lemma runs_node tbl :
  wf tbl -> runs node tbl (fun s tbl' => s = length tbl /\ (s < length tbl')%nat).
Proof.
  intros [W0 W]. exists (length tbl), (tbl ++ [emptyEntry]).
  split; [reflexivity|]. split; [|split].
  - split; [rewrite length_app; lia|].
    intros s en c t H Hin. rewrite length_app.
    destruct (lookup_app_Some tbl [emptyEntry] s en) as [Hl _].
    destruct (Hl H) as [H1|[_ H1]].
    + specialize (W _ _ _ _ H1 Hin). lia.
    + destruct (s - length tbl)%nat; [|discriminate].
      injection H1 as <-. cbn in Hin. now apply elem_of_nil in Hin.
  - split; [rewrite length_app; lia|].
    intros s en H. exists en. split; [now apply lookup_app_l_Some|].
    split; [reflexivity|]. exists []. now rewrite app_nil_r.
  - rewrite length_app. cbn. lia.
Qed.

Lemma runs_trans tbl s c t :
  wf tbl -> (s < length tbl)%nat -> (t < length tbl)%nat ->
  runs (trans s c t) tbl (fun _ tbl' => map ac tbl' = map ac tbl).
Proof.
  intros [W0 W] Hs Ht. unfold runs, trans.
  destruct (lookup_lt_is_Some_2 tbl s Hs) as [en E]. rewrite E.
  eexists tt, _. split; [reflexivity|]. split; [|split].
  - split; [now rewrite length_insert|].
    intros s' en' c' t' H Hin. rewrite length_insert.
    destruct (decide (s' = s)) as [->|Hne].
    + rewrite list_lookup_insert_eq in H by exact Hs. injection H as <-.
      cbn in Hin. apply elem_of_app in Hin as [Hin|Hin].
      * exact (W _ _ _ _ E Hin).
      * apply list_elem_of_singleton in Hin. injection Hin as -> ->. exact Ht.
    + rewrite list_lookup_insert_ne in H by congruence.
      exact (W _ _ _ _ H Hin).
  - split; [now rewrite length_insert|].
    intros s' en' H. destruct (decide (s' = s)) as [->|Hne].
    + rewrite E in H. injection H as <-. eexists.
      rewrite list_lookup_insert_eq by exact Hs.
      split; [reflexivity|]. split; [reflexivity|]. now eexists.
    + exists en'. rewrite list_lookup_insert_ne by congruence.
      split; [exact H|]. split; [reflexivity|]. exists []. now rewrite app_nil_r.
  - rewrite list_fmap_insert. cbn [ac]. apply list_insert_id.
    rewrite list_lookup_fmap, E. reflexivity.
Qed.

Lemma runs_forEach {A} (l : list A) (f : A -> L ()%type)
    (I : list Entry -> Prop) : forall tbl,
  wf tbl -> I tbl ->
  (forall x tbl', x ∈ l -> wf tbl' -> extends tbl tbl' -> I tbl' ->
     runs (f x) tbl' (fun _ t => I t)) ->
  runs (forEach l f) tbl (fun _ t => I t).
Proof.
  induction l as [|x l IH]; intros tbl W HI H; cbn [forEach].
  - now apply runs_ret.
  - eapply runs_bind.
    + apply H; [left|exact W|apply extends_refl|exact HI].
    + intros [] tbl1 W1 X1 HI1. apply IH; [exact W1|exact HI1|].
      intros y tbl2 Hy W2 X2 HI2. apply H; [now right|exact W2| |exact HI2].
      eapply extends_trans; eassumption.
Qed.

Lemma runs_class (cs : list nat) tbl :
  wf tbl ->
  safe tbl (s <- node ;; t <- node ;;
            forEach cs (fun c => trans s c t) ;; lret (s, t)).
Proof.
  intros W. unfold safe.
  eapply runs_bind; [now apply runs_node|]. intros s tbl1 W1 X1 [-> Hs].
  eapply runs_bind; [now apply runs_node|]. intros t tbl2 W2 X2 [-> Ht].
  eapply runs_bind.
  - apply (runs_forEach _ _ (fun _ => True)); [exact W2|exact Logic.I|].
    intros c tbl3 _ W3 X3 _.
    eapply runs_weaken; [apply runs_trans; [exact W3| |]|auto];
      destruct X2, X3; lia.
  - intros [] tbl3 W3 X3 _. apply runs_ret; [exact W3|].
    destruct X2, X3. split; cbn [fst snd]; lia.
Qed.

Lemma runs_concat2 tbl a b :
  wf tbl -> valid tbl a -> valid tbl b -> snd a <> fst b ->
  runs (concat2 a b) tbl
       (fun r tbl' => r = (fst a, snd b) /\ map ac tbl' = map ac tbl).
Proof.
  intros W [Ha1 Ha2] [Hb1 Hb2] Hne. unfold concat2.
  destruct (lookup_lt_is_Some_2 tbl _ Hb1) as [en E].
  assert (R : runs (forEach (tr en) (fun ct => trans (snd a) (fst ct) (snd ct)) ;;
                    lret (fst a, snd b)) tbl
                   (fun r tbl' => r = (fst a, snd b)
                                  /\ map ac tbl' = map ac tbl)).
  { eapply runs_bind.
    - apply (runs_forEach _ _ (fun t => map ac t = map ac tbl));
        [exact W|reflexivity|].
      intros [c t] tbl1 Hin W1 X1 M1.
      eapply runs_weaken; [apply runs_trans; [exact W1| |]|];
        cbn [fst snd]; destruct X1 as [L1 _]; [lia| |].
      + destruct W as [_ W]. specialize (W _ _ _ _ E Hin). lia.
      + intros [] tbl2 _ M2. cbv beta in M2. congruence.
    - intros [] tbl1 W1 X1 M1. apply runs_ret; [exact W1|]. auto. }
  unfold runs. rewrite E.
  destruct (tr en) eqn:Et.
  - exists (fst a, snd b), tbl. split; [reflexivity|].
    split; [exact W|]. split; [apply extends_refl|]. auto.
  - destruct (Nat.eqb_spec (snd a) (fst b)); [contradiction|]. exact R.
Qed.

Lemma safe_concat2 tbl a b :
  wf tbl -> valid tbl a -> valid tbl b -> snd a <> fst b ->
  safe tbl (concat2 a b).
Proof.
  intros W Ha Hb Hne. unfold safe.
  eapply runs_weaken; [now apply runs_concat2|].
  intros r tbl' [L _] [-> _]. destruct Ha, Hb. split; cbn [fst snd]; lia.
Qed.

Lemma safe_star tbl a : wf tbl -> valid tbl a -> safe tbl (star a).
Proof.
  intros W [Ha1 Ha2]. unfold safe, star.
  eapply runs_bind; [now apply runs_node|]. intros s tbl1 W1 X1 [-> Hs].
  eapply runs_bind; [now apply runs_node|]. intros t tbl2 W2 X2 [-> Ht].
  pose proof X1 as [L1 _]. pose proof X2 as [L2 _].
  eapply runs_bind; [apply runs_trans; [exact W2|lia|lia]|].
  intros [] tbl3 W3 [L3 _] _.
  eapply runs_bind; [apply runs_trans; [exact W3|lia|lia]|].
  intros [] tbl4 W4 [L4 _] _.
  eapply runs_bind; [apply runs_trans; [exact W4|lia|lia]|].
  intros [] tbl5 W5 [L5 _] _.
  eapply runs_bind; [apply runs_trans; [exact W5|lia|lia]|].
  intros [] tbl6 W6 [L6 _] _.
  apply runs_ret; [exact W6|]. split; cbn [fst snd]; lia.
Qed.

(** What [star] returns, for [plus]: its first state is new. *)
Lemma star_first tbl a r tbl' :
  star a tbl = Some (r, tbl') -> fst r = length tbl.
Proof.
  unfold star, lbind, node, trans, lret. intros H.
  repeat match type of H with
  | match ?x with _ => _ end = _ => destruct x; try discriminate
  end.
  now injection H as <- <-.
Qed.

(** X19: on a well-formed table (the initial state exists, every
    transition leads to a state of the table) every pattern constructor,
    given automata of the table, runs without indexing the table out of
    range, leaves a well-formed table and returns an automaton of it; the
    states that were there keep their accepting marks and their
    transitions, in order, with new ones after them at most.  [concat2]
    needs the end of its first automaton to differ from the start of the
    second, whose transitions it copies while it appends. *)
Theorem constructors_keep_table (tbl : list NFALexer.Entry) :
  wf tbl ->
  safe tbl epsilon
  /\ (forall ls, safe tbl (ch ls))
  /\ (forall a b, safe tbl (range a b))
  /\ (forall str, safe tbl (word str))
  /\ safe tbl any /\ safe tbl utf8segment
  /\ (forall ls, safe tbl (except ls))
  /\ (forall ls, Forall (valid tbl) ls -> safe tbl (alt ls))
  /\ (forall a, valid tbl a -> safe tbl (star a))
  /\ (forall a, valid tbl a -> safe tbl (plus a))
  /\ (forall a b, valid tbl a -> valid tbl b -> snd a <> fst b ->
        safe tbl (concat2 a b)).
Proof.
  intros W. repeat split.
  - (* epsilon *)
    unfold safe, epsilon.
    eapply runs_bind; [now apply runs_node|]. intros s tbl1 W1 X1 [-> Hs].
    eapply runs_bind; [now apply runs_node|]. intros t tbl2 W2 X2 [-> Ht].
    pose proof X2 as [L2 _].
    eapply runs_bind; [apply runs_trans; [exact W2|lia|lia]|].
    intros [] tbl3 W3 [L3 _] _. apply runs_ret; [exact W3|].
    split; cbn [fst snd]; lia.
  - intros ls. exact (runs_class ls tbl W).
  - intros a b. exact (runs_class _ tbl W).
  - (* word *)
    intros str. unfold safe, word.
    eapply runs_bind; [now apply runs_node|]. intros s tbl1 W1 X1 [-> Hs].
    eapply runs_bind with (Q := fun t tbl' => (t < length tbl')%nat).
    + clear X1. revert tbl1 W1 Hs. generalize (length tbl) as t.
      induction (bytes str) as [|c cs IH]; intros t tbl1 W1 Ht; cbn [wordLoop].
      * now apply runs_ret.
      * eapply runs_bind; [now apply runs_node|].
        intros curr tbl2 W2 X2 [-> Hc]. pose proof X2 as [L2 _].
        eapply runs_bind; [apply runs_trans; [exact W2|lia|lia]|].
        intros [] tbl3 W3 [L3 _] _. apply IH; [exact W3|lia].
    + intros t tbl2 W2 X2 Ht. apply runs_ret; [exact W2|].
      destruct X2. split; cbn [fst snd]; lia.
  - exact (runs_class _ tbl W).
  - exact (runs_class _ tbl W).
  - intros ls. exact (runs_class _ tbl W).
  - (* alt *)
    intros ls Hls. unfold safe, alt.
    eapply runs_bind; [now apply runs_node|]. intros s tbl1 W1 X1 [-> Hs].
    eapply runs_bind; [now apply runs_node|]. intros t tbl2 W2 X2 [-> Ht].
    pose proof X1 as [L1 _]. pose proof X2 as [L2 _].
    eapply runs_bind.
    + apply (runs_forEach _ _ (fun _ => True)); [exact W2|exact Logic.I|].
      intros a tbl3 Hin W3 X3 _. pose proof X3 as [L3 _].
      rewrite Forall_forall in Hls. destruct (Hls a Hin) as [Ha1 Ha2].
      eapply runs_bind; [apply runs_trans; [exact W3|lia|lia]|].
      intros [] tbl4 W4 [L4 _] _.
      eapply runs_weaken; [apply runs_trans; [exact W4|lia|lia]|auto].
    + intros [] tbl3 W3 X3 _. apply runs_ret; [exact W3|].
      destruct X3. split; cbn [fst snd]; lia.
  - intros a Ha. now apply safe_star.
  - (* plus *)
    intros a Ha. unfold safe, plus.
    eapply runs_bind with
      (Q := fun r tbl' => valid tbl' r /\ fst r = length tbl).
    + destruct (safe_star tbl a W Ha) as (r & tbl1 & E & W1 & X1 & V1).
      exists r, tbl1. split; [exact E|]. split; [exact W1|].
      split; [exact X1|]. split; [exact V1|]. eapply star_first, E.
    + intros r tbl1 W1 X1 [V1 F1].
      eapply runs_weaken; [apply safe_concat2|auto]; auto.
      * eapply valid_extends; eassumption.
      * destruct Ha. lia.
  - intros a b Ha Hb Hne. now apply safe_concat2.
Qed.

(** ** The accepting mark of a shared state *)

Lemma addPattern_marks tbl id nfa :
  wf tbl -> valid tbl nfa ->
  exists tbl',
    addPattern id nfa tbl = Some (tt, tbl') /\ wf tbl'
    /\ map ac tbl'
       = alter (fun o => match o with Some x => Some x | None => Some id end)
               (snd nfa) (map ac tbl).
Proof.
  intros W [V1 V2]. unfold addPattern.
  destruct (runs_trans tbl initial 0 (fst nfa) W) as ([] & tbl1 & E1 & W1 & X1 & M1);
    [destruct W as [W0 _]; exact W0|exact V1|].
  unfold lbind. rewrite E1. rewrite <- M1.
  assert (L1 : length tbl1 = length tbl)
    by (rewrite <- (length_map ac tbl1), M1; apply length_map).
  assert (Hs : (snd nfa < length tbl1)%nat) by lia.
  destruct (lookup_lt_is_Some_2 tbl1 _ Hs) as [en E]. rewrite E.
  eexists. split; [reflexivity|].
  destruct W1 as [W0 W1]. split.
  - split; [now rewrite length_insert|].
    intros s' en' c' t' H Hin. rewrite length_insert.
    destruct (decide (s' = snd nfa)) as [->|Hne].
    + rewrite list_lookup_insert_eq in H by exact Hs. injection H as <-.
      exact (W1 _ _ _ _ E Hin).
    + rewrite list_lookup_insert_ne in H by congruence.
      exact (W1 _ _ _ _ H Hin).
  - rewrite list_fmap_insert. cbn [ac].
    apply list_eq. intros i. destruct (decide (i = snd nfa)) as [->|Hne].
    + rewrite list_lookup_insert_eq by (rewrite length_map; exact Hs).
      rewrite list_lookup_alter_eq, list_lookup_fmap, E. reflexivity.
    + rewrite list_lookup_insert_ne by congruence.
      now rewrite list_lookup_alter_ne by congruence.
Qed.

(** X20: an accepting mark is given once.  [concat2 a b] returns [b]'s
    last state as its own, so when [b] has been added as pattern [id1] and
    the concatenation is then added as pattern [id2], the second
    [addPattern] finds the state marked and leaves it: the state stays
    accepting (for its earlier mark, or for [id1]) and no state of the
    table accepts for [id2]. *)
Theorem shared_accepting_state_first_wins (tbl : list NFALexer.Entry)
    (id1 id2 : nat) (a b : nat * nat) :
  wf tbl -> valid tbl a -> valid tbl b -> snd a <> fst b -> id1 <> id2 ->
  Forall (fun en => ac en <> Some id2) tbl ->
  exists tbl',
    (addPattern id1 b ;; r <- concat2 a b ;; addPattern id2 r ;; lret r) tbl
    = Some ((fst a, snd b), tbl')
    /\ (exists en x, tbl' !! snd b = Some en /\ ac en = Some x)
    /\ Forall (fun en => ac en <> Some id2) tbl'.
Proof.
  intros W Va Vb Hne Hid Hfree. rewrite Forall_lookup in Hfree.
  destruct (addPattern_marks tbl id1 b W Vb) as (tbl1 & E1 & W1 & M1).
  assert (L1 : length tbl1 = length tbl).
  { rewrite <- (length_map ac tbl1), M1, length_alter. apply length_map. }
  assert (Va1 : valid tbl1 a) by (destruct Va; split; lia).
  assert (Vb1 : valid tbl1 b) by (destruct Vb; split; lia).
  destruct (runs_concat2 tbl1 a b W1 Va1 Vb1 Hne)
    as (r & tbl2 & E2 & W2 & X2 & -> & M2).
  assert (L2 : length tbl2 = length tbl1).
  { rewrite <- (length_map ac tbl2), M2. apply length_map. }
  assert (Vr : valid tbl2 (fst a, snd b))
    by (destruct Va1, Vb1; split; cbn [fst snd]; lia).
  destruct (addPattern_marks tbl2 id2 _ W2 Vr) as (tbl3 & E3 & W3 & M3).
  cbn [snd] in M3. rewrite M2, M1 in M3.
  exists tbl3. split; [|split].
  - unfold lbind. rewrite E1, E2, E3. reflexivity.
  - assert (Hb : (snd b < length tbl3)%nat).
    { rewrite <- (length_map ac tbl3), M3, !length_alter, length_map.
      destruct Vb. lia. }
    destruct (lookup_lt_is_Some_2 tbl3 _ Hb) as [en E]. exists en.
    assert (Hm : map ac tbl3 !! snd b = Some (ac en))
      by (rewrite list_lookup_fmap, E; reflexivity).
    rewrite M3, !list_lookup_alter_eq, list_lookup_fmap in Hm.
    destruct (tbl !! snd b) as [en0|]; [|discriminate].
    cbn in Hm. injection Hm as Hm.
    destruct (ac en0); rewrite <- Hm; eauto.
  - rewrite Forall_lookup. intros s en E.
    assert (Hm : map ac tbl3 !! s = Some (ac en))
      by (rewrite list_lookup_fmap, E; reflexivity).
    rewrite M3 in Hm. destruct (decide (s = snd b)) as [->|Hs].
    + rewrite !list_lookup_alter_eq, list_lookup_fmap in Hm.
      destruct (tbl !! snd b) as [en0|] eqn:E0; [|discriminate].
      cbn in Hm. injection Hm as Hm. specialize (Hfree _ _ E0).
      destruct (ac en0); rewrite <- Hm; congruence.
    + rewrite !list_lookup_alter_ne, list_lookup_fmap in Hm by congruence.
      destruct (tbl !! s) as [en0|] eqn:E0; [|discriminate].
      cbn in Hm. injection Hm as Hm. specialize (Hfree _ _ E0). congruence.
Qed.

(** ** The tables [word] and the character classes build *)

Lemma insert_middle {A} (pre post : list A) (x y : A) :
  <[length pre := y]> (pre ++ x :: post) = pre ++ y :: post.
Proof.
  replace (length pre) with (length pre + 0)%nat by lia.
  now rewrite insert_app_r.
Qed.

Lemma wordLoop_chain (cs : list nat) : forall pre,
  wordLoop cs (length pre) (pre ++ [emptyEntry])
  = Some ((length pre + length cs)%nat, pre ++ chain (length pre) cs).
Proof.
  induction cs as [|c cs IH]; intros pre; cbn [wordLoop chain length].
  - unfold lret. now rewrite Nat.add_0_r.
  - unfold lbind at 1. unfold node.
    unfold lbind at 1. unfold trans.
    rewrite <- app_assoc. cbn [app].
    rewrite (list_lookup_middle pre [emptyEntry] emptyEntry (length pre) eq_refl).
    rewrite (insert_middle pre [emptyEntry] emptyEntry).
    cbn [tr ac emptyEntry app]. rewrite length_app. cbn [length].
    specialize (IH (pre ++ [{| tr := [(c, (length pre + 1)%nat)]; ac := None |}])).
    rewrite length_app in IH. cbn [length] in IH.
    rewrite <- app_assoc in IH. cbn [app] in IH.
    replace (S (length pre)) with (length pre + 1)%nat by lia.
    rewrite IH. f_equal. f_equal; [lia|now rewrite <- app_assoc].
Qed.

(** X21: [word] never fails, whatever the table: it adds one state more
    than the string has bytes, chained one byte a step, and returns the
    first and the last of them; the new states carry no accepting mark and
    the old table is untouched.  For the empty string both ends are the
    same single state. *)
Theorem word_chain (str : string) (tbl : list NFALexer.Entry) :
  word str tbl
  = Some ((length tbl, (length tbl + length (bytes str))%nat),
          tbl ++ chain (length tbl) (bytes str)).
Proof.
  unfold word. unfold lbind at 1. unfold node.
  unfold lbind. now rewrite wordLoop_chain.
Qed.

Lemma forEach_class (t : nat) (cs : list nat) : forall pre done post,
  forEach cs (fun c => trans (length pre) c t)
          (pre ++ {| tr := done; ac := None |} :: post)
  = Some (tt, pre ++ {| tr := done ++ map (fun c => (c, t)) cs; ac := None |}
                  :: post).
Proof.
  induction cs as [|c cs IH]; intros pre done post; cbn [forEach map].
  - unfold lret. now rewrite app_nil_r.
  - unfold lbind at 1. unfold trans at 1.
    rewrite (list_lookup_middle pre post _ (length pre) eq_refl).
    rewrite (insert_middle pre post).
    cbn [tr ac]. rewrite IH, <- app_assoc. reflexivity.
Qed.

Lemma class_table (cs : list nat) (tbl : list Entry) :
  (s <- node ;; t <- node ;; forEach cs (fun c => trans s c t) ;; lret (s, t))
    tbl
  = Some ((length tbl, S (length tbl)), classTable tbl cs).
Proof.
  unfold lbind at 1. unfold node. unfold lbind at 1.
  rewrite length_app. cbn [length].
  rewrite <- app_assoc. cbn [app]. unfold lbind.
  replace (length tbl + 1)%nat with (S (length tbl)) by lia.
  change emptyEntry with {| tr := []; ac := None |} at 1.
  rewrite forEach_class. reflexivity.
Qed.

(** X22: the character classes.  Each of [ch], [range], [any],
    [utf8segment] and [except] never fails and adds exactly two states:
    the first has one transition to the second for every byte of the
    class and nothing else, the second is empty.  [range a b] has the
    bytes from [a] to [b] (none when [a > b]); [any] the bytes 1 to 255
    and [utf8segment] 128 to 255; [except ls] the bytes 1 to 255 that are
    not in [ls].  None of these three ever uses label 0, the label of the
    move [epsilon] makes; [ch] takes its bytes as given, so a 0 among them
    is such a move. *)
Theorem character_classes (tbl : list NFALexer.Entry) :
  let nfa := (length tbl, S (length tbl)) in
  (forall ls, ch ls tbl = Some (nfa, classTable tbl ls))
  /\ epsilon tbl = ch [0%nat] tbl
  /\ (forall a b, exists cs,
        range a b tbl = Some (nfa, classTable tbl cs)
        /\ forall c, c ∈ cs <-> (a <= c <= b)%nat)
  /\ (exists cs, any tbl = Some (nfa, classTable tbl cs)
                 /\ forall c, c ∈ cs <-> (1 <= c <= 255)%nat)
  /\ (exists cs, utf8segment tbl = Some (nfa, classTable tbl cs)
                 /\ forall c, c ∈ cs <-> (128 <= c <= 255)%nat)
  /\ (forall ls, exists cs,
        except ls tbl = Some (nfa, classTable tbl cs)
        /\ forall c, c ∈ cs <-> (1 <= c <= 255)%nat /\ c ∉ ls).
Proof.
  intros nfa. subst nfa.
  assert (Hrange : forall a b, exists cs,
            range a b tbl = Some ((length tbl, S (length tbl)), classTable tbl cs)
            /\ forall c, c ∈ cs <-> (a <= c <= b)%nat).
  { intros a b. exists (seq a (S b - a)). split; [apply class_table|].
    intros c. rewrite elem_of_seq. lia. }
  split; [intros ls; apply class_table|].
  split.
  { transitivity (Some ((length tbl, S (length tbl)), classTable tbl [0%nat]));
      [|symmetry; apply class_table].
    unfold epsilon. unfold lbind at 1. unfold node. unfold lbind at 1.
    rewrite length_app. cbn [length]. unfold lbind, trans.
    rewrite <- app_assoc. cbn [app].
    rewrite (list_lookup_middle tbl [emptyEntry] emptyEntry (length tbl) eq_refl).
    rewrite (insert_middle tbl [emptyEntry] emptyEntry).
    unfold lret, classTable. cbn [tr ac emptyEntry app map].
    now replace (length tbl + 1)%nat with (S (length tbl)) by lia. }
  split; [exact Hrange|].
  split; [exact (Hrange 1%nat 255%nat)|].
  split; [exact (Hrange 128%nat 255%nat)|].
  intros ls. eexists. split; [apply class_table|].
  intros c. rewrite list_elem_of_filter, elem_of_seq.
  rewrite forallb_forall.
  split.
  - intros [H Hr]. split; [lia|]. intros Hin.
    apply list_elem_of_In in Hin. specialize (H _ Hin).
    now rewrite Nat.eqb_refl in H.
  - intros [Hr Hn]. split; [|lia]. intros x Hx.
    apply list_elem_of_In in Hx.
    destruct (Nat.eqb_spec x c) as [->|]; [contradiction|reflexivity].
Qed.

End LexerProofs.

(** * The further properties at concrete inputs *)

Lemma set_unbound_lookup_unbound_witness :
  onlyYState = onlyYState
  /\ lookup 2 584 "x" onlyYState = (Ret None, onlyYState).
Proof.
  exact (set_unbound_lookup_unbound 2 584%nat "x" unit_ onlyYState onlyYState
           ltac:(vm_compute; reflexivity)).
Defined.

Lemma set_after_extend_witness :
  pool initialState !! bfalse = Some (Bool false)
  /\ (let st1 := snd (extend nil_ "x" btrue initialState) in
      let env' := (length (pool initialState) + 3)%nat in
      exists st2,
        setLoop (S 1) env' "x" bfalse st1 = (Ret true, st2)
        /\ trace st2 = did_set :: trace initialState
        /\ lookup (S 1) env' "x" st2
           = (Ret (match Bool false with Unit => None | _ => Some bfalse end),
              st2)).
Proof.
  split; [vm_compute; reflexivity|].
  exact (set_after_extend 1 initialState nil_ "x" btrue bfalse (Bool false)
           ltac:(vm_compute; reflexivity)).
Defined.

Lemma match_pair_binds_witness :
  pool pairPatternState !! 587%nat = Some (Cons 585 586)
  /\ pool pairPatternState !! 584%nat = Some (Cons 581 583)
  /\ exists env' st',
       match_ sampleHost (S (S 1)) 584 587 nil_ false pairPatternState
       = (Ret (true, env'), st')
       /\ lookup (S (S 1)) env' "x" st'
          = (Ret (match Nat64 7 with Unit => None | _ => Some 581%nat end), st')
       /\ lookup (S (S 1)) env' "r" st'
          = (Ret (match Cons 582 0 with Unit => None | _ => Some 583%nat end),
             st').
Proof.
  split; [vm_compute; reflexivity|].
  split; [vm_compute; reflexivity|].
  exact (match_pair_binds sampleHost 1 pairPatternState 584 587 nil_ 585 586
           581 583 "x" "r" (Nat64 7) (Cons 582 0)
           ltac:(vm_compute; reflexivity) ltac:(vm_compute; reflexivity)
           ltac:(vm_compute; reflexivity) ltac:(vm_compute; reflexivity)
           ltac:(vm_compute; reflexivity) ltac:(vm_compute; reflexivity)
           ltac:(discriminate) ltac:(discriminate) ltac:(discriminate)
           ltac:(discriminate) ltac:(discriminate)).
Defined.

Lemma evalList_identity_witness :
  selfList 3 (pool sevenTwoState) 584 = true
  /\ evalList (eval sampleHost (S 0)) 3 nil_ 584 sevenTwoState
     = (Ret 584%nat, sevenTwoState).
Proof.
  split; [vm_compute; reflexivity|].
  exact (evalList_identity sampleHost 0 3 3 sevenTwoState nil_ 584
           ltac:(vm_compute; reflexivity) ltac:(lia)).
Defined.

Lemma expand_identity_witness :
  noMacroCall 5 (nameMacros sumState) (pool sumState) 586 = true
  /\ expand sampleHost 5 586 sumState = (Ret 586%nat, sumState).
Proof.
  split; [vm_compute; reflexivity|].
  exact (expand_identity sampleHost 5 5 sumState 586
           ltac:(vm_compute; reflexivity) ltac:(lia)).
Defined.

Lemma string_substr_clamps_witness :
  pool substrArgsState !! 586%nat = Some (Cons 581 585)
  /\ pool substrArgsState !! 581%nat = Some (String "hello")
  /\ exists w pre post,
       prim_string_substr sampleHost nil_ 586 substrArgsState
       = (Ret (value (length (pool substrArgsState))),
          set_pool (pool substrArgsState ++ [String w]) substrArgsState)
       /\ "hello" = (pre ++ w ++ post)%string
       /\ size pre = Z.min 9 (size "hello")
       /\ size w = Z.min 3 (size "hello" - Z.min 9 (size "hello")).
Proof.
  split; [vm_compute; reflexivity|].
  split; [vm_compute; reflexivity|].
  exact (string_substr_clamps sampleHost substrArgsState nil_ 586 581 585 582
           584 583 0 "hello" 9 3
           ltac:(vm_compute; reflexivity) ltac:(vm_compute; reflexivity)
           ltac:(vm_compute; reflexivity) ltac:(vm_compute; reflexivity)
           ltac:(vm_compute; reflexivity) ltac:(vm_compute; reflexivity)
           ltac:(lia) ltac:(lia)).
Defined.


Lemma and_or_short_circuit_witness :
  pool falseSevenState !! 583%nat = Some (Cons 3 582)
  /\ pool falseSevenState !! 3%nat = Some (Bool false)
  /\ pool falseSevenState !! 581%nat = Some (Nat64 7)
  /\ (let done v := (Ret (value (length (pool falseSevenState))),
                     set_pool (pool falseSevenState ++ [Bool v]) falseSevenState) in
      let fails (r : Outcome Result * State) :=
        exists msg, r = (Throw (PartialEvalError msg 581), falseSevenState) in
      (if false
       then binary_Bool_or sampleHost nil_ 583 falseSevenState = done true
            /\ fails (binary_Bool_and sampleHost nil_ 583 falseSevenState)
       else binary_Bool_and sampleHost nil_ 583 falseSevenState = done false
            /\ fails (binary_Bool_or sampleHost nil_ 583 falseSevenState))
      /\ fails (binary_Bool sampleHost implb nil_ 583 falseSevenState)).
Proof.
  split; [vm_compute; reflexivity|].
  split; [vm_compute; reflexivity|].
  split; [vm_compute; reflexivity|].
  exact (and_or_short_circuit sampleHost falseSevenState nil_ 583 3 582 581 0
           false (Nat64 7)
           ltac:(vm_compute; reflexivity) ltac:(vm_compute; reflexivity)
           ltac:(vm_compute; reflexivity) ltac:(vm_compute; reflexivity)
           ltac:(intros v; discriminate)).
Defined.

Lemma nat64_arith_wraps_witness :
  pool sevenTwoState !! 584%nat = Some (Cons 581 583)
  /\ inRange64 7 /\ inRange64 2
  /\ (let out v := (Ret (value (length (pool sevenTwoState))),
                    set_pool (pool sevenTwoState ++ [Nat64 v]) sevenTwoState) in
      prim_add sampleHost nil_ 584 sevenTwoState
      = out (if 7 + 2 <? 2 ^ 64 then 7 + 2 else 7 + 2 - 2 ^ 64)
      /\ prim_sub sampleHost nil_ 584 sevenTwoState
         = out (if 2 <=? 7 then 7 - 2 else 7 - 2 + 2 ^ 64)
      /\ exists v k, prim_mul sampleHost nil_ 584 sevenTwoState = out v
                     /\ inRange64 v /\ 7 * 2 = v + k * 2 ^ 64).
Proof.
  split; [vm_compute; reflexivity|].
  split; [unfold inRange64; lia|].
  split; [unfold inRange64; lia|].
  exact (nat64_arith_wraps sampleHost sevenTwoState nil_ 584 581 583 582 0 7 2
           ltac:(vm_compute; reflexivity) ltac:(vm_compute; reflexivity)
           ltac:(vm_compute; reflexivity) ltac:(vm_compute; reflexivity)
           ltac:(unfold inRange64; lia) ltac:(unfold inRange64; lia)).
Defined.

Lemma comparison_after_evaluation_witness :
  fst (eval sampleHost 6 nil_ 586 sumState) = Ret 588%nat
  /\ pool (snd (eval sampleHost 6 nil_ 586 sumState)) !! 585%nat
     = Some (Cons 582 584)
  /\ exists p,
       binpred_Nat64 sampleHost Z.leb nil_ 585
                     (snd (eval sampleHost 6 nil_ 586 sumState))
       = (Ret (value p), snd (eval sampleHost 6 nil_ 586 sumState))
       /\ pool (snd (eval sampleHost 6 nil_ 586 sumState)) !! p
          = Some (Bool (Z.leb 1 2)).
Proof.
  split; [vm_compute; reflexivity|].
  split; [vm_compute; reflexivity|].
  exact (comparison_after_evaluation sampleHost 6 nil_ 586 sumState Z.leb
           nil_ 585 582 584 583 0 1 2
           ltac:(vm_compute; reflexivity) ltac:(vm_compute; reflexivity)
           ltac:(vm_compute; reflexivity) ltac:(vm_compute; reflexivity)
           ltac:(vm_compute; reflexivity) ltac:(vm_compute; reflexivity)).
Defined.


Lemma string_nat64_no_number_witness :
  pool textArgsState !! 582%nat = Some (Cons 581 0)
  /\ pool textArgsState !! 581%nat = Some (String "abc")
  /\ exists what,
       decorate 0%nat (prim_string_nat64 sampleHost nil_ 582) textArgsState
       = (Throw (StdException what), textArgsState).
Proof.
  split; [vm_compute; reflexivity|].
  split; [vm_compute; reflexivity|].
  exact (string_nat64_no_number sampleHost textArgsState nil_ 582 581 0 0 "abc"
           ltac:(vm_compute; reflexivity) ltac:(vm_compute; reflexivity)
           ltac:(split; [reflexivity|
                 split; [discriminate|
                 split; [discriminate|vm_compute; discriminate]]])).
Defined.

Lemma partial_error_is_unbound_symbol_witness :
  exists s,
       pool (snd (eval sampleHost 10 nil_ 597 macroThenFailState)) !! 594%nat
       = Some (Symbol s)
       /\ namePrims (snd (eval sampleHost 10 nil_ 597 macroThenFailState)) !! s
          = None
       /\ ("unbound symbol " ++ dquote ++ "undefined_symbol" ++ dquote)%string
          = ("unbound symbol " ++ dquote ++ s ++ dquote)%string.
Proof.
  exact (partial_error_is_unbound_symbol sampleHost 10 nil_ 597
           macroThenFailState
           (snd (eval sampleHost 10 nil_ 597 macroThenFailState))
           ("unbound symbol " ++ dquote ++ "undefined_symbol" ++ dquote)%string
           594 ltac:(vm_compute; reflexivity)).
Defined.

Lemma resolve_returns_rule_node_witness :
  (length (pool parsedState) <= 587)%nat
  /\ exists k r name,
       pool parsedResolved !! 587%nat = Some (Cons k r)
       /\ pool parsedResolved !! k = Some (Symbol name)
       /\ name ∈ ruleNames (grammar parsedState).
Proof.
  exact (resolve_returns_rule_node sampleHost 5 8 parsedState parsedResolved
           587 ltac:(vm_compute; reflexivity)).
Defined.

Lemma constructors_keep_table_witness :
  NFALexer.wfb twoWords = true
  /\ (NFALexer.safe twoWords NFALexer.epsilon
      /\ (forall ls, NFALexer.safe twoWords (NFALexer.ch ls))
      /\ (forall a b, NFALexer.safe twoWords (NFALexer.range a b))
      /\ (forall str, NFALexer.safe twoWords (NFALexer.word str))
      /\ NFALexer.safe twoWords NFALexer.any
      /\ NFALexer.safe twoWords NFALexer.utf8segment
      /\ (forall ls, NFALexer.safe twoWords (NFALexer.except ls))
      /\ (forall ls, Forall (NFALexer.valid twoWords) ls ->
            NFALexer.safe twoWords (NFALexer.alt ls))
      /\ (forall a, NFALexer.valid twoWords a ->
            NFALexer.safe twoWords (NFALexer.star a))
      /\ (forall a, NFALexer.valid twoWords a ->
            NFALexer.safe twoWords (NFALexer.plus a))
      /\ (forall a b, NFALexer.valid twoWords a -> NFALexer.valid twoWords b ->
            snd a <> fst b -> NFALexer.safe twoWords (NFALexer.concat2 a b))).
Proof.
  split; [vm_compute; reflexivity|].
  exact (constructors_keep_table twoWords
           (wfb_wf twoWords ltac:(vm_compute; reflexivity))).
Defined.

Lemma shared_accepting_state_first_wins_witness :
  NFALexer.wfb twoWords = true
  /\ exists tbl',
       NFALexer.lbind (NFALexer.addPattern 1 (3, 4)%nat)
         (fun _ => NFALexer.lbind (NFALexer.concat2 (1, 2)%nat (3, 4)%nat)
            (fun r => NFALexer.lbind (NFALexer.addPattern 2 r)
               (fun _ => NFALexer.lret r))) twoWords
       = Some ((fst (1, 2)%nat, snd (3, 4)%nat), tbl')
       /\ (exists en x, tbl' !! snd (3, 4)%nat = Some en
                        /\ NFALexer.ac en = Some x)
       /\ Forall (fun en => NFALexer.ac en <> Some 2%nat) tbl'.
Proof.
  split; [vm_compute; reflexivity|].
  exact (shared_accepting_state_first_wins twoWords 1 2 (1, 2)%nat (3, 4)%nat
           (wfb_wf twoWords ltac:(vm_compute; reflexivity))
           ltac:(split; vm_compute; lia) ltac:(split; vm_compute; lia)
           ltac:(cbn; lia) ltac:(lia)
           ltac:(vm_compute; repeat (constructor; [discriminate|]); constructor)).
Defined.

End Eval.
